(** * The camera monitoring agent of [server.js]

    A shallow embedding of the orchestration core of the edge agent
    (camera discovery, frame capture, prediction dispatch, the polling
    loop, model rotation and the two bounded histories), of its read
    endpoints, its autostart entry and browser launch, of the update
    script [selfupdate.js] and of the list logic of the two dashboard
    components, followed by the properties stated about them.

    Conventions of the embedding.
    - JavaScript strings are [string]s of code units; numbers that are
      array indices, camera identifiers, ports or epoch milliseconds are
      [N] or [nat]; process exit codes are [option Z] ([None] is the
      [null] code of a process ended by a signal).
    - An ISO-8601 timestamp produced by [new Date().toISOString()] is
      represented by the epoch-millisecond value it denotes, which is what
      [new Date(s)] recovers when two timestamps are compared.
    - Event handlers are functions on explicit state; the environment
      (child processes, the network, the clock) is a list of events. *)

From Stdlib Require Import ZArith NArith Ascii String DecimalString DecimalPos
  DecimalN Sorted Lia.
From Stdlib Require QArith.
From stdpp Require Import gmap strings list fin_maps sorting.

(** ** JavaScript strings *)

Module JsString.

Definition newline : ascii := "010"%char.
Definition dquote : ascii := "034"%char.

(** [s.startsWith(p)] *)
Definition startsWith (p s : string) : bool := String.prefix p s.

(** [s.includes(needle)] *)
Fixpoint includes (needle s : string) : bool :=
  startsWith needle s ||
  match s with
  | EmptyString => false
  | String _ s' => includes needle s'
  end.

(** [s.endsWith(suffix)] *)
Definition endsWith (suffix s : string) : bool :=
  startsWith (String.rev suffix) (String.rev s).

(** White space removed by [trim()], among the code units below 256. *)
Definition is_space (c : ascii) : bool :=
  let n := N_of_ascii c in
  ((9 <=? n) && (n <=? 13) || (n =? 32) || (n =? 160))%N.

Fixpoint trimStart (s : string) : string :=
  match s with
  | EmptyString => EmptyString
  | String c s' => if is_space c then trimStart s' else s
  end.

Definition trimEnd (s : string) : string :=
  String.rev (trimStart (String.rev s)).

(** [s.trim()] *)
Definition trim (s : string) : string := trimEnd (trimStart s).

(** [s.split('\n')]: never empty, a trailing newline yields a last
    empty piece. *)
Fixpoint split_lines (s : string) : list string :=
  match s with
  | EmptyString => [EmptyString]
  | String c s' =>
      if Ascii.eqb c newline then EmptyString :: split_lines s'
      else match split_lines s' with
           | l :: ls => String c l :: ls
           | [] => [String c EmptyString]
           end
  end.

(** [s.replace(c, '')] for a one-character pattern: only the first
    occurrence goes. *)
Fixpoint remove_first (c : ascii) (s : string) : string :=
  match s with
  | EmptyString => EmptyString
  | String d s' => if Ascii.eqb c d then s' else String d (remove_first c s')
  end.

(** Splits [s] before the first occurrence of [c]. *)
Fixpoint break_at (c : ascii) (s : string) : string * string :=
  match s with
  | EmptyString => (EmptyString, EmptyString)
  | String d s' =>
      if Ascii.eqb c d then (EmptyString, s)
      else let '(a, b) := break_at c s' in (String d a, b)
  end.

(** The part of [s] after its first [n] code units. *)
Fixpoint drop (n : nat) (s : string) : string :=
  match n, s with
  | S n', String _ s' => drop n' s'
  | _, _ => s
  end.

(** Template-literal rendering of a non-negative integer. *)
Definition of_N (n : N) : string := NilZero.string_of_uint (N.to_uint n).

(** Template-literal rendering of an exit code; [null] prints as such. *)
Definition of_code (code : option Z) : string :=
  match code with
  | Some z => NilZero.string_of_int (Z.to_int z)
  | None => "null"
  end.

End JsString.

(** ** JSON values, as [response.json()] and axios hand them over *)

#[local] Set Warnings "-register-all".

Inductive json : Type :=
| JNull
| JBool (b : bool)
| JNumber (q : QArith_base.Q)
| JString (s : string)
| JArray (items : list json)
| JObject (fields : list (string * json)).

(** Truthiness of a parsed value (a parsed number is never NaN). *)
Definition truthy (v : json) : bool :=
  match v with
  | JNull => false
  | JBool b => b
  | JNumber q => negb (QArith_base.Qeq_bool q (QArith_base.Qmake 0 1))
  | JString s => negb (String.eqb s "")
  | JArray _ | JObject _ => true
  end.

Fixpoint assoc (k : string) (fields : list (string * json)) : option json :=
  match fields with
  | [] => None
  | (k', v) :: rest => if String.eqb k k' then Some v else assoc k rest
  end.

(** [v[k]] for a string key that no prototype defines: [None] is a
    [TypeError] (reading a property of [null]), [Some None] is
    [undefined]. *)
Definition get_property (v : json) (k : string) : option (option json) :=
  match v with
  | JNull => None
  | JObject fields => Some (assoc k fields)
  | _ => Some None
  end.

(** ** Data model *)

Abbreviation Buffer := (list Byte.byte).

Record CameraDescriptor := {
  id : N;
  name : option string;          (* absent on the dshow path *)
  device : option string;        (* [None]: [undefined] *)
  streamPort : N;
  streamUrl : string
}.

Record ErrorEntry := {
  err_cameraId : N;
  err_error : string;
  err_timestamp : N
}.

Record Prediction := {
  cameraId : N;
  model : option string;         (* [None]: [currentModels[i]] was [undefined] *)
  timestamp : N;
  result : json;
  image : string
}.

(** The module-level variables of the server. *)
Record ServerState := {
  cameras : list CameraDescriptor;
  currentModels : list string;
  currentModelIndex : nat;
  predictions : list Prediction;
  systemErrors : list ErrorEntry;
  imageBase : string
}.

Definition API_MAIN : string := "https://vertiapp.xyz".
Definition API_PREDICT_ENDPOINT : string := "/predict".
Definition API_MODEL_LIST_ENDPOINT : string := "/list-models".

Definition initial_state : ServerState := {|
  cameras := [];
  currentModels := ["lettuce-diseases"; "malabar-spinach-training"];
  currentModelIndex := 0;
  predictions := [];
  systemErrors := [];
  imageBase := ""
|}.

Definition set_cameras (cs : list CameraDescriptor) (g : ServerState) : ServerState :=
  {| cameras := cs; currentModels := currentModels g;
     currentModelIndex := currentModelIndex g; predictions := predictions g;
     systemErrors := systemErrors g; imageBase := imageBase g |}.

Definition set_currentModelIndex (i : nat) (g : ServerState) : ServerState :=
  {| cameras := cameras g; currentModels := currentModels g;
     currentModelIndex := i; predictions := predictions g;
     systemErrors := systemErrors g; imageBase := imageBase g |}.

Definition set_predictions (ps : list Prediction) (g : ServerState) : ServerState :=
  {| cameras := cameras g; currentModels := currentModels g;
     currentModelIndex := currentModelIndex g; predictions := ps;
     systemErrors := systemErrors g; imageBase := imageBase g |}.

Definition set_systemErrors (es : list ErrorEntry) (g : ServerState) : ServerState :=
  {| cameras := cameras g; currentModels := currentModels g;
     currentModelIndex := currentModelIndex g; predictions := predictions g;
     systemErrors := es; imageBase := imageBase g |}.

Definition set_imageBase (s : string) (g : ServerState) : ServerState :=
  {| cameras := cameras g; currentModels := currentModels g;
     currentModelIndex := currentModelIndex g; predictions := predictions g;
     systemErrors := systemErrors g; imageBase := s |}.

(** ** The error history *)

(** [function addSystemError(cameraId, error)]; [now] is the clock read by
    [new Date()]. *)
Definition addSystemError (camId : N) (error : string) (now : N)
    (g : ServerState) : ServerState :=
  let errorEntry :=
    {| err_cameraId := camId; err_error := error; err_timestamp := now |} in
  let unshifted := errorEntry :: systemErrors g in
  if 50 <? length unshifted
  then set_systemErrors (take 50 unshifted) g
  else set_systemErrors unshifted g.

(** ** The prediction history *)

(** [p.filter(pred => pred !== null)] *)
Definition non_null (p : list (option Prediction)) : list Prediction :=
  omap (λ pred, pred) p.

(** The [then] callback of [predictionLoop]:
    [predictions.unshift(...p.filter(pred => pred !== null))] and the
    truncation that follows. *)
Definition commitPredictions (p : list (option Prediction))
    (g : ServerState) : ServerState :=
  let unshifted := non_null p ++ predictions g in
  if 100 <? length unshifted
  then set_predictions (take 100 unshifted) g
  else set_predictions unshifted g.

(** The handler of [GET /api/predictions/latest]: the object
    [latestByCamera] filled by the loop, then [Object.values] of it. *)
Definition latest_visit (latestByCamera : gmap N Prediction) (p : Prediction)
    : gmap N Prediction :=
  match latestByCamera !! cameraId p with
  | None => <[cameraId p := p]> latestByCamera
  | Some seen =>
      if (timestamp seen <? timestamp p)%N
      then <[cameraId p := p]> latestByCamera
      else latestByCamera
  end.

Definition latestByCamera (ps : list Prediction) : gmap N Prediction :=
  foldl latest_visit ∅ ps.

(** [Object.values] lists integer-like keys in ascending order. *)
Definition object_values {A} (o : gmap N A) : list A :=
  omap (λ k, o !! k) (merge_sort N.le (elements (dom o))).

Definition api_predictions_latest (g : ServerState) : list Prediction :=
  object_values (latestByCamera (predictions g)).

(** ** Camera discovery *)

Inductive Platform := Linux | Windows | OtherPlatform.

Definition stream_url (port : N) : string :=
  "http://localhost:" +:+ JsString.of_N port +:+ "/stream".

(** *** The v4l2-ctl listing *)

Record V4l2Camera := {
  v4l2_name : string;
  v4l2_devices : list string
}.

(** One turn of the [for (const line of lines)] loop of the [close]
    handler; the state is [(cameras, currentCamera)]. *)
Definition v4l2_line (st : list V4l2Camera * option V4l2Camera) (line : string)
    : list V4l2Camera * option V4l2Camera :=
  let '(cams, currentCamera) := st in
  let trimmedLine := JsString.trim line in
  if JsString.includes "pispbe" trimmedLine
     || JsString.includes "rpivid" trimmedLine
     || JsString.includes "/dev/media" trimmedLine
  then st
  else if (0 <? String.length trimmedLine)
          && negb (JsString.startsWith "/dev/" trimmedLine)
          && JsString.endsWith "):" trimmedLine
  then (cams,
        Some {| v4l2_name := JsString.trim (JsString.remove_first ":"%char trimmedLine);
                v4l2_devices := [] |})
  else if JsString.startsWith "/dev/video" trimmedLine
  then match currentCamera with
       | Some cam =>
           if length (v4l2_devices cam) =? 0
           then (cams ++ [ {| v4l2_name := v4l2_name cam;
                              v4l2_devices := v4l2_devices cam ++ [trimmedLine] |} ],
                 None)
           else (cams, None)
       | None => st
       end
  else st.

Definition v4l2_cameras (output : string) : list V4l2Camera :=
  fst (foldl v4l2_line ([], None) (JsString.split_lines output)).

(** The [for (let i = 0; i < cameras.length; i++)] loop. *)
Definition v4l2_descriptor (i : nat) (camera : V4l2Camera) : CameraDescriptor :=
  {| id := N.of_nat i;
     name := Some (v4l2_name camera);
     device := head (v4l2_devices camera);
     streamPort := 20000 + N.of_nat i;
     streamUrl := stream_url (20000 + N.of_nat i) |}.

Definition linux_close (output : string) : list CameraDescriptor :=
  imap v4l2_descriptor (v4l2_cameras output).

(** *** The dshow listing *)

(** [line.match(re)] for the device pattern: the leftmost position where
    a closing bracket, a space and a double quote are followed by a
    non-empty run free of double quotes, then by a double quote and
    [ (video)]; the result is the captured run. *)
Fixpoint match_video (line : string) : option string :=
  let here :=
    if JsString.startsWith (String "]" (String " " (String JsString.dquote ""))) line
    then
      let '(run, rest) := JsString.break_at JsString.dquote (JsString.drop 3 line) in
      if (0 <? String.length run)
         && JsString.startsWith (String JsString.dquote " (video)") rest
      then Some run else None
    else None in
  match here with
  | Some run => Some run
  | None =>
      match line with
      | EmptyString => None
      | String _ line' => match_video line'
      end
  end.

(** One turn of the loop of the [close] handler; the state is
    [(cameraIndex, detectedCameras)]. *)
Definition dshow_line (st : N * list CameraDescriptor) (line : string)
    : N * list CameraDescriptor :=
  let '(cameraIndex, detectedCameras) := st in
  if JsString.includes (String "]" (String " " (String JsString.dquote ""))) line
     && JsString.includes (String JsString.dquote " (video)") line
  then match match_video line with
       | Some deviceName =>
           ((cameraIndex + 1)%N,
            detectedCameras ++
              [ {| id := cameraIndex;
                   name := None;
                   device := Some deviceName;
                   streamPort := 20000 + cameraIndex;
                   streamUrl := stream_url (20000 + cameraIndex) |} ])
       | None => st
       end
  else st.

Definition windows_close (output : string) : list CameraDescriptor :=
  snd (foldl dshow_line (0%N, []) (JsString.split_lines output)).

(** *** The probe process and the promise of [detectCameras] *)

Inductive ProbeEvent :=
| ProbeStdout (text : string)
| ProbeStderr (text : string)
| ProbeClose
| ProbeError (message : string).

(** What [spawn] does: throw at once, or hand back a child that emits
    events. *)
Inductive ProbeSpawn :=
| SpawnThrows (message : string)
| Spawned (events : list ProbeEvent).

(** Where an asynchronous call stands once the events are over. An
    [error] event on an emitter without an [error] listener is thrown
    from the event loop: the process dies of an uncaught exception. *)
Inductive Settlement (A : Type) :=
| StillPending
| Fulfilled (value : A)
| UncaughtException (message : string).
Arguments StillPending {A}.
Arguments Fulfilled {A} value.
Arguments UncaughtException {A} message.

(** [resolve(v)] on a promise that may be settled already. *)
Definition resolve_with {A} (v : A) (p : Settlement A) : Settlement A :=
  match p with
  | StillPending => Fulfilled v
  | _ => p
  end.

(** Listeners of the Linux branch: [stdout.on('data')], [on('close')],
    [on('error')]. State: the accumulated [output] and the promise. *)
Definition linux_event (st : string * Settlement (list CameraDescriptor))
    (e : ProbeEvent) : string * Settlement (list CameraDescriptor) :=
  let '(output, promise) := st in
  match promise with
  | UncaughtException _ => st
  | _ =>
      match e with
      | ProbeStdout text => (output +:+ text, promise)
      | ProbeStderr _ => st
      | ProbeClose => (output, resolve_with (linux_close output) promise)
      | ProbeError _ => (output, resolve_with [] promise)
      end
  end.

(** Listeners of the Windows branch: [stderr.on('data')] and
    [on('close')] only. *)
Definition windows_event (st : string * Settlement (list CameraDescriptor))
    (e : ProbeEvent) : string * Settlement (list CameraDescriptor) :=
  let '(output, promise) := st in
  match promise with
  | UncaughtException _ => st
  | _ =>
      match e with
      | ProbeStdout _ => st
      | ProbeStderr text => (output +:+ text, promise)
      | ProbeClose => (output, resolve_with (windows_close output) promise)
      | ProbeError message => (output, UncaughtException message)
      end
  end.

(** [async function detectCameras()]. *)
Definition detectCameras (platform : Platform) (probe : ProbeSpawn)
    : Settlement (list CameraDescriptor) :=
  match platform with
  | Linux =>
      match probe with
      | SpawnThrows _ => Fulfilled []
      | Spawned events => snd (foldl linux_event ("", StillPending) events)
      end
  | Windows =>
      match probe with
      | SpawnThrows _ => Fulfilled []
      | Spawned events => snd (foldl windows_event ("", StillPending) events)
      end
  | OtherPlatform => Fulfilled []
  end.

(** ** The model catalog *)

Inductive HttpReply :=
| RequestFails (reason : string)
| ReplyData (data : json).

Record HttpGet := { get_url : string }.

(** [async function getModelList()]; [net] answers the GET request. *)
Definition getModelList (net : HttpGet → HttpReply) : json :=
  match net {| get_url := API_MAIN +:+ API_MODEL_LIST_ENDPOINT |} with
  | ReplyData data => if truthy data then data else JArray []
  | RequestFails _ => JArray [JString "bacterial-disease"; JString "early-blight"]
  end.

(** ** Frame capture *)

Inductive Promise (A : Type) :=
| Pending
| Resolved (value : A)
| Rejected (message : string).
Arguments Pending {A}.
Arguments Resolved {A} value.
Arguments Rejected {A} message.

(** [resolve] and [reject] act on a pending promise only. *)
Definition settle {A} (next p : Promise A) : Promise A :=
  match p with
  | Pending => next
  | _ => p
  end.

(** What [spawn('ffmpeg', ...)] does inside the executor of the promise:
    hand back a child, or throw. *)
Inductive FfmpegSpawn :=
| FfmpegChild
| FfmpegThrows (message : string).

(** Events of the ffmpeg child process. *)
Inductive ProcEvent :=
| StdoutData (chunk : Buffer)
| StderrData (text : string)
| Close (code : option Z)
| SpawnError (message : string).

(** The closure of one [captureFrame] call ([imageBuffer], [hasData],
    [stderrOutput], the returned promise), the child process as the
    runtime holds it (signals passed to [kill], whether it has stopped
    emitting: [close] was emitted, or there is no child) and the timer
    set by [setTimeout], if the executor got that far. *)
Record CaptureJob := {
  job_camera : CameraDescriptor;
  imageBuffer : Buffer;
  hasData : bool;
  stderrOutput : string;
  promise : Promise Buffer;
  kills : list string;
  proc_closed : bool;
  armedAt : option N;
  firedAt : option N
}.

Definition with_promise (p : Promise Buffer) (j : CaptureJob) : CaptureJob :=
  {| job_camera := job_camera j; imageBuffer := imageBuffer j;
     hasData := hasData j; stderrOutput := stderrOutput j; promise := p;
     kills := kills j; proc_closed := proc_closed j; armedAt := armedAt j;
     firedAt := firedAt j |}.

Definition with_kill (signal : string) (j : CaptureJob) : CaptureJob :=
  {| job_camera := job_camera j; imageBuffer := imageBuffer j;
     hasData := hasData j; stderrOutput := stderrOutput j;
     promise := promise j; kills := kills j ++ [signal];
     proc_closed := proc_closed j; armedAt := armedAt j;
     firedAt := firedAt j |}.

Definition with_closed (j : CaptureJob) : CaptureJob :=
  {| job_camera := job_camera j; imageBuffer := imageBuffer j;
     hasData := hasData j; stderrOutput := stderrOutput j;
     promise := promise j; kills := kills j; proc_closed := true;
     armedAt := armedAt j; firedAt := firedAt j |}.

Definition with_fired (t : N) (j : CaptureJob) : CaptureJob :=
  {| job_camera := job_camera j; imageBuffer := imageBuffer j;
     hasData := hasData j; stderrOutput := stderrOutput j;
     promise := promise j; kills := kills j; proc_closed := proc_closed j;
     armedAt := armedAt j; firedAt := Some t |}.

(** [ffmpeg.stdout.on('data', ...)] *)
Definition on_stdout (chunk : Buffer) (j : CaptureJob) : CaptureJob :=
  {| job_camera := job_camera j; imageBuffer := imageBuffer j ++ chunk;
     hasData := true; stderrOutput := stderrOutput j; promise := promise j;
     kills := kills j; proc_closed := proc_closed j; armedAt := armedAt j;
     firedAt := firedAt j |}.

(** [ffmpeg.stderr.on('data', ...)] *)
Definition on_stderr (text : string) (j : CaptureJob) : CaptureJob :=
  {| job_camera := job_camera j; imageBuffer := imageBuffer j;
     hasData := hasData j; stderrOutput := stderrOutput j +:+ text;
     promise := promise j; kills := kills j; proc_closed := proc_closed j;
     armedAt := armedAt j; firedAt := firedAt j |}.

Definition close_message (camera : CameraDescriptor) (code : option Z)
    (stderr : string) : string :=
  "Failed to capture frame from MJPEG stream for camera "
  +:+ JsString.of_N (id camera) +:+ ". Exit code: " +:+ JsString.of_code code
  +:+ ". Stderr: " +:+ JsString.trim stderr.

Definition error_message (camera : CameraDescriptor) (message : string) : string :=
  "FFmpeg error for camera " +:+ JsString.of_N (id camera) +:+ ": " +:+ message.

Definition timeout_message (camera : CameraDescriptor) : string :=
  "Timeout capturing frame from camera " +:+ JsString.of_N (id camera).

Definition code_is_zero (code : option Z) : bool :=
  match code with
  | Some z => (z =? 0)%Z
  | None => false
  end.

(** [ffmpeg.on('close', async (code) => ...)]. [STORE_IMAGES_TO_TMP] is the
    constant [false], so the success branch is the one that resolves with
    the buffer without touching the file system. *)
Definition on_close (code : option Z) (now : N) (st : ServerState * CaptureJob)
    : ServerState * CaptureJob :=
  let '(g, j) := st in
  if code_is_zero code && hasData j && (0 <? length (imageBuffer j))
  then (g, with_promise (settle (Resolved (imageBuffer j)) (promise j)) j)
  else
    let errorMsg := close_message (job_camera j) code (stderrOutput j) in
    (addSystemError (id (job_camera j)) errorMsg now g,
     with_promise (settle (Rejected errorMsg) (promise j)) j).

(** [ffmpeg.on('error', (err) => ...)] *)
Definition on_error (message : string) (now : N) (st : ServerState * CaptureJob)
    : ServerState * CaptureJob :=
  let '(g, j) := st in
  let errorMsg := error_message (job_camera j) message in
  (addSystemError (id (job_camera j)) errorMsg now g,
   with_promise (settle (Rejected errorMsg) (promise j)) j).

(** The callback handed to [setTimeout]. *)
Definition on_timeout (now : N) (st : ServerState * CaptureJob)
    : ServerState * CaptureJob :=
  let '(g, j) := st in
  if negb (hasData j)
  then
    let killed := with_kill "SIGTERM" j in
    let errorMsg := timeout_message (job_camera j) in
    (addSystemError (id (job_camera j)) errorMsg now g,
     with_promise (settle (Rejected errorMsg) (promise killed)) killed)
  else st.

Definition CAPTURE_TIMEOUT_MS : N := 10000.

(** The child emits nothing after its [close]. *)
Definition deliver (e : ProcEvent) (now : N) (st : ServerState * CaptureJob)
    : ServerState * CaptureJob :=
  let '(g, j) := st in
  if proc_closed j then st
  else match e with
       | StdoutData chunk => (g, on_stdout chunk j)
       | StderrData text => (g, on_stderr text j)
       | Close code => on_close code now (g, with_closed j)
       | SpawnError message => on_error message now st
       end.

(** The timer runs its callback once, at the first turn of the event loop
    that finds the delay elapsed. *)
Definition fire_timer (now : N) (st : ServerState * CaptureJob)
    : ServerState * CaptureJob :=
  let '(g, j) := st in
  match firedAt j with
  | Some _ => st
  | None =>
      match armedAt j with
      | Some armed =>
          if (armed + CAPTURE_TIMEOUT_MS <=? now)%N
          then on_timeout now (g, with_fired now j)
          else st
      | None => st
      end
  end.

(** [captureFrame(camera)] up to the return of its promise. When
    [spawn] hands back the child, the listeners are attached and the
    timer is armed; a failure to start ffmpeg that the runtime reports
    later arrives as the [error] event of that child. When [spawn]
    throws, the executor ends there: the promise is rejected with what
    was thrown, no listener is attached, no timer is armed and nothing
    is recorded; the record then holds a process that takes no event
    and a timer that was never armed. *)
Definition captureFrame (spawn : FfmpegSpawn) (camera : CameraDescriptor) (now : N)
    : CaptureJob :=
  match spawn with
  | FfmpegChild =>
      {| job_camera := camera; imageBuffer := []; hasData := false;
         stderrOutput := ""; promise := Pending; kills := [];
         proc_closed := false; armedAt := Some now; firedAt := None |}
  | FfmpegThrows message =>
      {| job_camera := camera; imageBuffer := []; hasData := false;
         stderrOutput := ""; promise := Rejected message; kills := [];
         proc_closed := true; armedAt := None; firedAt := None |}
  end.

(** One capture whose process was spawned, on its own: time passing and
    process events. *)
Inductive CaptureEvent :=
| Wait (dt : N)
| Proc (e : ProcEvent).

Record CaptureWorld := {
  cw_state : ServerState;
  cw_now : N;
  cw_job : CaptureJob
}.

Definition capture_step (w : CaptureWorld) (ev : CaptureEvent) : CaptureWorld :=
  match ev with
  | Wait dt =>
      let now := (cw_now w + dt)%N in
      let '(g, j) := fire_timer now (cw_state w, cw_job w) in
      {| cw_state := g; cw_now := now; cw_job := j |}
  | Proc e =>
      let '(g, j) := deliver e (cw_now w) (cw_state w, cw_job w) in
      {| cw_state := g; cw_now := cw_now w; cw_job := j |}
  end.

(** A capture started at [now] whose process was spawned. *)
Definition capture_start (camera : CameraDescriptor) (now : N) (g : ServerState)
    : CaptureWorld :=
  {| cw_state := g; cw_now := now;
     cw_job := captureFrame FfmpegChild camera now |}.

Definition capture_run (evs : list CaptureEvent) (w : CaptureWorld) : CaptureWorld :=
  foldl capture_step w evs.

(** The bytes the process wrote to its standard output during [evs]. *)
Definition stdout_bytes (evs : list CaptureEvent) : Buffer :=
  concat (omap (λ ev, match ev with
                      | Proc (StdoutData chunk) => Some chunk
                      | _ => None
                      end) evs).

(** ** Prediction dispatch *)

Definition base64_alphabet : string :=
  "ABCDEFGHIJKLMNOPQRSTUVWXYZabcdefghijklmnopqrstuvwxyz0123456789+/".

Definition base64_digit (n : N) : ascii :=
  default "="%char (String.get (N.to_nat n) base64_alphabet).

(** [buffer.toString('base64')] *)
Fixpoint base64 (bytes : Buffer) : string :=
  match bytes with
  | [] => ""
  | [a] =>
      let x := Byte.to_N a in
      String (base64_digit (N.shiftr x 2))
        (String (base64_digit (N.shiftl (N.land x 3) 4)) "==")
  | [a; b] =>
      let x := Byte.to_N a in
      let y := Byte.to_N b in
      String (base64_digit (N.shiftr x 2))
        (String (base64_digit (N.lor (N.shiftl (N.land x 3) 4) (N.shiftr y 4)))
          (String (base64_digit (N.shiftl (N.land y 15) 2)) "="))
  | a :: b :: c :: rest =>
      let x := Byte.to_N a in
      let y := Byte.to_N b in
      let z := Byte.to_N c in
      String (base64_digit (N.shiftr x 2))
        (String (base64_digit (N.lor (N.shiftl (N.land x 3) 4) (N.shiftr y 4)))
          (String (base64_digit (N.lor (N.shiftl (N.land y 15) 2) (N.shiftr z 6)))
            (String (base64_digit (N.land z 63)) (base64 rest))))
  end.

(** What the POST to the inference service comes to: [fetch] rejects, or
    a response arrives with its [ok] flag, its status and a body that
    [response.json()] parses ([None]: parsing rejects). *)
Inductive FetchOutcome :=
| FetchRejects (reason : string)
| FetchResponds (ok : bool) (status : N) (body : option json).

(** Exceptions raised inside the [try] block of [sendPrediction]. *)
Inductive DispatchError :=
| TransportFailure (reason : string)
| HttpError (status : N)
| InvalidJson
| PropertyOfNull
| PredictionError (field : json).

(** How a call of an [async] function ends for the one who awaits it. *)
Inductive Completion (A : Type) :=
| Returns (value : A)
| Throws (message : string).
Arguments Returns {A} value.
Arguments Throws {A} message.

(** The body of the [try] block. *)
Definition sendPrediction_try (camera : CameraDescriptor) (imageBuffer : Buffer)
    (model : option string) (net : FetchOutcome) (now : N) (g : ServerState)
    : DispatchError + ServerState * Prediction :=
  match net with
  | FetchRejects reason => inl (TransportFailure reason)
  | FetchResponds ok status body =>
      if negb ok then inl (HttpError status)
      else match body with
           | None => inl InvalidJson
           | Some result =>
               match get_property result "error" with
               | None => inl PropertyOfNull
               | Some (Some field) =>
                   if truthy field then inl (PredictionError field)
                   else
                     let imageBase64 :=
                       "data:image/jpeg;base64," +:+ base64 imageBuffer in
                     inr (set_imageBase imageBase64 g,
                          {| cameraId := id camera; model := model;
                             timestamp := now; result := result;
                             image := imageBase64 |})
               | Some None =>
                   let imageBase64 :=
                     "data:image/jpeg;base64," +:+ base64 imageBuffer in
                   inr (set_imageBase imageBase64 g,
                        {| cameraId := id camera; model := model;
                           timestamp := now; result := result;
                           image := imageBase64 |})
               end
           end
  end.

(** [async function sendPrediction(camera, imageBuffer, model)]: the
    [catch] clause logs and returns [null]. *)
Definition sendPrediction (camera : CameraDescriptor) (imageBuffer : Buffer)
    (model : option string) (net : FetchOutcome) (now : N) (g : ServerState)
    : ServerState * Completion (option Prediction) :=
  match sendPrediction_try camera imageBuffer model net now g with
  | inr (g', prediction) => (g', Returns (Some prediction))
  | inl _ => (g, Returns None)
  end.

(** ** One camera of one cycle: the callback given to [cameras.map] *)

Inductive TaskPhase :=
| AwaitingCapture
| AwaitingDispatch (frame : Buffer)
| Finished (outcome : option Prediction).

Record CameraTask := {
  task_job : CaptureJob;
  task_model : option string;
  task_phase : TaskPhase
}.

Definition capture_failed_message (camera : CameraDescriptor) (message : string)
    : string :=
  "Camera " +:+ JsString.of_N (id camera) +:+ " capture failed: " +:+ message.

(** Continuation of [await captureFrame(camera)]: on fulfilment
    [sendPrediction] is called, on rejection the [catch] clause runs. *)
Definition resume (now : N) (st : ServerState * CameraTask)
    : ServerState * CameraTask :=
  let '(g, t) := st in
  match task_phase t with
  | AwaitingCapture =>
      match promise (task_job t) with
      | Pending => st
      | Resolved frame =>
          (g, {| task_job := task_job t; task_model := task_model t;
                 task_phase := AwaitingDispatch frame |})
      | Rejected message =>
          let camera := job_camera (task_job t) in
          let errorMsg := capture_failed_message camera message in
          (addSystemError (id camera) errorMsg now g,
           {| task_job := task_job t; task_model := task_model t;
              task_phase := Finished None |})
      end
  | _ => st
  end.

Inductive TaskEvent :=
| TaskProc (e : ProcEvent)
| TaskFetch (net : FetchOutcome).

Definition task_step (ev : TaskEvent) (now : N) (st : ServerState * CameraTask)
    : ServerState * CameraTask :=
  let '(g, t) := st in
  match ev with
  | TaskProc e =>
      let '(g', j) := deliver e now (g, task_job t) in
      resume now (g', {| task_job := j; task_model := task_model t;
                         task_phase := task_phase t |})
  | TaskFetch net =>
      match task_phase t with
      | AwaitingDispatch frame =>
          match sendPrediction (job_camera (task_job t)) frame (task_model t)
                  net now g with
          | (g', Returns outcome) =>
              (g', {| task_job := task_job t; task_model := task_model t;
                      task_phase := Finished outcome |})
          | (g', Throws message) =>
              (* the [catch] clause of the callback *)
              let camera := job_camera (task_job t) in
              (addSystemError (id camera)
                 (capture_failed_message camera message) now g',
               {| task_job := task_job t; task_model := task_model t;
                  task_phase := Finished None |})
          end
      | _ => st
      end
  end.

Definition task_timer (now : N) (st : ServerState * CameraTask)
    : ServerState * CameraTask :=
  let '(g, t) := st in
  let '(g', j) := fire_timer now (g, task_job t) in
  resume now (g', {| task_job := j; task_model := task_model t;
                     task_phase := task_phase t |}).

(** The callback up to its [await]. *)
Definition task_start (spawn : FfmpegSpawn) (currentModel : option string)
    (now : N) (camera : CameraDescriptor) : CameraTask :=
  {| task_job := captureFrame spawn camera now; task_model := currentModel;
     task_phase := AwaitingCapture |}.

(** One camera task on its own. *)
Inductive TaskStimulus :=
| Idle (dt : N)
| Event (e : TaskEvent).

Record TaskWorld := {
  tw_state : ServerState;
  tw_now : N;
  tw_task : CameraTask
}.

Definition task_world_step (w : TaskWorld) (s : TaskStimulus) : TaskWorld :=
  match s with
  | Idle dt =>
      let now := (tw_now w + dt)%N in
      let '(g, t) := task_timer now (tw_state w, tw_task w) in
      {| tw_state := g; tw_now := now; tw_task := t |}
  | Event e =>
      let '(g, t) := task_step e (tw_now w) (tw_state w, tw_task w) in
      {| tw_state := g; tw_now := tw_now w; tw_task := t |}
  end.

(** The callback started at [now]: it runs up to its [await] and, when
    the capture is rejected already, on into its [catch] clause. *)
Definition task_world_start (spawn : FfmpegSpawn) (camera : CameraDescriptor)
    (currentModel : option string) (now : N) (g : ServerState) : TaskWorld :=
  let '(g', t) := resume now (g, task_start spawn currentModel now camera) in
  {| tw_state := g'; tw_now := now; tw_task := t |}.

Definition task_run (ss : list TaskStimulus) (w : TaskWorld) : TaskWorld :=
  foldl task_world_step w ss.

(** ** The polling loop *)

(** One call of [predictionLoop] that got past its guard: the model it
    selected, its per-camera tasks, and whether the [then] callback of
    [Promise.all] has run. *)
Record Cycle := {
  cycle_model : option string;
  cycle_tasks : list CameraTask;
  cycle_committed : bool
}.

(** The server once [initialize] has run: the module variables, the
    clock, the cycles started so far (oldest first), whether
    [setInterval(predictionLoop, 2000)] was reached, and the condition
    of the host: the cameras, by position, for which [spawn] throws at
    present, with what it throws. *)
Record System := {
  globals : ServerState;
  clock : N;
  cycles : list Cycle;
  intervalArmed : bool;
  spawnFaults : gmap nat string
}.

(** What [spawn] does for the camera at position [i]. *)
Definition spawn_of (faults : gmap nat string) (i : nat) : FfmpegSpawn :=
  match faults !! i with
  | Some message => FfmpegThrows message
  | None => FfmpegChild
  end.

Definition is_finished (t : CameraTask) : bool :=
  match task_phase t with
  | Finished _ => true
  | _ => false
  end.

Definition task_outcome (t : CameraTask) : option Prediction :=
  match task_phase t with
  | Finished outcome => outcome
  | _ => None
  end.

(** [Promise.all(predictionPromises).then(...)]: runs once, when every
    task of the cycle has returned. *)
Definition try_commit (st : ServerState * Cycle) : ServerState * Cycle :=
  let '(g, c) := st in
  if cycle_committed c then st
  else if forallb is_finished (cycle_tasks c)
  then (commitPredictions (task_outcome <$> cycle_tasks c) g,
        {| cycle_model := cycle_model c; cycle_tasks := cycle_tasks c;
           cycle_committed := true |})
  else st.

(** Runs [f] over a list from left to right, threading the state. *)
Fixpoint thread {S A : Type} (f : S * A → S * A) (s : S) (l : list A) : S * list A :=
  match l with
  | [] => (s, [])
  | a :: l' =>
      let '(s1, a') := f (s, a) in
      let '(s2, l'') := thread f s1 l' in
      (s2, a' :: l'')
  end.

(** Runs [f] on the element at position [k], if there is one. *)
Definition thread_at {S A : Type} (k : nat) (f : S * A → S * A) (s : S) (l : list A)
    : S * list A :=
  match l !! k with
  | Some a => let '(s', a') := f (s, a) in (s', <[k := a']> l)
  | None => (s, l)
  end.

Definition with_tasks (ts : list CameraTask) (c : Cycle) : Cycle :=
  {| cycle_model := cycle_model c; cycle_tasks := ts;
     cycle_committed := cycle_committed c |}.

(** The continuations that are due as soon as the synchronous part of
    [predictionLoop] has run: the [catch] clause of every task whose
    capture is rejected already, in camera order, and the [then]
    callback if no task is left waiting. *)
Definition cycle_resume (now : N) (st : ServerState * Cycle) : ServerState * Cycle :=
  let '(g, c) := st in
  let '(g', ts) := thread (resume now) g (cycle_tasks c) in
  try_commit (g', with_tasks ts c).

(** [predictionLoop()] up to the point where every task it started
    waits or has returned: the guard, the choice of [currentModel], the
    start of every camera task, the advance of [currentModelIndex], and
    the continuations that are due at once. *)
Definition predictionLoop (faults : gmap nat string) (now : N) (g : ServerState)
    : ServerState * option Cycle :=
  if (length (cameras g) =? 0) || (length (currentModels g) =? 0)
  then (g, None)
  else
    let currentModel := currentModels g !! currentModelIndex g in
    let predictionPromises :=
      imap (λ i camera, task_start (spawn_of faults i) currentModel now camera)
        (cameras g) in
    let '(g', c) :=
      cycle_resume now
        (set_currentModelIndex
           ((currentModelIndex g + 1) `mod` length (currentModels g)) g,
         {| cycle_model := currentModel; cycle_tasks := predictionPromises;
            cycle_committed := false |}) in
    (g', Some c).

(** Timers that are due fire in the order they were set. *)
Definition cycle_timers (now : N) (st : ServerState * Cycle) : ServerState * Cycle :=
  let '(g, c) := st in
  let '(g', ts) := thread (task_timer now) g (cycle_tasks c) in
  try_commit (g', with_tasks ts c).

Definition cycle_event (cam : nat) (e : TaskEvent) (now : N)
    (st : ServerState * Cycle) : ServerState * Cycle :=
  let '(g, c) := st in
  let '(g', ts) := thread_at cam (task_step e now) g (cycle_tasks c) in
  try_commit (g', with_tasks ts c).

Inductive SystemEvent :=
| Tick                                           (* the interval timer *)
| Elapse (dt : N)                                (* time passes *)
| Camera (cycle cam : nat) (e : TaskEvent)       (* something happens to a task *)
| Host (faults : gmap nat string).               (* the condition of the host changes *)

Definition system_step (s : System) (ev : SystemEvent) : System :=
  match ev with
  | Tick =>
      if intervalArmed s
      then
        let '(g, started) :=
          predictionLoop (spawnFaults s) (clock s) (globals s) in
        {| globals := g; clock := clock s;
           cycles := cycles s ++ option_list started;
           intervalArmed := true; spawnFaults := spawnFaults s |}
      else s
  | Elapse dt =>
      let now := (clock s + dt)%N in
      let '(g, cs) := thread (cycle_timers now) (globals s) (cycles s) in
      {| globals := g; clock := now; cycles := cs;
         intervalArmed := intervalArmed s; spawnFaults := spawnFaults s |}
  | Camera cycle cam e =>
      let '(g, cs) :=
        thread_at cycle (cycle_event cam e (clock s)) (globals s) (cycles s) in
      {| globals := g; clock := clock s; cycles := cs;
         intervalArmed := intervalArmed s; spawnFaults := spawnFaults s |}
  | Host faults =>
      {| globals := globals s; clock := clock s; cycles := cycles s;
         intervalArmed := intervalArmed s; spawnFaults := faults |}
  end.

(** [initialize()] once [detectCameras()] has resolved with [detected]:
    without cameras it returns before [setInterval]. *)
Definition initialize (detected : list CameraDescriptor) (now : N) : System :=
  {| globals := set_cameras detected initial_state;
     clock := now;
     cycles := [];
     intervalArmed := negb (length detected =? 0);
     spawnFaults := ∅ |}.

Definition system_run (evs : list SystemEvent) (s : System) : System :=
  foldl system_step s evs.

(** The models selected by the cycles started since the system had [n]
    cycles. *)
Definition selected_since (n : nat) (s : System) : list (option string) :=
  cycle_model <$> drop n (cycles s).

Fixpoint count_ticks (evs : list SystemEvent) : nat :=
  match evs with
  | [] => 0
  | Tick :: evs' => S (count_ticks evs')
  | _ :: evs' => count_ticks evs'
  end.

(** ** The read endpoints *)

(** Truthiness of a string: the empty string is the one falsy string. *)
Definition nonempty (s : string) : bool := negb (String.eqb s "").

(** [app.get('/api/image')]: [None] is a request left without an answer,
    the handler calling [res.json] only under [if (imageBase)]. *)
Definition api_image (g : ServerState) : option string :=
  if nonempty (imageBase g) then Some (imageBase g) else None.

(** [app.get('/api/cameras')] *)
Definition api_cameras (g : ServerState) : list CameraDescriptor :=
  (λ camera,
     {| id := id camera; name := name camera; device := device camera;
        streamPort := streamPort camera;
        streamUrl := if nonempty (streamUrl camera) then streamUrl camera
                     else stream_url (streamPort camera) |}) <$> cameras g.

(** The body of [app.get('/api/status')]; [uptime] is [process.uptime()]. *)
Record Status := {
  status_cameras : nat;
  status_models : list string;
  status_currentModel : option string;        (* [None]: [null] *)
  status_totalPredictions : nat;
  status_uptime : N
}.

Definition api_status (uptime : N) (g : ServerState) : Status :=
  {| status_cameras := length (cameras g);
     status_models := currentModels g;
     status_currentModel :=
       match currentModels g !! currentModelIndex g with
       | Some m => if nonempty m then Some m else None
       | None => None
       end;
     status_totalPredictions := length (predictions g);
     status_uptime := uptime |}.

(** *** [parseInt(s, 10)] *)

Definition digit_value (c : ascii) : option N :=
  let n := N_of_ascii c in
  if ((48 <=? n) && (n <=? 57))%N then Some (n - 48)%N else None.

(** The value of the longest prefix of decimal digits, and whether it
    holds a digit at all. *)
Fixpoint leading_digits (acc : N) (seen : bool) (s : string) : N * bool :=
  match s with
  | EmptyString => (acc, seen)
  | String c s' =>
      match digit_value c with
      | Some d => leading_digits (10 * acc + d) true s'
      | None => (acc, seen)
      end
  end.

(** What [parseInt] yields: [NaN], an integer that a Number holds
    exactly, or a Number beyond 2^53, which equals no smaller integer
    (how the digits past that point round is left to the engine). *)
Inductive ParsedInt :=
| NotANumber
| Integer (z : Z)
| Beyond.

Definition parseInt10 (s : string) : ParsedInt :=
  let unsigned (negative : bool) (body : string) :=
    match leading_digits 0 false body with
    | (_, false) => NotANumber
    | (n, true) =>
        if (n <=? 9007199254740992)%N
        then Integer (if negative then - Z.of_N n else Z.of_N n)%Z
        else Beyond
    end in
  match JsString.trimStart s with
  | String "-" body => unsigned true body
  | String "+" body => unsigned false body
  | body => unsigned false body
  end.

(** A response of a handler that may refuse the request. *)
Inductive Reply (A : Type) :=
| Json (body : A)
| Status400 (error : string).
Arguments Json {A} body.
Arguments Status400 {A} error.

(** [p.cameraId === id]; camera identifiers are array indices, far below
    2^53. *)
Definition same_camera (parsed : ParsedInt) (p : Prediction) : bool :=
  match parsed with
  | Integer z => (Z.of_N (cameraId p) =? z)%Z
  | _ => false
  end.

(** [app.get('/api/predictions/camera/:id')] *)
Definition api_predictions_camera (param : string) (g : ServerState)
    : Reply (list Prediction) :=
  match parseInt10 param with
  | NotANumber => Status400 "Invalid camera id"
  | parsed => Json (List.filter (same_camera parsed) (predictions g))
  end.

(** ** Autostart entry *)

(** [lines.join('\n')] *)
Fixpoint join_lines (lines : list string) : string :=
  match lines with
  | [] => ""
  | [line] => line
  | line :: lines => line +:+ String JsString.newline (join_lines lines)
  end.

Definition pathEnv : string :=
  "PATH=/root/.nvm/versions/node/v22.20.0/bin:/usr/local/sbin:/usr/local/bin:/usr/sbin:/usr/bin:/sbin:/bin".

Definition cronCommand (dirname : string) : string :=
  "@reboot " +:+ pathEnv +:+ " cd " +:+ dirname
  +:+ " && /root/.nvm/versions/node/v22.20.0/bin/npm run start-with-mjpeg".

(** The constant [newCrontab] of the callback of [exec('crontab -l', ...)]
    in [setupCrontab]; [stdout] is empty when the listing fails. *)
Definition newCrontab (dirname stdout : string) : string :=
  let currentCrontab := stdout in
  let lines := List.filter (λ line, negb (JsString.includes "vertiplant" line))
                 (JsString.split_lines currentCrontab) in
  let currentCrontab := join_lines lines in
  JsString.trim currentCrontab +:+ String JsString.newline
    (cronCommand dirname +:+ String JsString.newline "").

(** The characters that do not stand for themselves between the double
    quotes of a command line of [/bin/sh]: the double quote ends the
    quoted word, the dollar sign and the backquote start an expansion,
    the backslash escapes what follows (and the [echo] of some shells
    reads it as an escape again); a NUL cannot be passed at all. *)
Definition shell_special (c : ascii) : bool :=
  Ascii.eqb c "000"%char || Ascii.eqb c JsString.dquote ||
  Ascii.eqb c "036"%char || Ascii.eqb c "092"%char || Ascii.eqb c "096"%char.

Fixpoint shell_plain (s : string) : bool :=
  match s with
  | EmptyString => true
  | String c s' => negb (shell_special c) && shell_plain s'
  end.

(** What [crontab -] reads on its standard input when [exec] runs the
    command line made of [echo], a double quote, [text], a double quote
    and the pipe to [crontab -]. A text without special characters is
    one word that stands for itself, never an option of [echo] as long as
    it holds a line break, and [echo] writes it followed by a line
    break. With a special character in it the shell closes the word
    early, expands part of it or runs a command of its own, and what
    [crontab -] reads is not a function of the text alone: [None]. *)
Definition crontab_stdin (text : string) : option string :=
  if shell_plain text && JsString.includes (String JsString.newline "") text
  then Some (text +:+ String JsString.newline "")
  else None.

(** [setupCrontab()], from the output of [crontab -l] to the input of
    [crontab -]. *)
Definition setupCrontab (dirname stdout : string) : option string :=
  crontab_stdin (newCrontab dirname stdout).

(** ** Browser launch *)

(** The state of [checkViteAndLaunchFirefox]: the counter, whether
    [clearInterval] was called, the callbacks waiting on their
    [checkVite()], and the browsers spawned. *)
Record Launcher := {
  attempts : nat;
  cleared : bool;
  waiting : nat;
  launched : nat
}.

Inductive LauncherEvent :=
| IntervalFires
| CheckSettles (net : FetchOutcome).

(** [checkVite]: [response.ok], or [false] when [fetch] rejects. *)
Definition isReady (net : FetchOutcome) : bool :=
  match net with
  | FetchResponds ok _ _ => ok
  | FetchRejects _ => false
  end.

Definition launcher_maxAttempts : nat := 30.

(** The interval callback runs up to its [await] when the interval
    fires, and from there when its check settles. *)
Definition launcher_step (l : Launcher) (ev : LauncherEvent) : Launcher :=
  match ev with
  | IntervalFires =>
      if cleared l then l
      else {| attempts := S (attempts l); cleared := false;
              waiting := S (waiting l); launched := launched l |}
  | CheckSettles net =>
      match waiting l with
      | 0 => l
      | S waiting' =>
          if isReady net
          then {| attempts := attempts l; cleared := true;
                  waiting := waiting'; launched := S (launched l) |}
          else if launcher_maxAttempts <=? attempts l
          then {| attempts := attempts l; cleared := true;
                  waiting := waiting'; launched := launched l |}
          else {| attempts := attempts l; cleared := cleared l;
                  waiting := waiting'; launched := launched l |}
      end
  end.

Definition checkViteAndLaunchFirefox (evs : list LauncherEvent) : Launcher :=
  foldl launcher_step
    {| attempts := 0; cleared := false; waiting := 0; launched := 0 |} evs.

(** * selfupdate.js *)

Module SelfUpdate.

(** How one [https.get] of [waitForInternet] ends: the response callback
    runs, whatever the status, or the request emits [error] or
    [timeout]. *)
Inductive Probe :=
| Responds (status : N)
| RequestError
| RequestTimeout.

(** [execAsync(cmd)]: the promise resolves with the standard output or
    rejects. *)
Inductive ExecOutcome :=
| ExecOk (stdout : string)
| ExecFails (message : string).

(** The machine the script runs on: the outcome of the i-th
    connectivity probe, the outcome of a command given the commands run
    before it, and the line typed at the prompt, if one ever is. *)
Record Host := {
  https_get : nat → Probe;
  execAsync : list string → string → ExecOutcome;
  answer : option string
}.

Definition hasInternet (p : Probe) : bool :=
  match p with
  | Responds _ => true
  | _ => false
  end.

(** The [for (let i = 1; i <= maxAttempts; i++)] loop from attempt [i]
    with [remaining] attempts to go; the result, the probes made and the
    one-second sleeps taken. *)
Fixpoint attempts_from (host : Host) (i remaining : nat) : bool * nat * nat :=
  match remaining with
  | 0 => (false, 0, 0)
  | S remaining' =>
      if hasInternet (https_get host i) then (true, 1, 0)
      else let '(found, probes, sleeps) := attempts_from host (S i) remaining' in
           (found, S probes, S sleeps)
  end.

Definition maxAttempts : nat := 60.

(** [async function waitForInternet()] *)
Definition waitForInternet (host : Host) : bool * nat * nat :=
  attempts_from host 1 maxAttempts.

(** The commands run so far, oldest first. *)
Definition Log := list string.

(** [await execAsync(cmd)] *)
Definition run (host : Host) (cmd : string) (log : Log) : ExecOutcome * Log :=
  (execAsync host log cmd, log ++ [cmd]).

Definition nonblank (s : string) : bool := 0 <? String.length (JsString.trim s).

(** [async function checkForLocalChanges()]: every failure inside ends
    in the [catch], which answers [false]. *)
Definition checkForLocalChanges (host : Host) (log : Log) : bool * Log :=
  match run host "git status --porcelain" log with
  | (ExecFails _, log) => (false, log)
  | (ExecOk statusOutput, log) =>
      if nonblank statusOutput then (true, log)
      else
        match run host "git rev-parse --abbrev-ref HEAD" log with
        | (ExecFails _, log) => (false, log)
        | (ExecOk branch, log) =>
            let currentBranch := JsString.trim branch in
            match run host ("git log origin/" +:+ currentBranch
                            +:+ "..HEAD --oneline") log with
            | (ExecFails _, log) => (false, log)
            | (ExecOk unpushedOutput, log) => (nonblank unpushedOutput, log)
            end
        end
  end.

(** [async function promptUserConfirmation()]: the promise settles only
    when a line arrives. *)
Definition promptUserConfirmation (host : Host) : option bool :=
  (λ line, String.eqb (JsString.trim line) "CONFIRM") <$> answer host.

(** How [selfUpdate] ends. *)
Inductive Ending :=
| NoInternet
| Cancelled
| AwaitingAnswer
| Completed
| Failed (message : string).

Record Report := {
  ending : Ending;
  commands : Log;
  prompted : bool
}.

(** [async function selfUpdate()] *)
Definition selfUpdate (host : Host) : Report :=
  if negb (waitForInternet host).1.1
  then {| ending := NoInternet; commands := []; prompted := false |}
  else
    match run host "git fetch origin" [] with
    | (ExecFails message, log) =>
        {| ending := Failed message; commands := log; prompted := false |}
    | (ExecOk _, log) =>
        match run host "git rev-parse --abbrev-ref HEAD" log with
        | (ExecFails message, log) =>
            {| ending := Failed message; commands := log; prompted := false |}
        | (ExecOk branch, log) =>
            let currentBranch := JsString.trim branch in
            let '(hasLocalChanges, log) := checkForLocalChanges host log in
            let reset (asked : bool) :=
              match run host ("git reset --hard origin/" +:+ currentBranch) log with
              | (ExecFails message, log) =>
                  {| ending := Failed message; commands := log; prompted := asked |}
              | (ExecOk _, log) =>
                  match run host "git clean -fd" log with
                  | (ExecFails message, log) =>
                      {| ending := Failed message; commands := log;
                         prompted := asked |}
                  | (ExecOk _, log) =>
                      {| ending := Completed; commands := log; prompted := asked |}
                  end
              end in
            if hasLocalChanges
            then match promptUserConfirmation host with
                 | None => {| ending := AwaitingAnswer; commands := log;
                              prompted := true |}
                 | Some false => {| ending := Cancelled; commands := log;
                                    prompted := true |}
                 | Some true => reset true
                 end
            else reset false
        end
    end.

End SelfUpdate.

(** * src/components/CameraGrid.tsx *)

Module CameraGrid.

(** [Array.prototype.sort(compare)]: a stable sort; an element goes in
    front of the first one it does not compare greater than. *)
Fixpoint sort_insert {A} (compare : A → A → Z) (x : A) (sorted : list A)
    : list A :=
  match sorted with
  | [] => [x]
  | y :: sorted' =>
      if (compare x y <=? 0)%Z then x :: sorted
      else y :: sort_insert compare x sorted'
  end.

Definition sort {A} (compare : A → A → Z) (l : list A) : list A :=
  foldr (sort_insert compare) [] l.

(** [getLatestPrediction(cameraId)] over the [predictions] prop;
    [undefined] is [None]. *)
Definition getLatestPrediction (predictions : list Prediction) (camera : N)
    : option Prediction :=
  head (sort (λ a b, (Z.of_N (timestamp b) - Z.of_N (timestamp a))%Z)
          (List.filter (λ p, (cameraId p =? camera)%N) predictions)).

(** [errors.some(e => e.cameraId === camera.id)] *)
Definition hasError (errors : list ErrorEntry) (camera : CameraDescriptor) : bool :=
  existsb (λ e, (err_cameraId e =? id camera)%N) errors.

End CameraGrid.

(** * The prediction log component *)

Module PredictionLog.

Definition same_entry (displayed pred : Prediction) : bool :=
  (cameraId displayed =? cameraId pred)%N
  && bool_decide (model displayed = model pred)
  && (timestamp displayed =? timestamp pred)%N.

(** The body of the effect, which runs when the [predictions] prop
    changes: the next value of [displayedPredictions]. *)
Definition effect (displayedPredictions predictions : list Prediction)
    : list Prediction :=
  let newPredictions :=
    List.filter (λ pred, negb (existsb (λ displayed, same_entry displayed pred)
                                 displayedPredictions))
      predictions in
  if 0 <? length newPredictions
  then take 50 (newPredictions ++ displayedPredictions)
  else displayedPredictions.

(** The state after the component has seen the props of [renders], in
    order, from the initial empty state. *)
Definition displayed_after (renders : list (list Prediction)) : list Prediction :=
  foldl effect [] renders.

End PredictionLog.

(** * Vocabulary of the properties *)

(** ** Sample inputs *)

Definition camera0 : CameraDescriptor :=
  {| id := 0; name := Some "HD USB Camera (usb-xhci-hcd.0-1)";
     device := Some "/dev/video0"; streamPort := 20000;
     streamUrl := "http://localhost:20000/stream" |}.

Definition sample (cam t : N) : Prediction :=
  {| cameraId := cam; model := Some "lettuce-diseases"; timestamp := t;
     result := JObject [("detections", JArray [])]; image := "" |}.

Definition v4l2_listing : string :=
  "HD USB Camera (usb-xhci-hcd.0-1):" +:+ String JsString.newline
  ("	/dev/video0" +:+ String JsString.newline
  ("	/dev/video1" +:+ String JsString.newline
  ("" +:+ String JsString.newline
  ("Webcam C270 (usb-xhci-hcd.1-2):" +:+ String JsString.newline
  ("	/dev/video2" +:+ String JsString.newline ""))))).

(** ** Histories and rotation *)

(** What a step may do to the module variables when it is not a tick:
    the cameras, the model list and the cursor stay, and each history
    becomes the first [cap] entries of new entries put in front of it. *)
Definition same_rotation (g g' : ServerState) : Prop :=
  cameras g' = cameras g ∧ currentModels g' = currentModels g ∧
  currentModelIndex g' = currentModelIndex g.

Definition within_caps (g : ServerState) : Prop :=
  length (predictions g) ≤ 100 ∧ length (systemErrors g) ≤ 50.

Definition prepended (g g' : ServerState) : Prop :=
  (∃ batch, predictions g' = take 100 (batch ++ predictions g)) ∧
  (∃ errors, systemErrors g' = take 50 (errors ++ systemErrors g)).

Definition quiet (g g' : ServerState) : Prop :=
  same_rotation g g' ∧ (within_caps g → within_caps g' ∧ prepended g g').

Definition is_latest_of (ps : list Prediction) (c : N) (o : option Prediction) : Prop :=
  match o with
  | Some r =>
      r ∈ ps ∧ cameraId r = c ∧
      ∀ p, p ∈ ps → cameraId p = c → (timestamp p ≤ timestamp r)%N
  | None => ∀ p, p ∈ ps → cameraId p ≠ c
  end.

(** The states in which the interval timer can call [predictionLoop]
    past its guard, with the cursor inside the model list. *)
Definition scheduler_ready (s : System) : Prop :=
  intervalArmed s = true ∧
  cameras (globals s) ≠ [] ∧
  currentModels (globals s) ≠ [] ∧
  currentModelIndex (globals s) < length (currentModels (globals s)).

Definition models_log (s : System) : list (option string) :=
  cycle_model <$> cycles s.

(** ** Capture, dispatch, discovery *)

(** What holds of a capture at every moment of its life. *)
Record job_ok (camera : CameraDescriptor) (t0 : N) (w : CaptureWorld) : Prop := {
  ok_camera : job_camera (cw_job w) = camera;
  ok_armed : armedAt (cw_job w) = Some t0;
  ok_no_data : hasData (cw_job w) = false → imageBuffer (cw_job w) = [];
  ok_pending : promise (cw_job w) = Pending → proc_closed (cw_job w) = false;
  ok_running : proc_closed (cw_job w) = false →
               ∀ buf, promise (cw_job w) ≠ Resolved buf;
  ok_fired : ∀ t, firedAt (cw_job w) = Some t →
             (t0 + CAPTURE_TIMEOUT_MS ≤ t ∧ t ≤ cw_now w)%N;
  ok_not_fired : firedAt (cw_job w) = None →
                 (cw_now w < t0 + CAPTURE_TIMEOUT_MS)%N ∧ kills (cw_job w) = [];
  ok_timeout : promise (cw_job w) = Rejected (timeout_message camera) →
               "SIGTERM" ∈ kills (cw_job w)
}.

(** The promise of [captureFrame(camera)], called at [t0], after [evs]. *)
Definition capture_promise (camera : CameraDescriptor) (t0 : N) (g : ServerState)
    (evs : list CaptureEvent) : Promise Buffer :=
  promise (cw_job (capture_run evs (capture_start camera t0 g))).

(** The exit status reported by the process during [evs], if it closed. *)
Definition exit_status (evs : list CaptureEvent) : option (option Z) :=
  head (omap (λ ev, match ev with
                    | Proc (Close code) => Some code
                    | _ => None
                    end) evs).

(** Success exactly on a clean exit with output, whatever else happened. *)
Definition resolves_iff_clean_exit (camera : CameraDescriptor) (t0 : N)
    (g : ServerState) (evs : list CaptureEvent) : Prop :=
  (∃ buf, capture_promise camera t0 g evs = Resolved buf) ↔
  (exit_status evs = Some (Some 0%Z) ∧ stdout_bytes evs ≠ []).

(** A capture whose process wrote nothing by the deadline ends in the
    timeout error, whatever else happened. *)
Definition silent_capture_times_out (camera : CameraDescriptor) (t0 : N)
    (g : ServerState) (evs : list CaptureEvent) : Prop :=
  (∀ chunk, Proc (StdoutData chunk) ∉ evs) →
  (t0 + CAPTURE_TIMEOUT_MS ≤ cw_now (capture_run evs (capture_start camera t0 g)))%N →
  capture_promise camera t0 g evs = Rejected (timeout_message camera).

(** A process that is alive and writes nothing to its standard output. *)
Definition quiet_process (evs : list CaptureEvent) : Prop :=
  Forall (λ ev, match ev with
                | Wait _ | Proc (StderrData _) => True
                | _ => False
                end) evs.

(** The ways a dispatch fails: the request does not get through, the
    response has a non-success status, or the parsed body carries an
    [error] field that holds a truthy value. *)
Definition dispatch_fails (net : FetchOutcome) : Prop :=
  (∃ reason, net = FetchRejects reason) ∨
  (∃ status body, net = FetchResponds false status body) ∨
  (∃ status result field,
     net = FetchResponds true status (Some result) ∧
     get_property result "error" = Some (Some field) ∧ truthy field = true).

(** The parsed body of a prediction carries no error: reading its
    [error] property gives [undefined] or a falsy value. *)
Definition no_error_field (result : json) : Prop :=
  get_property result "error" = Some None ∨
  ∃ field, get_property result "error" = Some (Some field) ∧ truthy field = false.

(** The failures of a dispatch when every [error] field counts,
    whatever it holds. *)
Definition dispatch_fails_as_stated (net : FetchOutcome) : Prop :=
  (∃ reason, net = FetchRejects reason) ∨
  (∃ status body, net = FetchResponds false status body) ∨
  (∃ status result field,
     net = FetchResponds true status (Some result) ∧
     get_property result "error" = Some (Some field)).

(** Each of these failures makes the dispatch return [null]. *)
Definition stated_failures_yield_nothing (camera : CameraDescriptor)
    (frame : Buffer) (currentModel : option string) (now : N)
    (g : ServerState) : Prop :=
  ∀ net, dispatch_fails_as_stated net →
    sendPrediction camera frame currentModel net now g = (g, Returns None).

(** A failed capture costs exactly two entries of the error history. *)
Definition failure_costs_two_entries (spawn : FfmpegSpawn)
    (camera : CameraDescriptor) (currentModel : option string) (t0 : N)
    (g : ServerState) (ss : list TaskStimulus) : Prop :=
  let w := task_run ss (task_world_start spawn camera currentModel t0 g) in
  (∃ message, promise (task_job (tw_task w)) = Rejected message) →
  length (systemErrors (tw_state w)) = length (systemErrors g) + 2.

(** Identifiers run from 0 upwards in list order; port and URL follow
    from the identifier. *)
Definition numbered (ds : list CameraDescriptor) : Prop :=
  id <$> ds = N.of_nat <$> seq 0 (length ds) ∧
  Forall (λ d, streamPort d = (20000 + id d)%N ∧
               streamUrl d =
                 "http://localhost:" +:+ JsString.of_N (20000 + id d) +:+ "/stream")
         ds.

Definition models_as_json (models : list string) : json :=
  JArray (JString <$> models).

(** The list the rotation runs over is what the catalog request gave. *)
Definition models_come_from_catalog (net : HttpGet → HttpReply)
    (detected : list CameraDescriptor) (t0 : N) (evs : list SystemEvent) : Prop :=
  models_as_json (currentModels (globals (system_run evs (initialize detected t0))))
  = getModelList net.

(** ** Records of a running server *)

(** The string sent for a frame: [data:image/jpeg;base64,] and the frame
    in base 64. *)
Definition data_url (frame : Buffer) : string :=
  "data:image/jpeg;base64," +:+ base64 frame.

(** A prediction record of a server that detected [cams], at time [now]. *)
Record prediction_ok (cams : list CameraDescriptor) (now : N) (p : Prediction)
    : Prop := {
  pk_camera : ∃ camera, camera ∈ cams ∧ cameraId p = id camera;
  pk_model : ∃ m, model p = Some m ∧ m ∈ currentModels initial_state;
  pk_time : (timestamp p ≤ now)%N;
  pk_image : ∃ frame, frame ≠ [] ∧ image p = data_url frame;
  pk_result : no_error_field (result p)
}.

Record error_ok (cams : list CameraDescriptor) (now : N) (e : ErrorEntry)
    : Prop := {
  ek_camera : ∃ camera, camera ∈ cams ∧ err_cameraId e = id camera;
  ek_time : (err_timestamp e ≤ now)%N
}.

(** Later entries of the list are not younger than earlier ones. *)
Definition newest_first (es : list ErrorEntry) : Prop :=
  StronglySorted (λ e e', (err_timestamp e' ≤ err_timestamp e)%N) es.

(** The same of prediction records. *)
Definition predictions_newest_first (ps : list Prediction) : Prop :=
  StronglySorted (λ p p', (timestamp p' ≤ timestamp p)%N) ps.

(** Both histories of the state reached by [evs] are ordered
    newest-first. *)
Definition histories_newest_first (detected : list CameraDescriptor) (t0 : N)
    (evs : list SystemEvent) : Prop :=
  let g := globals (system_run evs (initialize detected t0)) in
  predictions_newest_first (predictions g) ∧ newest_first (systemErrors g).

Definition camera1 : CameraDescriptor :=
  {| id := 1; name := Some "HD USB Camera (usb-xhci-hcd.0-2)";
     device := Some "/dev/video2"; streamPort := 20001;
     streamUrl := "http://localhost:20001/stream" |}.

(** One cycle of two cameras: the first camera delivers its frame and is
    answered at once, the second half a second later. *)
Definition staggered_cycle : list SystemEvent :=
  [Tick;
   Camera 0 0 (TaskProc (StdoutData [Byte.xff; Byte.xd8]));
   Camera 0 0 (TaskProc (Close (Some 0%Z)));
   Camera 0 0 (TaskFetch (FetchResponds true 200
                            (Some (JObject [("detections", JArray [])]))));
   Elapse 500;
   Camera 0 1 (TaskProc (StdoutData [Byte.xff; Byte.xd8]));
   Camera 0 1 (TaskProc (Close (Some 0%Z)));
   Camera 0 1 (TaskFetch (FetchResponds true 200
                            (Some (JObject [("detections", JArray [])]))))].

Record globals_ok (cams : list CameraDescriptor) (now : N) (g : ServerState)
    : Prop := {
  gk_cameras : cameras g = cams;
  gk_models : currentModels g = currentModels initial_state;
  gk_cursor : currentModelIndex g < length (currentModels g);
  gk_errors : Forall (error_ok cams now) (systemErrors g);
  gk_sorted : newest_first (systemErrors g);
  gk_predictions : Forall (prediction_ok cams now) (predictions g);
  gk_image : imageBase g = "" ∨ ∃ frame, frame ≠ [] ∧ imageBase g = data_url frame;
  gk_latest : predictions g ≠ [] → imageBase g ≠ ""
}.

Record task_ok (cams : list CameraDescriptor) (now : N) (g : ServerState)
    (t : CameraTask) : Prop := {
  tk_camera : job_camera (task_job t) ∈ cams;
  tk_model : ∃ m, task_model t = Some m ∧ m ∈ currentModels initial_state;
  tk_frame : ∀ buf, promise (task_job t) = Resolved buf → buf ≠ [];
  tk_dispatch : ∀ frame, task_phase t = AwaitingDispatch frame → frame ≠ [];
  tk_done : ∀ p, task_phase t = Finished (Some p) →
            prediction_ok cams now p ∧ imageBase g ≠ ""
}.

Definition system_ok (cams : list CameraDescriptor) (s : System) : Prop :=
  globals_ok cams (clock s) (globals s) ∧
  Forall (λ c, Forall (task_ok cams (clock s) (globals s)) (cycle_tasks c))
         (cycles s).

(** The latest frame, once there, stays. *)
Definition keeps_image (g g' : ServerState) : Prop :=
  imageBase g ≠ "" → imageBase g' ≠ "".

Definition cycle_ok (cams : list CameraDescriptor) (now : N) (g : ServerState) (c : Cycle) : Prop :=
  Forall (task_ok cams now g) (cycle_tasks c).

(** ** Request parameters *)

(** [s] does not begin with a decimal digit. *)
Definition no_leading_digit (s : string) : Prop :=
  match s with
  | String c _ => digit_value c = None
  | EmptyString => True
  end.

Definition plain_start (s : string) : Prop :=
  match s with
  | "" => True
  | String c _ => JsString.is_space c = false ∧ c ≠ "-"%char ∧ c ≠ "+"%char
  end.

(** The number a run of decimal digits denotes after [acc]. *)
Fixpoint uint_accum (acc : N) (d : Decimal.uint) : N :=
  match d with
  | Decimal.Nil => acc
  | Decimal.D0 l => uint_accum (10 * acc + 0) l
  | Decimal.D1 l => uint_accum (10 * acc + 1) l
  | Decimal.D2 l => uint_accum (10 * acc + 2) l
  | Decimal.D3 l => uint_accum (10 * acc + 3) l
  | Decimal.D4 l => uint_accum (10 * acc + 4) l
  | Decimal.D5 l => uint_accum (10 * acc + 5) l
  | Decimal.D6 l => uint_accum (10 * acc + 6) l
  | Decimal.D7 l => uint_accum (10 * acc + 7) l
  | Decimal.D8 l => uint_accum (10 * acc + 8) l
  | Decimal.D9 l => uint_accum (10 * acc + 9) l
  end%N.

(** ** Probe output *)

(** What the probe wrote to its standard output, in order. *)
Fixpoint stdout_text (events : list ProbeEvent) : string :=
  match events with
  | [] => ""
  | ProbeStdout text :: events => text +:+ stdout_text events
  | _ :: events => stdout_text events
  end.

(** What the probe wrote to its standard error, in order. *)
Fixpoint stderr_text (events : list ProbeEvent) : string :=
  match events with
  | [] => ""
  | ProbeStderr text :: events => text +:+ stderr_text events
  | _ :: events => stderr_text events
  end.

(** The events that carry output. *)
Definition is_data (e : ProbeEvent) : bool :=
  match e with
  | ProbeStdout _ | ProbeStderr _ => true
  | ProbeClose | ProbeError _ => false
  end.

Definition is_error (e : ProbeEvent) : bool :=
  match e with
  | ProbeError _ => true
  | _ => false
  end.

(** A device path as the Linux branch accepts it. *)
Definition video_path (dev : string) : Prop :=
  JsString.startsWith "/dev/video" dev = true ∧
  JsString.includes "pispbe" dev = false ∧
  JsString.includes "rpivid" dev = false ∧
  JsString.includes "/dev/media" dev = false.

(** A device name as the Windows branch captures it. *)
Definition dshow_name (dn : string) : Prop :=
  dn ≠ "" ∧ JsString.includes (String JsString.dquote "") dn = false.

(** A listing as [ffmpeg -list_devices true -f dshow -i dummy] prints it. *)
Definition dshow_listing : string :=
  "[dshow @ 000001] DirectShow video devices" +:+ String JsString.newline
  ("[dshow @ 000001] " +:+ String JsString.dquote
  ("Integrated Camera" +:+ String JsString.dquote
  (" (video)" +:+ String JsString.newline ""))).

Definition camera_dshow : CameraDescriptor :=
  {| id := 0; name := None; device := Some "Integrated Camera";
     streamPort := 20000; streamUrl := "http://localhost:20000/stream" |}.

(** ** Capture processes *)

(** The process neither closes nor fails to start during [evs]. *)
Definition keeps_running (evs : list CaptureEvent) : Prop :=
  Forall (λ ev, match ev with
                | Proc (Close _) | Proc (SpawnError _) => False
                | _ => True
                end) evs.

(** The process does not close during [evs]. *)
Definition stays_open (evs : list CaptureEvent) : Prop :=
  Forall (λ ev, match ev with
                | Proc (Close _) => False
                | _ => True
                end) evs.

(** ** The update script *)

Module SelfUpdateSpec.
Import SelfUpdate.

(** The commands that discard local work. *)
Definition destructive (cmd : string) : bool :=
  JsString.startsWith "git reset --hard" cmd || String.eqb cmd "git clean -fd".

(** The commands [selfUpdate] has run when it asks about local
    changes. *)
Definition fetched : Log := ["git fetch origin"; "git rev-parse --abbrev-ref HEAD"].

(** A host that is online and whose [git status] fails. *)
Definition broken_status_host : Host :=
  {| https_get := λ i, Responds 200;
     execAsync := λ log cmd,
       if String.eqb cmd "git rev-parse --abbrev-ref HEAD"
       then ExecOk ("main" +:+ String JsString.newline "")
       else if String.eqb cmd "git status --porcelain"
       then ExecFails "not a git repository"
       else ExecOk "";
     answer := None |}.

End SelfUpdateSpec.

(** ** The dashboard *)

(** The first of the records of [l] that no other exceeds in time,
    found from the left as the server does. *)
Definition first_latest (l : list Prediction) : option Prediction :=
  foldl (λ best p, match best with
                   | None => Some p
                   | Some seen => if (timestamp seen <? timestamp p)%N
                                  then Some p else Some seen
                   end) None l.

(** No two records of [l] have the camera, the model and the time in
    common. *)
Definition distinct_entries (l : list Prediction) : Prop :=
  NoDup ((λ p, (cameraId p, model p, timestamp p)) <$> l).

(** ** Browser launch *)

(** The events of a launch in which every check settles before the
    interval fires again, with the outcomes of the checks. *)
Fixpoint polls (outcomes : list FetchOutcome) : list LauncherEvent :=
  match outcomes with
  | [] => []
  | net :: outcomes => IntervalFires :: CheckSettles net :: polls outcomes
  end.

(** The position of the first outcome that finds the page ready. *)
Fixpoint first_ready (outcomes : list FetchOutcome) : option nat :=
  match outcomes with
  | [] => None
  | net :: outcomes => if isReady net then Some 0 else S <$> first_ready outcomes
  end.

(** ** Cycles and their results *)

(** What the tasks of a cycle have returned. *)
Definition cycle_outcomes (c : Cycle) : list (option Prediction) :=
  task_outcome <$> cycle_tasks c.

(** A cycle of a server with [n] cameras: one task per camera, and
    committed exactly when every task has returned. *)
Definition cycle_settled (n : nat) (c : Cycle) : Prop :=
  length (cycle_tasks c) = n ∧
  cycle_committed c = forallb is_finished (cycle_tasks c).

(** Every record of the history is an outcome of a committed cycle. *)
Definition from_committed (g : ServerState) (cs : list Cycle) : Prop :=
  ∀ p, p ∈ predictions g →
       ∃ c, c ∈ cs ∧ cycle_committed c = true ∧ Some p ∈ cycle_outcomes c.

(** A task that has returned keeps what it returned. *)
Definition stays_finished (t t' : CameraTask) : Prop :=
  ∀ outcome, task_phase t = Finished outcome → task_phase t' = Finished outcome.

(** ** Crontab text *)

(** The character [sep] does not occur in [s]. *)
Definition lacks (sep : ascii) (s : string) : Prop :=
  JsString.includes (String sep "") s = false.

(** [s] holds no line break. *)
Definition one_line (s : string) : Prop := lacks JsString.newline s.

(** [s] is white space only. *)
Definition blank (s : string) : Prop := JsString.trimStart s = "".

(** * Properties *)

(** ** The two histories *)

Section Histories.

Lemma take_app_take {A} (n : nat) (l k : list A) :
  take n (l ++ take n k) = take n (l ++ k).
Proof.
  rewrite !take_app, take_take. do 2 f_equal. lia.
Qed.

Lemma addSystemError_errors camId error now g :
  systemErrors (addSystemError camId error now g) =
  take 50 ({| err_cameraId := camId; err_error := error; err_timestamp := now |}
           :: systemErrors g).
Proof.
  unfold addSystemError.
  destruct (50 <? _) eqn:Hlen; cbn [systemErrors set_systemErrors]; [done|].
  apply Nat.ltb_ge in Hlen. by rewrite take_ge.
Qed.

Lemma addSystemError_others camId error now g :
  cameras (addSystemError camId error now g) = cameras g ∧
  currentModels (addSystemError camId error now g) = currentModels g ∧
  currentModelIndex (addSystemError camId error now g) = currentModelIndex g ∧
  predictions (addSystemError camId error now g) = predictions g ∧
  imageBase (addSystemError camId error now g) = imageBase g.
Proof. unfold addSystemError. by destruct (50 <? _). Qed.

Lemma commitPredictions_predictions p g :
  predictions (commitPredictions p g) =
  take 100 (non_null p ++ predictions g).
Proof.
  unfold commitPredictions.
  destruct (100 <? _) eqn:Hlen; cbn [predictions set_predictions]; [done|].
  apply Nat.ltb_ge in Hlen. by rewrite take_ge.
Qed.

Lemma commitPredictions_others p g :
  cameras (commitPredictions p g) = cameras g ∧
  currentModels (commitPredictions p g) = currentModels g ∧
  currentModelIndex (commitPredictions p g) = currentModelIndex g ∧
  systemErrors (commitPredictions p g) = systemErrors g ∧
  imageBase (commitPredictions p g) = imageBase g.
Proof. unfold commitPredictions. by destruct (100 <? _). Qed.

Lemma prepended_caps g g' : prepended g g' → within_caps g'.
Proof.
  intros [[b Hb] [e He]]. unfold within_caps. rewrite Hb, He, !length_take. lia.
Qed.

Lemma quiet_refl g : quiet g g.
Proof.
  split; [done|]. intros Hc. split; [done|].
  destruct Hc. split; exists []; cbn; by rewrite take_ge.
Qed.

Lemma quiet_trans g1 g2 g3 : quiet g1 g2 → quiet g2 g3 → quiet g1 g3.
Proof.
  intros [(Hc & Hm & Hi) H12] [(Hc' & Hm' & Hi') H23]. split.
  - unfold same_rotation. by rewrite Hc', Hm', Hi'.
  - intros Hcap. destruct (H12 Hcap) as [Hcap2 [[b1 Hb1] [e1 He1]]].
    destruct (H23 Hcap2) as [Hcap3 [[b2 Hb2] [e2 He2]]].
    split; [done|]. split.
    + exists (b2 ++ b1). by rewrite Hb2, Hb1, take_app_take, (assoc_L (++)).
    + exists (e2 ++ e1). by rewrite He2, He1, take_app_take, (assoc_L (++)).
Qed.

Lemma quiet_addSystemError camId error now g :
  quiet g (addSystemError camId error now g).
Proof.
  destruct (addSystemError_others camId error now g) as (Hc & Hm & Hi & Hp & _).
  split; [done|]. intros [Hlp Hle].
  assert (prepended g (addSystemError camId error now g)) as Hpre.
  { split.
    - exists []. rewrite Hp. cbn. by rewrite take_ge.
    - eexists [_]. apply addSystemError_errors. }
  split; [by eapply prepended_caps | done].
Qed.

Lemma quiet_commitPredictions p g : quiet g (commitPredictions p g).
Proof.
  destruct (commitPredictions_others p g) as (Hc & Hm & Hi & He & _).
  split; [done|]. intros [Hlp Hle].
  assert (prepended g (commitPredictions p g)) as Hpre.
  { split.
    - eexists. apply commitPredictions_predictions.
    - exists []. rewrite He. cbn. by rewrite take_ge. }
  split; [by eapply prepended_caps | done].
Qed.

Lemma quiet_set_imageBase s g : quiet g (set_imageBase s g).
Proof.
  split; [done|]. intros Hc. split; [done|].
  destruct Hc. split; exists []; cbn; by rewrite take_ge.
Qed.

Lemma quiet_deliver e now g j : quiet g (deliver e now (g, j)).1.
Proof.
  unfold deliver. destruct (proc_closed j); [apply quiet_refl|].
  destruct e; cbn; try apply quiet_refl.
  - destruct (_ && _); cbn; [apply quiet_refl | apply quiet_addSystemError].
  - apply quiet_addSystemError.
Qed.

Lemma quiet_fire_timer now g j : quiet g (fire_timer now (g, j)).1.
Proof.
  unfold fire_timer. destruct (firedAt j); [apply quiet_refl|].
  destruct (armedAt j) as [armed|]; [|apply quiet_refl].
  destruct (_ <=? _)%N; [|apply quiet_refl].
  unfold on_timeout. cbn. destruct (negb _); cbn;
    [apply quiet_addSystemError | apply quiet_refl].
Qed.

Lemma quiet_resume now g t : quiet g (resume now (g, t)).1.
Proof.
  unfold resume. destruct (task_phase t); try apply quiet_refl.
  destruct (promise _); cbn; try apply quiet_refl. apply quiet_addSystemError.
Qed.

Lemma quiet_sendPrediction camera frame m net now g :
  quiet g (sendPrediction camera frame m net now g).1.
Proof.
  unfold sendPrediction, sendPrediction_try.
  destruct net as [|[] ? [body|]]; cbn; try apply quiet_refl.
  destruct (get_property body "error") as [[field|]|]; cbn;
    try apply quiet_refl; [|apply quiet_set_imageBase].
  destruct (truthy field); cbn; [apply quiet_refl | apply quiet_set_imageBase].
Qed.

Lemma quiet_task_step e now g t : quiet g (task_step e now (g, t)).1.
Proof.
  unfold task_step. destruct e as [e|net].
  - pose proof (quiet_deliver e now g (task_job t)) as H.
    destruct (deliver e now (g, task_job t)) as [g' j]. cbn in H.
    eapply quiet_trans; [exact H | apply quiet_resume].
  - destruct (task_phase t); try apply quiet_refl.
    pose proof (quiet_sendPrediction (job_camera (task_job t)) frame
                  (task_model t) net now g) as H.
    destruct (sendPrediction _ _ _ _ _ _) as [g' [outcome|message]]; cbn in *;
      [done|]. eapply quiet_trans; [exact H | apply quiet_addSystemError].
Qed.

Lemma quiet_task_timer now g t : quiet g (task_timer now (g, t)).1.
Proof.
  unfold task_timer.
  pose proof (quiet_fire_timer now g (task_job t)) as H.
  destruct (fire_timer now (g, task_job t)) as [g' j]. cbn in H.
  eapply quiet_trans; [exact H | apply quiet_resume].
Qed.

Lemma quiet_thread {A} (f : ServerState * A → ServerState * A) :
  (∀ g a, quiet g (f (g, a)).1) → ∀ l g, quiet g (thread f g l).1.
Proof.
  intros Hf l. induction l as [|a l IH]; intros g; cbn; [apply quiet_refl|].
  pose proof (Hf g a) as H1. destruct (f (g, a)) as [g1 a'].
  pose proof (IH g1) as H2. destruct (thread f g1 l) as [g2 l'].
  cbn in *. by eapply quiet_trans.
Qed.

Lemma quiet_thread_at {A} k (f : ServerState * A → ServerState * A) :
  (∀ g a, quiet g (f (g, a)).1) → ∀ l g, quiet g (thread_at k f g l).1.
Proof.
  intros Hf l g. unfold thread_at. destruct (l !! k) as [a|]; [|apply quiet_refl].
  pose proof (Hf g a) as H. by destruct (f (g, a)).
Qed.

Lemma quiet_try_commit g c : quiet g (try_commit (g, c)).1.
Proof.
  unfold try_commit. destruct (cycle_committed c); [apply quiet_refl|].
  destruct (forallb _ _); [apply quiet_commitPredictions | apply quiet_refl].
Qed.

Lemma quiet_cycle_timers now g c : quiet g (cycle_timers now (g, c)).1.
Proof.
  unfold cycle_timers.
  pose proof (quiet_thread (task_timer now) (quiet_task_timer now)
                (cycle_tasks c) g) as H.
  destruct (thread _ _ _) as [g' ts]. cbn in H.
  eapply quiet_trans; [exact H | apply quiet_try_commit].
Qed.

Lemma quiet_cycle_event cam e now g c : quiet g (cycle_event cam e now (g, c)).1.
Proof.
  unfold cycle_event.
  pose proof (quiet_thread_at cam (task_step e now) (quiet_task_step e now)
                (cycle_tasks c) g) as H.
  destruct (thread_at _ _ _ _) as [g' ts]. cbn in H.
  eapply quiet_trans; [exact H | apply quiet_try_commit].
Qed.

Lemma quiet_cycle_resume now g c : quiet g (cycle_resume now (g, c)).1.
Proof.
  unfold cycle_resume.
  pose proof (quiet_thread (resume now) (quiet_resume now) (cycle_tasks c) g) as H.
  destruct (thread _ _ _) as [g' ts]. cbn in H.
  eapply quiet_trans; [exact H | apply quiet_try_commit].
Qed.

(** Every event but the tick is quiet. *)
Lemma quiet_system_step s ev :
  ev ≠ Tick → quiet (globals s) (globals (system_step s ev)).
Proof.
  intros Hev. destruct ev as [|dt|c k e|faults]; [done| | |apply quiet_refl]; cbn.
  - pose proof (quiet_thread (cycle_timers (clock s + dt))
                  (quiet_cycle_timers (clock s + dt)) (cycles s) (globals s)) as H.
    by destruct (thread _ _ _).
  - pose proof (quiet_thread_at c (cycle_event k e (clock s))
                  (quiet_cycle_event k e (clock s)) (cycles s) (globals s)) as H.
    by destruct (thread_at _ _ _ _).
Qed.

(** What the tick does to the module variables past its guard: it
    moves the cursor, and the continuations that follow are quiet. *)
Lemma tick_globals s :
  globals (system_step s Tick) = globals s ∨
  ∃ g1, g1 = set_currentModelIndex
               ((currentModelIndex (globals s) + 1)
                  `mod` length (currentModels (globals s))) (globals s) ∧
        cameras (globals s) ≠ [] ∧
        quiet g1 (globals (system_step s Tick)).
Proof.
  cbn [system_step]. destruct (intervalArmed s); [|by left].
  unfold predictionLoop.
  destruct (length (cameras (globals s)) =? 0) eqn:Hcams; [by left|].
  destruct (length (currentModels (globals s)) =? 0) eqn:Hmodels; [by left|].
  cbn [orb]. right. eexists. split; [reflexivity|]. split.
  { intros Hnil. by rewrite Hnil in Hcams. }
  match goal with
  | |- context [cycle_resume ?now (?g, ?c)] =>
      pose proof (quiet_cycle_resume now g c) as H;
      destruct (cycle_resume now (g, c)) as [g' c']
  end.
  exact H.
Qed.

(** The tick keeps the caps and only puts new entries in front of
    either history. *)
Lemma tick_histories s :
  within_caps (globals s) →
  within_caps (globals (system_step s Tick)) ∧
  prepended (globals s) (globals (system_step s Tick)).
Proof.
  intros Hc.
  assert (prepended (globals s) (globals s)) as Hsame.
  { destruct Hc. split; exists []; cbn [app]; by rewrite take_ge. }
  destruct (tick_globals s) as [->|(g1 & -> & _ & _ & Hq)]; [done|].
  by apply Hq.
Qed.

Lemma system_step_caps s ev :
  within_caps (globals s) →
  within_caps (globals (system_step s ev)) ∧
  prepended (globals s) (globals (system_step s ev)).
Proof.
  intros Hc.
  assert (ev = Tick ∨ ev ≠ Tick) as [->|Hev] by (destruct ev; auto).
  - by apply tick_histories.
  - by apply quiet_system_step.
Qed.

Lemma system_run_caps evs s :
  within_caps (globals s) → within_caps (globals (system_run evs s)).
Proof.
  revert s. induction evs as [|ev evs IH]; intros s Hc; [done|].
  cbn. apply IH. by apply system_step_caps.
Qed.

End Histories.

Section HistoryClaims.

Lemma commit_all_closed_form (batches : list (list (option Prediction))) :
  ∀ g, length (predictions g) ≤ 100 →
  predictions (foldl (λ g p, commitPredictions p g) g batches) =
  take 100 (concat (reverse (non_null <$> batches)) ++ predictions g).
Proof.
  induction batches as [|p batches IH]; intros g Hlen; cbn [foldl].
  - cbn. by rewrite take_ge.
  - rewrite IH, commitPredictions_predictions.
    + rewrite take_app_take, fmap_cons, reverse_cons, concat_app.
      cbn. by rewrite app_nil_r, <-(assoc_L (++)).
    + rewrite commitPredictions_predictions, length_take. lia.
Qed.

Lemma record_all_closed_form (entries : list ErrorEntry) :
  ∀ g, length (systemErrors g) ≤ 50 →
  systemErrors
    (foldl (λ g e, addSystemError (err_cameraId e) (err_error e) (err_timestamp e) g)
       g entries) =
  take 50 (reverse entries ++ systemErrors g).
Proof.
  induction entries as [|e entries IH]; intros g Hlen; cbn [foldl].
  - cbn. by rewrite take_ge.
  - rewrite IH, addSystemError_errors.
    + rewrite take_app_take, reverse_cons, <-(assoc_L (++)). by destruct e.
    + rewrite addSystemError_errors, length_take. lia.
Qed.

Lemma initialize_caps detected t0 : within_caps (globals (initialize detected t0)).
Proof. unfold within_caps. cbn. lia. Qed.

End HistoryClaims.

(** ** The latest prediction of each camera *)

Section LatestPerCamera.

Lemma latestByCamera_snoc ps p :
  latestByCamera (ps ++ [p]) = latest_visit (latestByCamera ps) p.
Proof. unfold latestByCamera. by rewrite foldl_snoc. Qed.

Lemma latestByCamera_is_latest ps c : is_latest_of ps c (latestByCamera ps !! c).
Proof.
  induction ps as [|p ps IH] using rev_ind.
  - unfold latestByCamera. cbn [foldl]. rewrite lookup_empty.
    intros p Hp. by apply elem_of_nil in Hp.
  - rewrite latestByCamera_snoc.
    destruct (decide (cameraId p = c)) as [Hpc|Hpc].
    + unfold latest_visit. rewrite Hpc. destruct (latestByCamera ps !! c) as [seen|] eqn:Hseen.
      * destruct IH as (Hin & Hcam & Hmax).
        destruct (timestamp seen <? timestamp p)%N eqn:Hlt.
        -- apply N.ltb_lt in Hlt. rewrite lookup_insert_eq. cbn.
           split; [set_solver|]. split; [done|].
           intros q [Hq| ->%list_elem_of_singleton]%elem_of_app Hqc; [|lia].
           specialize (Hmax q Hq Hqc). lia.
        -- apply N.ltb_ge in Hlt. rewrite Hseen. cbn.
           split; [set_solver|]. split; [done|].
           intros q [Hq| ->%list_elem_of_singleton]%elem_of_app Hqc; auto.
      * rewrite lookup_insert_eq. cbn. split; [set_solver|]. split; [done|].
        intros q [Hq| ->%list_elem_of_singleton]%elem_of_app Hqc; [|lia].
        by destruct (IH q Hq).
    + assert (latest_visit (latestByCamera ps) p !! c = latestByCamera ps !! c) as ->.
      { unfold latest_visit. destruct (latestByCamera ps !! cameraId p);
          [destruct (_ <? _)%N|]; by rewrite ?lookup_insert_ne. }
      destruct (latestByCamera ps !! c) as [r|]; cbn in *.
      * destruct IH as (Hin & Hcam & Hmax). split; [set_solver|]. split; [done|].
        intros q [Hq| ->%list_elem_of_singleton]%elem_of_app Hqc; [auto|done].
      * intros q [Hq| ->%list_elem_of_singleton]%elem_of_app; [auto|done].
Qed.

(** C9. For every prediction history and every camera, the object built
    by the handler has an entry for the camera exactly when the history
    has a record of it, and that entry is a record of the history, of
    that camera, whose timestamp no record of the camera exceeds; from
    the records (cam 0, t 10), (cam 0, t 20), (cam 1, t 5) it yields
    (cam 0, t 20) under 0 and (cam 1, t 5) under 1. *)
Theorem latest_per_camera :
  (∀ (ps : list Prediction) (c : N),
     match latestByCamera ps !! c with
     | Some r =>
         r ∈ ps ∧ cameraId r = c ∧
         ∀ p, p ∈ ps → cameraId p = c → (timestamp p ≤ timestamp r)%N
     | None => ∀ p, p ∈ ps → cameraId p ≠ c
     end) ∧
  latestByCamera [sample 0 10; sample 0 20; sample 1 5]
    = <[1%N := sample 1 5]> (<[0%N := sample 0 20]> ∅) ∧
  object_values (latestByCamera [sample 0 10; sample 0 20; sample 1 5])
    = [sample 0 20; sample 1 5].
Proof.
  split; [|split].
  - intros ps c. apply (latestByCamera_is_latest ps c).
  - by vm_compute.
  - by vm_compute.
Qed.

End LatestPerCamera.

(** ** Model rotation *)

Section Rotation.

Lemma thread_keeps {S A B} (h : A → B) (f : S * A → S * A) :
  (∀ s a, h (f (s, a)).2 = h a) → ∀ l s, h <$> (thread f s l).2 = h <$> l.
Proof.
  intros Hf l. induction l as [|a l IH]; intros s; cbn; [done|].
  pose proof (Hf s a) as H1. destruct (f (s, a)) as [s1 a'].
  pose proof (IH s1) as H2. destruct (thread f s1 l) as [s2 l'].
  cbn in *. by rewrite H1, H2.
Qed.

Lemma thread_at_keeps {S A B} (h : A → B) k (f : S * A → S * A) :
  (∀ s a, h (f (s, a)).2 = h a) → ∀ l s, h <$> (thread_at k f s l).2 = h <$> l.
Proof.
  intros Hf l s. unfold thread_at. destruct (l !! k) as [a|] eqn:Hk; [|done].
  pose proof (Hf s a) as H. destruct (f (s, a)) as [s' a']. cbn in *.
  rewrite list_fmap_insert, H. apply list_insert_id.
  by rewrite list_lookup_fmap, Hk.
Qed.

Lemma try_commit_model st : cycle_model (try_commit st).2 = cycle_model st.2.
Proof.
  destruct st as [g c]. unfold try_commit.
  destruct (cycle_committed c); [done|]. by destruct (forallb _ _).
Qed.

Lemma cycle_timers_model now g c :
  cycle_model (cycle_timers now (g, c)).2 = cycle_model c.
Proof.
  unfold cycle_timers. destruct (thread _ _ _) as [g' ts].
  by rewrite try_commit_model.
Qed.

Lemma cycle_event_model cam e now g c :
  cycle_model (cycle_event cam e now (g, c)).2 = cycle_model c.
Proof.
  unfold cycle_event. destruct (thread_at _ _ _ _) as [g' ts].
  by rewrite try_commit_model.
Qed.

Lemma cycle_resume_model now g c :
  cycle_model (cycle_resume now (g, c)).2 = cycle_model c.
Proof.
  unfold cycle_resume. destruct (thread _ _ _) as [g' ts].
  by rewrite try_commit_model.
Qed.

(** An event that is not a tick starts no cycle and moves no cursor. *)
Lemma other_event_rotation s ev :
  ev ≠ Tick →
  same_rotation (globals s) (globals (system_step s ev)) ∧
  models_log (system_step s ev) = models_log s ∧
  intervalArmed (system_step s ev) = intervalArmed s.
Proof.
  intros Hev. split; [by apply quiet_system_step|].
  unfold models_log. destruct ev as [|dt|c k e|faults]; [done| | |done]; cbn.
  - pose proof (thread_keeps cycle_model (cycle_timers (clock s + dt))
                  (λ g c, cycle_timers_model (clock s + dt) g c)
                  (cycles s) (globals s)) as H.
    by destruct (thread _ _ _).
  - pose proof (thread_at_keeps cycle_model c (cycle_event k e (clock s))
                  (λ g c, cycle_event_model k e (clock s) g c)
                  (cycles s) (globals s)) as H.
    by destruct (thread_at _ _ _ _).
Qed.

Lemma length_nonzero {A} (l : list A) : l ≠ [] → (length l =? 0) = false.
Proof. destruct l; [done|]. intros _. done. Qed.

(** A tick in a ready state selects the model under the cursor and moves
    the cursor one place on, wrapping. *)
Lemma tick_rotation s :
  scheduler_ready s →
  cameras (globals (system_step s Tick)) = cameras (globals s) ∧
  currentModels (globals (system_step s Tick)) = currentModels (globals s) ∧
  currentModelIndex (globals (system_step s Tick)) =
    (currentModelIndex (globals s) + 1) `mod` length (currentModels (globals s)) ∧
  models_log (system_step s Tick) =
    models_log s ++ [currentModels (globals s) !! currentModelIndex (globals s)] ∧
  intervalArmed (system_step s Tick) = true.
Proof.
  intros (Harm & Hcam & Hmod & Hidx). unfold models_log. cbn [system_step].
  rewrite Harm. unfold predictionLoop.
  rewrite (length_nonzero _ Hcam), (length_nonzero _ Hmod). cbn [orb].
  match goal with
  | |- context [cycle_resume ?now (?g, ?c)] =>
      pose proof (quiet_cycle_resume now g c) as [(Hc & Hm & Hi) _];
      pose proof (cycle_resume_model now g c) as Hmodel;
      destruct (cycle_resume now (g, c)) as [g' c']
  end.
  cbn in *. rewrite Hc, Hm, Hi, fmap_app. cbn. by rewrite Hmodel.
Qed.

Lemma ready_step s ev : scheduler_ready s → scheduler_ready (system_step s ev).
Proof.
  intros Hr. assert (ev = Tick ∨ ev ≠ Tick) as [->|Hev] by (destruct ev; auto).
  - destruct (tick_rotation s Hr) as (Hc & Hm & Hi & _ & Ha).
    destruct Hr as (Harm & Hcam & Hmod & Hidx).
    unfold scheduler_ready. rewrite Hc, Hm, Hi, Ha.
    repeat split; try done. apply Nat.mod_upper_bound. by destruct (currentModels _).
  - destruct (other_event_rotation s ev Hev) as ((Hc & Hm & Hi) & _ & Ha).
    unfold scheduler_ready. by rewrite Hc, Hm, Hi, Ha.
Qed.

Lemma ready_run evs s : scheduler_ready s → scheduler_ready (system_run evs s).
Proof.
  revert s. induction evs as [|ev evs IH]; intros s Hr; [done|].
  cbn. by apply IH, ready_step.
Qed.

(** The cursor after a run, and the models its ticks selected. *)
Lemma run_rotation evs : ∀ s,
  scheduler_ready s →
  let models := currentModels (globals s) in
  let i := currentModelIndex (globals s) in
  currentModels (globals (system_run evs s)) = models ∧
  currentModelIndex (globals (system_run evs s)) =
    (i + count_ticks evs) `mod` length models ∧
  models_log (system_run evs s) =
    models_log s ++
    ((λ j, models !! ((i + j) `mod` length models)) <$> seq 0 (count_ticks evs)).
Proof.
  induction evs as [|ev evs IH]; intros s Hr models i.
  - cbn. destruct Hr as (_ & _ & _ & Hidx).
    rewrite Nat.add_0_r, Nat.mod_small, app_nil_r by done. done.
  - assert (ev = Tick ∨ ev ≠ Tick) as [->|Hev] by (destruct ev; auto).
    + destruct (tick_rotation s Hr) as (Hc & Hm & Hi & Hlog & Ha).
      destruct (IH (system_step s Tick) (ready_step s Tick Hr)) as (IHm & IHi & IHlog).
      cbn [system_run foldl count_ticks] in *. unfold system_run in *.
      rewrite IHm, IHi, IHlog, Hm, Hi, Hlog. fold models i.
      assert (i < length models) as Hidx by apply Hr.
      split; [done|]. split.
      * rewrite Nat.Div0.add_mod_idemp_l. f_equal. lia.
      * rewrite <-(assoc_L (++)). f_equal. cbn [seq fmap list_fmap app].
        rewrite (Nat.add_0_r i), (Nat.mod_small i (length models) Hidx). f_equal.
        rewrite <-fmap_S_seq, <-list_fmap_compose. apply list_fmap_ext.
        intros _ j _. unfold compose. rewrite Nat.Div0.add_mod_idemp_l.
        do 2 f_equal. lia.
    + destruct (other_event_rotation s ev Hev) as ((Hc & Hm & Hi) & Hlog & Ha).
      destruct (IH (system_step s ev) (ready_step s ev Hr)) as (IHm & IHi & IHlog).
      assert (count_ticks (ev :: evs) = count_ticks evs) as -> by by destruct ev.
      cbn [system_run foldl] in *. unfold system_run in *.
      by rewrite IHm, IHi, IHlog, Hm, Hi, Hlog.
Qed.

(** Reading a list once around from position [i]. *)
Lemma once_around {A} (l : list A) (i : nat) :
  i < length l →
  (λ j, l !! ((i + j) `mod` length l)) <$> seq 0 (length l) = Some <$> rotate i l.
Proof.
  intros Hi. apply list_eq. intros j. rewrite !list_lookup_fmap.
  destruct (decide (j < length l)) as [Hj|Hj].
  - rewrite lookup_seq_lt by done. cbn. unfold rotate.
    rewrite (Nat.mod_small i) by done.
    destruct (decide (i + j < length l)) as [Hij|Hij].
    + rewrite Nat.mod_small by done.
      rewrite lookup_app_l by (rewrite length_drop; lia).
      rewrite lookup_drop. by destruct (lookup_lt_is_Some_2 l (i + j) Hij) as [x ->].
    + assert ((i + j) `mod` length l = i + j - length l) as ->.
      { symmetry. apply (Nat.mod_unique _ _ 1); lia. }
      rewrite lookup_app_r by (rewrite length_drop; lia).
      rewrite length_drop, lookup_take_lt by lia.
      replace (j - (length l - i)) with (i + j - length l) by lia.
      assert (i + j - length l < length l) as Hlt by lia.
      by destruct (lookup_lt_is_Some_2 l _ Hlt) as [x ->].
  - rewrite lookup_seq_ge by lia. cbn.
    by rewrite lookup_ge_None_2 by (rewrite length_rotate; lia).
Qed.

(** The interval timer is armed only in ready states. *)
Lemma initialize_ready detected t0 evs :
  intervalArmed (system_run evs (initialize detected t0)) = true →
  scheduler_ready (system_run evs (initialize detected t0)).
Proof.
  destruct detected as [|camera detected].
  - intros Harm. exfalso. revert Harm.
    assert (∀ s, intervalArmed s = false →
                 intervalArmed (system_run evs s) = false) as Hoff.
    { induction evs as [|ev evs IH]; intros s Hs; [done|].
      cbn. apply IH. destruct ev as [|dt|c k e|faults]; cbn.
      - by rewrite Hs.
      - by destruct (thread _ _ _).
      - by destruct (thread_at _ _ _ _).
      - done. }
    by rewrite Hoff.
  - intros _. apply ready_run. repeat split; cbn; [done|done|lia].
Qed.

(** C1. In every state where the scheduler runs, whatever events came
    before (captures and dispatches ending well or badly, time passing),
    a tick moves the cursor to the next position modulo the number of
    models and no other event moves it; hence a run that holds as many
    ticks as there are models, interleaved with any other events,
    selects every model once, in configured order from the cursor on,
    and brings the cursor back. *)
Theorem rotation_advances_once_per_tick (s : System) (Hready : scheduler_ready s) :
  let models := currentModels (globals s) in
  (∀ evs,
     let s' := system_run evs s in
     currentModelIndex (globals (system_step s' Tick)) =
       (currentModelIndex (globals s') + 1) `mod` length models ∧
     ∀ ev, ev ≠ Tick →
       currentModelIndex (globals (system_step s' ev)) =
       currentModelIndex (globals s')) ∧
  (∀ evs,
     count_ticks evs = length models →
     selected_since (length (cycles s)) (system_run evs s) =
       Some <$> rotate (currentModelIndex (globals s)) models ∧
     currentModelIndex (globals (system_run evs s)) =
       currentModelIndex (globals s)).
Proof.
  intros models. split.
  - intros evs s'.
    pose proof (ready_run evs s Hready) as Hr'. fold s' in Hr'.
    destruct (run_rotation evs s Hready) as (Hm & _ & _). fold s' in Hm.
    split.
    + destruct (tick_rotation s' Hr') as (_ & _ & Hi & _). by rewrite Hi, Hm.
    + intros ev Hev. by destruct (other_event_rotation s' ev Hev) as ((_ & _ & Hi) & _).
  - intros evs Hn. destruct (run_rotation evs s Hready) as (_ & Hi & Hlog).
    assert (currentModelIndex (globals s) < length models) as Hidx by apply Hready.
    split.
    + unfold selected_since. rewrite fmap_drop. fold (models_log (system_run evs s)).
      rewrite Hlog, Hn. unfold models_log at 1.
      rewrite drop_app_length' by by rewrite length_fmap.
      by apply once_around.
    + rewrite Hi, Hn. fold models.
      rewrite <-(Nat.mul_1_l (length models)) at 1.
      rewrite Nat.Div0.mod_add. by apply Nat.mod_small.
Qed.

Lemma rotation_advances_once_per_tick_witness :
  scheduler_ready (initialize [camera0] 0) ∧
  selected_since 0
    (system_run [Tick; Camera 0 0 (TaskProc (Close (Some 1%Z))); Elapse 2000; Tick]
       (initialize [camera0] 0))
  = [Some "lettuce-diseases"; Some "malabar-spinach-training"].
Proof.
  assert (scheduler_ready (initialize [camera0] 0)) as Hr.
  { repeat split; cbn; [done|done|lia]. }
  split; [exact Hr|].
  destruct (rotation_advances_once_per_tick _ Hr) as [_ Hrun].
  exact (proj1 (Hrun [Tick; Camera 0 0 (TaskProc (Close (Some 1%Z)));
                      Elapse 2000; Tick] eq_refl)).
Defined.

End Rotation.

(** ** Frame capture *)

Section Capture.

#[local] Arguments fire_timer : simpl never.
#[local] Arguments deliver : simpl never.

Lemma capture_run_snoc evs ev w :
  capture_run (evs ++ [ev]) w = capture_step (capture_run evs w) ev.
Proof. unfold capture_run. by rewrite foldl_snoc. Qed.

Lemma capture_run_app evs evs' w :
  capture_run (evs ++ evs') w = capture_run evs' (capture_run evs w).
Proof. unfold capture_run. by rewrite foldl_app. Qed.

Lemma close_not_timeout camera code stderr camera' :
  close_message camera code stderr ≠ timeout_message camera'.
Proof. unfold close_message, timeout_message. cbn. discriminate. Qed.

Lemma error_not_timeout camera message camera' :
  error_message camera message ≠ timeout_message camera'.
Proof. unfold error_message, timeout_message. cbn. discriminate. Qed.

Lemma job_ok_start camera t0 g : job_ok camera t0 (capture_start camera t0 g).
Proof.
  split; cbn; try done. intros _. split; [|done]. unfold CAPTURE_TIMEOUT_MS. lia.
Qed.

Lemma settle_pending {A} (next p : Promise A) :
  settle next p = Pending → next = Pending ∧ p = Pending.
Proof. destruct p; cbn; [by intros ->|done|done]. Qed.

Lemma settle_resolved {A} (message : string) (p : Promise A) buf :
  settle (Rejected message) p = Resolved buf → p = Resolved buf.
Proof. by destruct p. Qed.

Lemma settle_rejected {A} (next p : Promise A) message :
  settle next p = Rejected message →
  p = Rejected message ∨ (p = Pending ∧ next = Rejected message).
Proof. destruct p; cbn; auto. Qed.

Lemma job_ok_wait camera t0 w dt :
  job_ok camera t0 w → job_ok camera t0 (capture_step w (Wait dt)).
Proof.
  intros [Hcam Harm Hnd Hpen Hrun Hfired Hnot Hto].
  destruct w as [g now j]. cbn in *. unfold fire_timer.
  destruct (firedAt j) as [t|] eqn:Hf.
  - split; cbn; rewrite ?Hf; try done.
    intros t' Ht'. destruct (Hfired t' Ht'). lia.
  - destruct (Hnot eq_refl) as [Hnow Hk]. rewrite Harm.
    destruct (t0 + CAPTURE_TIMEOUT_MS <=? now + dt)%N eqn:Hdue.
    + apply N.leb_le in Hdue. unfold on_timeout. cbn.
      destruct (negb (hasData j)); cbn.
      * split; cbn; try done.
        -- by intros [? ?]%settle_pending.
        -- intros Hc buf Hp%settle_resolved. by eapply Hrun.
        -- intros t [= <-]. lia.
        -- intros _. apply elem_of_app. right. by apply list_elem_of_singleton.
      * split; cbn; try done. intros t [= <-]. lia.
    + apply N.leb_gt in Hdue. by split; cbn; rewrite ?Hf.
Qed.

Lemma job_ok_proc camera t0 w e :
  job_ok camera t0 w → job_ok camera t0 (capture_step w (Proc e)).
Proof.
  intros [Hcam Harm Hnd Hpen Hrun Hfired Hnot Hto].
  destruct w as [g now j]. cbn in *. unfold deliver.
  destruct (proc_closed j) eqn:Hcl; [by split; cbn; rewrite ?Hcl|].
  destruct e as [chunk|text|code|message]; cbn.
  - by split; cbn; rewrite ?Hcl.
  - by split; cbn; rewrite ?Hcl.
  - unfold on_close.
    destruct (code_is_zero code && _ && _); cbn.
    + split; cbn; try done.
      * by intros [? ?]%settle_pending.
      * intros [Hp|[_ ?]]%settle_rejected; [auto|done].
    + split; cbn; try done.
      * by intros [? ?]%settle_pending.
      * intros [Hp|[_ Hp]]%settle_rejected; [auto|].
        exfalso. apply (close_not_timeout (job_camera j) code (stderrOutput j) camera).
        congruence.
  - split; cbn; rewrite ?Hcl; try done.
    + intros _ buf Hp%settle_resolved. by eapply Hrun.
    + intros [Hp|[_ Hp]]%settle_rejected; [auto|].
      exfalso. apply (error_not_timeout (job_camera j) message camera).
      congruence.
Qed.

Lemma job_ok_run camera t0 g evs :
  job_ok camera t0 (capture_run evs (capture_start camera t0 g)).
Proof.
  induction evs as [|ev evs IH] using rev_ind; [apply job_ok_start|].
  rewrite capture_run_snoc. destruct ev; [by apply job_ok_wait | by apply job_ok_proc].
Qed.

Lemma stdout_bytes_snoc evs ev :
  stdout_bytes (evs ++ [ev]) =
  stdout_bytes evs ++ match ev with
                      | Proc (StdoutData chunk) => chunk
                      | _ => []
                      end.
Proof.
  unfold stdout_bytes. rewrite omap_app, concat_app. f_equal.
  destruct ev as [dt|[chunk|text|code|message]]; cbn; by rewrite ?app_nil_r.
Qed.

(** The timer leaves the buffer and the process alone. *)
Lemma fire_timer_keeps now g j :
  let j' := (fire_timer now (g, j)).2 in
  imageBuffer j' = imageBuffer j ∧ hasData j' = hasData j ∧
  proc_closed j' = proc_closed j ∧ stderrOutput j' = stderrOutput j ∧
  job_camera j' = job_camera j.
Proof.
  unfold fire_timer. destruct (firedAt j); [done|].
  destruct (armedAt j) as [armed|]; [|done].
  destruct (_ <=? _)%N; [|done]. unfold on_timeout. cbn.
  by destruct (negb (hasData j)).
Qed.

Lemma deliver_camera e now g j :
  job_camera (deliver e now (g, j)).2 = job_camera j.
Proof.
  unfold deliver. destruct (proc_closed j); [done|].
  destruct e; cbn; try done. unfold on_close. by destruct (_ && _ && _).
Qed.

(** While the process runs, the buffer holds what it has written. *)
Lemma running_buffer camera t0 g evs :
  let w := capture_run evs (capture_start camera t0 g) in
  proc_closed (cw_job w) = false → imageBuffer (cw_job w) = stdout_bytes evs.
Proof.
  induction evs as [|ev evs IH] using rev_ind; [done|].
  rewrite capture_run_snoc, stdout_bytes_snoc. cbn zeta in *.
  destruct (capture_run evs (capture_start camera t0 g)) as [g' now j].
  destruct ev as [dt|e]; cbn in *.
  - destruct (fire_timer_keeps (now + dt) g' j) as (Hb & _ & Hc & _).
    destruct (fire_timer _ _) as [g'' j']. cbn in *.
    rewrite Hb, Hc, app_nil_r. exact IH.
  - unfold deliver. destruct (proc_closed j) eqn:Hcl; [by cbn; rewrite Hcl|].
    specialize (IH eq_refl).
    destruct e as [chunk|text|code|message]; cbn.
    + intros _. by rewrite IH.
    + intros _. by rewrite app_nil_r.
    + unfold on_close. by destruct (_ && _ && _).
    + intros _. by rewrite app_nil_r.
Qed.

(** Without a [data] event, [hasData] stays down. *)
Lemma silent_no_data camera t0 g evs :
  (∀ chunk, Proc (StdoutData chunk) ∉ evs) →
  hasData (cw_job (capture_run evs (capture_start camera t0 g))) = false.
Proof.
  induction evs as [|ev evs IH] using rev_ind; [done|].
  intros Hsilent. rewrite capture_run_snoc.
  assert (hasData (cw_job (capture_run evs (capture_start camera t0 g))) = false)
    as Hd. { apply IH. intros chunk Hin. apply (Hsilent chunk). set_solver. }
  destruct (capture_run evs (capture_start camera t0 g)) as [g' now j].
  destruct ev as [dt|e]; cbn in *.
  - destruct (fire_timer_keeps (now + dt) g' j) as (_ & Hh & _).
    destruct (fire_timer _ _) as [g'' j']. cbn in *. by rewrite Hh.
  - unfold deliver. destruct (proc_closed j); [done|].
    destruct e as [chunk|text|code|message]; cbn; try done.
    + exfalso. apply (Hsilent chunk). set_solver.
    + unfold on_close. by destruct (_ && _ && _).
Qed.

Lemma code_is_zero_true code : code_is_zero code = true → code = Some 0%Z.
Proof.
  destruct code as [z|]; [|done]. cbn. intros Hz%Z.eqb_eq. by subst.
Qed.

(** The one way into [Resolved]. *)
Lemma step_resolves w ev buf :
  promise (cw_job (capture_step w ev)) = Resolved buf →
  promise (cw_job w) = Resolved buf ∨
  (promise (cw_job w) = Pending ∧ proc_closed (cw_job w) = false ∧
   ev = Proc (Close (Some 0%Z)) ∧ buf = imageBuffer (cw_job w) ∧ buf ≠ []).
Proof.
  destruct w as [g now j]. destruct ev as [dt|e]; cbn.
  - unfold fire_timer. destruct (firedAt j); [by left|].
    destruct (armedAt j) as [armed|]; [|by left].
    destruct (_ <=? _)%N; [|by left]. unfold on_timeout. cbn.
    destruct (negb (hasData j)); cbn; [|by left].
    intros Hp%settle_resolved. by left.
  - unfold deliver. destruct (proc_closed j) eqn:Hcl; [by left|].
    destruct e as [chunk|text|code|message]; cbn; try by left.
    + unfold on_close. destruct (code_is_zero code && _ && _) eqn:Hgood; cbn.
      * apply andb_prop in Hgood as [[Hz%code_is_zero_true Hd]%andb_prop Hlen].
        cbn in Hlen. subst code. destruct (promise j) eqn:Hp; cbn; [|by left|done].
        intros [= <-]. right. repeat split; try done.
        intros Hnil. by rewrite Hnil in Hlen.
      * intros Hp%settle_resolved. by left.
    + intros Hp%settle_resolved. by left.
Qed.

Lemma step_keeps_resolved w ev buf :
  promise (cw_job w) = Resolved buf →
  promise (cw_job (capture_step w ev)) = Resolved buf.
Proof.
  destruct w as [g now j]. destruct ev as [dt|e]; cbn; intros Hp.
  - unfold fire_timer. destruct (firedAt j); [done|].
    destruct (armedAt j) as [armed|]; [|done].
    destruct (_ <=? _)%N; [|done]. unfold on_timeout. cbn.
    destruct (negb (hasData j)); cbn; [|done]. by rewrite Hp.
  - unfold deliver. destruct (proc_closed j); [done|].
    destruct e as [chunk|text|code|message]; cbn; try done.
    + unfold on_close. destruct (_ && _ && _); cbn; by rewrite Hp.
    + by rewrite Hp.
Qed.

Lemma run_keeps_resolved evs w buf :
  promise (cw_job w) = Resolved buf →
  promise (cw_job (capture_run evs w)) = Resolved buf.
Proof.
  revert w. induction evs as [|ev evs IH]; intros w Hp; [done|].
  cbn. by apply IH, step_keeps_resolved.
Qed.

Lemma close_resolves w :
  proc_closed (cw_job w) = false → promise (cw_job w) = Pending →
  hasData (cw_job w) = true → imageBuffer (cw_job w) ≠ [] →
  promise (cw_job (capture_step w (Proc (Close (Some 0%Z))))) =
  Resolved (imageBuffer (cw_job w)).
Proof.
  destruct w as [g now j]. cbn. intros Hcl Hp Hd Hb.
  unfold deliver. rewrite Hcl. unfold on_close. cbn. rewrite Hd, Hp.
  by destruct (imageBuffer j).
Qed.

Lemma close_fails w code :
  proc_closed (cw_job w) = false →
  code ≠ Some 0%Z ∨ imageBuffer (cw_job w) = [] →
  let w' := capture_step w (Proc (Close code)) in
  let message :=
    close_message (job_camera (cw_job w)) code (stderrOutput (cw_job w)) in
  cw_state w' = addSystemError (id (job_camera (cw_job w))) message (cw_now w)
                  (cw_state w) ∧
  promise (cw_job w') = settle (Rejected message) (promise (cw_job w)).
Proof.
  destruct w as [g now j]. cbn. intros Hcl Hbad.
  unfold deliver. rewrite Hcl. unfold on_close.
  destruct (code_is_zero code && _ && _) eqn:Hgood; [exfalso|done].
  apply andb_prop in Hgood as [[Hz%code_is_zero_true Hd]%andb_prop Hlen].
  destruct Hbad as [Hcode|Hnil]; [done|].
  cbn in Hlen. by rewrite Hnil in Hlen.
Qed.

(** C3 (as amended). The capture resolves with a buffer exactly when the
    process closes with status 0 while the capture is still pending and
    the bytes written so far, which are that buffer, are at least one.
    And when a running process closes with another status or without
    having written a byte, an error entry for the camera is put in
    front of the error history and the capture is rejected, with the
    message of this failure if it was pending. *)
Theorem capture_resolves_on_clean_close (camera : CameraDescriptor) (t0 : N)
    (g : ServerState) :
  (∀ evs buf,
     capture_promise camera t0 g evs = Resolved buf ↔
     ∃ pre post,
       evs = pre ++ Proc (Close (Some 0%Z)) :: post ∧
       capture_promise camera t0 g pre = Pending ∧
       stdout_bytes pre = buf ∧ buf ≠ []) ∧
  (∀ pre code,
     let w := capture_run pre (capture_start camera t0 g) in
     let w' := capture_step w (Proc (Close code)) in
     let message := close_message camera code (stderrOutput (cw_job w)) in
     proc_closed (cw_job w) = false →
     code ≠ Some 0%Z ∨ stdout_bytes pre = [] →
     systemErrors (cw_state w') =
       take 50 ({| err_cameraId := id camera; err_error := message;
                   err_timestamp := cw_now w |} :: systemErrors (cw_state w)) ∧
     ∃ reason, promise (cw_job w') = Rejected reason ∧
               (promise (cw_job w) = Pending → reason = message)).
Proof.
  split.
  - intros evs buf. unfold capture_promise. split.
    + induction evs as [|ev evs IH] using rev_ind; [done|].
      rewrite capture_run_snoc.
      intros [Hbefore|(Hp & Hcl & -> & Hbuf & Hne)]%step_resolves.
      * destruct (IH Hbefore) as (pre & post & -> & Hpre).
        exists pre, (post ++ [ev]). by rewrite <-(assoc_L (++)).
      * exists evs, []. repeat split; try done.
        by rewrite Hbuf, (running_buffer camera t0 g evs Hcl).
    + intros (pre & post & -> & Hp & Hbytes & Hne).
      rewrite capture_run_app. cbn [capture_run foldl].
      apply run_keeps_resolved.
      pose proof (job_ok_run camera t0 g pre) as Hok.
      pose proof (ok_pending _ _ _ Hok Hp) as Hcl.
      pose proof (running_buffer camera t0 g pre Hcl) as Hbuf. cbn zeta in Hbuf.
      subst buf. rewrite <-Hbuf in Hne. rewrite <-Hbuf.
      apply close_resolves; try done.
      apply not_false_iff_true. intros Hd. by apply (ok_no_data _ _ _ Hok) in Hd.
  - intros pre code w w' message Hcl Hbad.
    pose proof (job_ok_run camera t0 g pre) as Hok. fold w in Hok.
    destruct (close_fails w code Hcl) as [Hstate Hpromise].
    { destruct Hbad as [?|Hnil]; [by left|right].
      unfold w. by rewrite (running_buffer camera t0 g pre Hcl). }
    fold w' in Hstate, Hpromise. rewrite (ok_camera _ _ _ Hok) in Hstate, Hpromise.
    fold message in Hstate, Hpromise. split.
    + rewrite Hstate. apply addSystemError_errors.
    + rewrite Hpromise. destruct (promise (cw_job w)) as [|buf|reason] eqn:Hp; cbn.
      * by exists message.
      * by destruct (ok_running _ _ _ Hok Hcl buf).
      * by exists reason.
Qed.

Lemma capture_resolves_on_clean_close_witness :
  let w := capture_run [Proc (StderrData "Connection refused")]
             (capture_start camera0 0 initial_state) in
  proc_closed (cw_job w) = false ∧
  systemErrors (cw_state (capture_step w (Proc (Close (Some 1%Z))))) =
    take 50 [{| err_cameraId := 0;
                err_error := close_message camera0 (Some 1%Z) "Connection refused";
                err_timestamp := 0 |}].
Proof.
  split; [reflexivity|].
  destruct (capture_resolves_on_clean_close camera0 0 initial_state) as [_ Hfail].
  refine (proj1 (Hfail [Proc (StderrData "Connection refused")] (Some 1%Z)
                   eq_refl _)).
  left. discriminate.
Defined.

(** C3 as stated fails here. The byte and the exit with status 0 reach
    the event loop behind the timer callback, which has just found no
    data and rejected: the process exited cleanly with output, and the
    capture stays rejected. *)
Lemma capture_clean_exit_after_timeout :
  ¬ resolves_iff_clean_exit camera0 0 initial_state
      [Wait 10000; Proc (StdoutData [Byte.xff]); Proc (Close (Some 0%Z))].
Proof.
  intros [_ Hresolves]. destruct Hresolves as [buf Hbuf]; [by split|].
  vm_compute in Hbuf. discriminate.
Qed.

(** The timer callback when it finds no data. *)
Lemma timer_fires_silent w dt armed :
  firedAt (cw_job w) = None →
  armedAt (cw_job w) = Some armed →
  (armed + CAPTURE_TIMEOUT_MS ≤ cw_now w + dt)%N →
  hasData (cw_job w) = false →
  let w' := capture_step w (Wait dt) in
  let message := timeout_message (job_camera (cw_job w)) in
  kills (cw_job w') = kills (cw_job w) ++ ["SIGTERM"] ∧
  firedAt (cw_job w') = Some (cw_now w + dt)%N ∧
  cw_state w' = addSystemError (id (job_camera (cw_job w))) message
                  (cw_now w + dt) (cw_state w) ∧
  promise (cw_job w') = settle (Rejected message) (promise (cw_job w)).
Proof.
  destruct w as [g now j]. cbn. intros Hf Ha Hdue%N.leb_le Hd.
  unfold fire_timer. rewrite Hf, Ha, Hdue. unfold on_timeout. cbn. by rewrite Hd.
Qed.

(** A process that stays alive and silent: the capture is pending until
    the timer fires, rejected with the timeout error from then on. *)
Lemma quiet_process_state camera t0 g evs :
  quiet_process evs →
  let j := cw_job (capture_run evs (capture_start camera t0 g)) in
  hasData j = false ∧ proc_closed j = false ∧
  match firedAt j with
  | None => promise j = Pending ∧ kills j = []
  | Some _ => promise j = Rejected (timeout_message camera) ∧ kills j = ["SIGTERM"]
  end.
Proof.
  induction evs as [|ev evs IH] using rev_ind; [done|].
  intros [Hevs Hev%Forall_inv]%Forall_app.
  specialize (IH Hevs). cbn zeta in *. rewrite capture_run_snoc.
  pose proof (ok_camera _ _ _ (job_ok_run camera t0 g evs)) as Hcam.
  pose proof (ok_armed _ _ _ (job_ok_run camera t0 g evs)) as Harmed.
  destruct (capture_run evs (capture_start camera t0 g)) as [g' now j].
  cbn in IH, Hcam, Harmed. destruct IH as (Hd & Hcl & Hstate).
  destruct ev as [dt|[chunk|text|code|message]]; try done; cbn.
  - unfold fire_timer. destruct (firedAt j) as [t|] eqn:Hf; [by cbn; rewrite ?Hf|].
    rewrite Harmed.
    destruct (_ <=? _)%N; cbn; [|by rewrite ?Hf].
    unfold on_timeout. cbn. rewrite Hd. cbn.
    destruct Hstate as [-> ->]. by rewrite Hcam.
  - unfold deliver. by rewrite Hcl.
Qed.

(** C4 (as amended). The timer callback never runs before 10 seconds
    have passed since the capture began, and the capture is never
    rejected with the timeout error before that. When the deadline
    comes and no output has arrived, the callback sends SIGTERM to the
    process, puts a timeout entry in front of the error history and
    rejects with the timeout error, which takes effect if the capture is
    still pending. A process that stays alive and silent therefore ends
    in the timeout error once the deadline has passed. *)
Theorem capture_timeout_at_deadline (camera : CameraDescriptor) (t0 : N)
    (g : ServerState) :
  (∀ evs t,
     firedAt (cw_job (capture_run evs (capture_start camera t0 g))) = Some t →
     (t0 + 10000 ≤ t)%N) ∧
  (∀ evs,
     capture_promise camera t0 g evs = Rejected (timeout_message camera) →
     let w := capture_run evs (capture_start camera t0 g) in
     "SIGTERM" ∈ kills (cw_job w) ∧
     ∃ t, firedAt (cw_job w) = Some t ∧ (t0 + 10000 ≤ t ≤ cw_now w)%N) ∧
  (∀ pre dt,
     let w := capture_run pre (capture_start camera t0 g) in
     let w' := capture_step w (Wait dt) in
     (∀ chunk, Proc (StdoutData chunk) ∉ pre) →
     (cw_now w < t0 + 10000 ≤ cw_now w + dt)%N →
     kills (cw_job w') = kills (cw_job w) ++ ["SIGTERM"] ∧
     firedAt (cw_job w') = Some (cw_now w + dt)%N ∧
     systemErrors (cw_state w') =
       take 50 ({| err_cameraId := id camera;
                   err_error := timeout_message camera;
                   err_timestamp := (cw_now w + dt)%N |}
                :: systemErrors (cw_state w)) ∧
     promise (cw_job w') =
       settle (Rejected (timeout_message camera)) (promise (cw_job w))) ∧
  (∀ evs,
     let w := capture_run evs (capture_start camera t0 g) in
     quiet_process evs →
     (t0 + 10000 ≤ cw_now w)%N →
     promise (cw_job w) = Rejected (timeout_message camera) ∧
     kills (cw_job w) = ["SIGTERM"]).
Proof.
  split; [|split; [|split]].
  - intros evs t Ht.
    by destruct (ok_fired _ _ _ (job_ok_run camera t0 g evs) t Ht).
  - intros evs Hp w. pose proof (job_ok_run camera t0 g evs) as Hok. fold w in Hok.
    pose proof (ok_timeout _ _ _ Hok Hp) as Hkill. split; [done|].
    destruct (firedAt (cw_job w)) as [t|] eqn:Hf.
    + exists t. split; [done|]. apply (ok_fired _ _ _ Hok t Hf).
    + destruct (ok_not_fired _ _ _ Hok Hf) as [_ Hk].
      rewrite Hk in Hkill. by apply elem_of_nil in Hkill.
  - intros pre dt w w' Hsilent [Hbefore Hdue].
    pose proof (job_ok_run camera t0 g pre) as Hok. fold w in Hok.
    assert (firedAt (cw_job w) = None) as Hf.
    { destruct (firedAt (cw_job w)) as [t|] eqn:Hf; [|done].
      destruct (ok_fired _ _ _ Hok t Hf). unfold CAPTURE_TIMEOUT_MS in *. lia. }
    destruct (timer_fires_silent w dt t0 Hf (ok_armed _ _ _ Hok))
      as (Hk & Hfired & Hstate & Hpromise).
    { done. }
    { apply (silent_no_data camera t0 g pre Hsilent). }
    fold w' in Hk, Hfired, Hstate, Hpromise.
    rewrite (ok_camera _ _ _ Hok) in Hstate, Hpromise.
    repeat split; try done. rewrite Hstate. apply addSystemError_errors.
  - intros evs w Hquiet Hdue.
    pose proof (job_ok_run camera t0 g evs) as Hok. fold w in Hok.
    destruct (quiet_process_state camera t0 g evs Hquiet) as (_ & _ & Hstate).
    fold w in Hstate. destruct (firedAt (cw_job w)) as [t|] eqn:Hf; [done|].
    destruct (ok_not_fired _ _ _ Hok Hf). unfold CAPTURE_TIMEOUT_MS in *. lia.
Qed.

Lemma capture_timeout_at_deadline_witness :
  let w := capture_run [Wait 4000; Proc (StderrData "Opening input"); Wait 6000]
             (capture_start camera0 0 initial_state) in
  quiet_process [Wait 4000; Proc (StderrData "Opening input"); Wait 6000] ∧
  (0 + 10000 ≤ cw_now w)%N ∧
  promise (cw_job w) = Rejected (timeout_message camera0) ∧
  kills (cw_job w) = ["SIGTERM"].
Proof.
  assert (quiet_process [Wait 4000; Proc (StderrData "Opening input"); Wait 6000])
    as Hquiet by (repeat constructor).
  split; [exact Hquiet|]. split; [vm_compute; discriminate|].
  destruct (capture_timeout_at_deadline camera0 0 initial_state)
    as (_ & _ & _ & Hsilent).
  apply (Hsilent _ Hquiet). vm_compute. discriminate.
Defined.

(** C4 as stated fails here. The process fails at once without output;
    ten seconds later no byte has arrived, and the capture still carries
    the failure of the close, not the timeout error. *)
Lemma capture_failed_before_deadline :
  ¬ silent_capture_times_out camera0 0 initial_state
      [Proc (Close (Some 1%Z)); Wait 10000].
Proof.
  intros Htimeout. unfold silent_capture_times_out in Htimeout.
  assert (capture_promise camera0 0 initial_state
            [Proc (Close (Some 1%Z)); Wait 10000] =
          Rejected (timeout_message camera0)) as Hp.
  { apply Htimeout.
    - intros chunk Hin. apply elem_of_cons in Hin as [?|Hin]; [done|].
      apply elem_of_cons in Hin as [?|Hin]; [done|]. by apply elem_of_nil in Hin.
    - vm_compute. discriminate. }
  vm_compute in Hp. discriminate.
Qed.

End Capture.

(** ** Prediction dispatch *)

Section Dispatch.

(** C5. Whatever the camera, the frame and the model: when the request
    fails in transport, or the response status is not a success, or the
    parsed body has an [error] field with a truthy value, [sendPrediction]
    returns [null] and leaves every module variable, the error history
    among them, as it was; and in no case at all does it throw or touch
    either history. The task that awaited it then finishes without a
    prediction and without an error entry. A successful response whose
    parsed body has no [error] field, or one that holds a falsy value
    ([null], [false], 0, the empty string), is no failure: the dispatch
    returns the record of that body. *)
Theorem dispatch_failure_is_silent (camera : CameraDescriptor) (frame : Buffer)
    (currentModel : option string) (now : N) (g : ServerState) :
  (∀ net, dispatch_fails net →
     sendPrediction camera frame currentModel net now g = (g, Returns None)) ∧
  (∀ net, ∃ g' outcome,
     sendPrediction camera frame currentModel net now g = (g', Returns outcome) ∧
     systemErrors g' = systemErrors g ∧ predictions g' = predictions g) ∧
  (∀ net t, dispatch_fails net →
     job_camera (task_job t) = camera → task_model t = currentModel →
     task_phase t = AwaitingDispatch frame →
     task_step (TaskFetch net) now (g, t) =
     (g, {| task_job := task_job t; task_model := task_model t;
            task_phase := Finished None |})) ∧
  (∀ status result, no_error_field result →
     sendPrediction camera frame currentModel
       (FetchResponds true status (Some result)) now g =
     (set_imageBase ("data:image/jpeg;base64," +:+ base64 frame) g,
      Returns (Some {| cameraId := id camera; model := currentModel;
                       timestamp := now; result := result;
                       image := "data:image/jpeg;base64," +:+ base64 frame |}))).
Proof.
  assert (∀ net, dispatch_fails net →
            sendPrediction camera frame currentModel net now g = (g, Returns None))
    as Hfail.
  { intros net [[reason ->]|[(status & body & ->)|(status & result & field & -> & Hget & Htruthy)]];
      unfold sendPrediction, sendPrediction_try; cbn; [done|done|].
    by rewrite Hget, Htruthy. }
  split; [exact Hfail|]. split; [|split].
  - intros net. unfold sendPrediction, sendPrediction_try.
    destruct net as [reason|[] status [result|]]; cbn; eauto.
    destruct (get_property result "error") as [[field|]|]; cbn; eauto.
    destruct (truthy field); cbn; eauto.
  - intros net t Hnet Hcam Hmodel Hphase. unfold task_step.
    by rewrite Hphase, Hcam, Hmodel, (Hfail net Hnet).
  - intros status result [Hget|(field & Hget & Hfalsy)];
      unfold sendPrediction, sendPrediction_try; cbn; rewrite Hget; [done|].
    by rewrite Hfalsy.
Qed.

Lemma dispatch_failure_is_silent_witness :
  sendPrediction camera0 [Byte.xff; Byte.xd8] (Some "lettuce-diseases")
    (FetchResponds true 200 (Some (JObject [("error", JString "model not found")])))
    1000 initial_state
  = (initial_state, Returns None).
Proof.
  apply (proj1 (dispatch_failure_is_silent camera0 [Byte.xff; Byte.xd8]
                  (Some "lettuce-diseases") 1000 initial_state)).
  right. right. by exists 200%N, (JObject [("error", JString "model not found")]),
                         (JString "model not found").
Defined.

(** C5 as stated fails here. The service answers 200 with the body
    [{error: null}]: the body has an [error] field, the test
    [if (result.error)] finds it falsy, and the dispatch returns a
    prediction record. *)
Lemma falsy_error_field_is_success :
  ¬ stated_failures_yield_nothing camera0 [] None 0 initial_state.
Proof.
  intros Hnothing.
  assert (sendPrediction camera0 [] None
            (FetchResponds true 200 (Some (JObject [("error", JNull)]))) 0
            initial_state = (initial_state, Returns None)) as Hnone.
  { apply Hnothing. right. right.
    by exists 200%N, (JObject [("error", JNull)]), JNull. }
  vm_compute in Hnone. discriminate.
Qed.

End Dispatch.

(** ** A failed capture in the error history *)

Section CaptureFailure.

#[local] Arguments fire_timer : simpl never.
#[local] Arguments deliver : simpl never.
#[local] Arguments resume : simpl never.

Lemma task_run_snoc ss s w :
  task_run (ss ++ [s]) w = task_world_step (task_run ss w) s.
Proof. unfold task_run. by rewrite foldl_snoc. Qed.

(** A handler that rejects a pending capture has just put the entry of
    that rejection in front of the error history. *)
Lemma deliver_rejects e now g j message :
  promise j = Pending →
  promise (deliver e now (g, j)).2 = Rejected message →
  (deliver e now (g, j)).1 = addSystemError (id (job_camera j)) message now g.
Proof.
  intros Hp. unfold deliver. destruct (proc_closed j); [by cbn; rewrite Hp|].
  destruct e as [chunk|text|code|reason]; cbn; try by rewrite Hp.
  - unfold on_close. destruct (_ && _ && _); cbn; rewrite Hp; cbn; [done|].
    by intros [= <-].
  - rewrite Hp. cbn. by intros [= <-].
Qed.

Lemma fire_timer_rejects now g j message :
  promise j = Pending →
  promise (fire_timer now (g, j)).2 = Rejected message →
  (fire_timer now (g, j)).1 = addSystemError (id (job_camera j)) message now g.
Proof.
  intros Hp. unfold fire_timer. destruct (firedAt j); [by cbn; rewrite Hp|].
  destruct (armedAt j) as [armed|]; [|by cbn; rewrite Hp].
  destruct (_ <=? _)%N; [|by cbn; rewrite Hp]. unfold on_timeout. cbn.
  destruct (negb (hasData j)); cbn; rewrite Hp; cbn; [|done]. by intros [= <-].
Qed.

(** The [catch] clause that follows. *)
Lemma resume_rejected now g t message :
  task_phase t = AwaitingCapture → promise (task_job t) = Rejected message →
  resume now (g, t) =
  (addSystemError (id (job_camera (task_job t)))
     (capture_failed_message (job_camera (task_job t)) message) now g,
   {| task_job := task_job t; task_model := task_model t;
      task_phase := Finished None |}).
Proof. intros Hphase Hp. unfold resume. by rewrite Hphase, Hp. Qed.

Lemma resume_job now g t : task_job (resume now (g, t)).2 = task_job t.
Proof.
  unfold resume. destruct (task_phase t); try done. by destruct (promise _).
Qed.

Lemma resume_awaiting now g t :
  task_phase (resume now (g, t)).2 = AwaitingCapture →
  promise (task_job t) = Pending.
Proof.
  unfold resume. destruct (task_phase t) eqn:Hphase; cbn; rewrite ?Hphase;
    try done.
  by destruct (promise (task_job t)).
Qed.

(** While the task awaits the capture, the capture is pending. *)
Lemma awaiting_is_pending spawn camera currentModel t0 g ss :
  let w := task_run ss (task_world_start spawn camera currentModel t0 g) in
  job_camera (task_job (tw_task w)) = camera ∧
  (task_phase (tw_task w) = AwaitingCapture →
   promise (task_job (tw_task w)) = Pending).
Proof.
  induction ss as [|s ss IH] using rev_ind.
  { unfold task_world_start, resume. by destruct spawn. }
  cbn zeta in *. rewrite task_run_snoc.
  destruct (task_run ss (task_world_start spawn camera currentModel t0 g))
    as [g' now t].
  cbn in IH. destruct IH as [Hcam Hpending].
  destruct s as [dt|[e|net]]; cbn.
  - unfold task_timer.
    destruct (fire_timer_keeps (now + dt) g' (task_job t)) as (_ & _ & _ & _ & Hc).
    destruct (fire_timer _ _) as [g1 j1]. cbn in Hc.
    pose proof (resume_job (now + dt) g1
      {| task_job := j1; task_model := task_model t; task_phase := task_phase t |})
      as Hjob.
    pose proof (resume_awaiting (now + dt) g1
      {| task_job := j1; task_model := task_model t; task_phase := task_phase t |})
      as Haw.
    destruct (resume _ _) as [g2 t2]. cbn in *. rewrite Hjob.
    split; [congruence|done].
  - pose proof (deliver_camera e now g' (task_job t)) as Hc.
    destruct (deliver _ _ _) as [g1 j1]. cbn in Hc.
    pose proof (resume_job now g1
      {| task_job := j1; task_model := task_model t; task_phase := task_phase t |})
      as Hjob.
    pose proof (resume_awaiting now g1
      {| task_job := j1; task_model := task_model t; task_phase := task_phase t |})
      as Haw.
    destruct (resume _ _) as [g2 t2]. cbn in *. rewrite Hjob.
    split; [congruence|done].
  - destruct (task_phase t) eqn:Hphase; cbn; rewrite ?Hphase; try done.
    destruct (sendPrediction _ _ _ _ _ _) as [g1 [outcome|message]]; by cbn.
Qed.

Lemma quiet_task_run ss w :
  quiet (tw_state w) (tw_state (task_run ss w)).
Proof.
  revert w. induction ss as [|s ss IH]; intros w; [apply quiet_refl|].
  cbn. eapply quiet_trans; [|apply IH].
  destruct w as [g now t].
  destruct s as [dt|e]; unfold task_world_step; cbn [tw_state tw_now tw_task].
  - pose proof (quiet_task_timer (now + dt) g t) as H.
    by destruct (task_timer _ _).
  - pose proof (quiet_task_step e now g t) as H.
    by destruct (task_step _ _ _).
Qed.

(** A task whose [spawn] threw has returned, and nothing is left of it
    that could act: no process, no timer, no pending request. *)
Lemma thrown_task_inert message camera currentModel t0 g later :
  let w := task_world_start (FfmpegThrows message) camera currentModel t0 g in
  tw_state (task_run later w) = tw_state w ∧
  tw_task (task_run later w) = tw_task w.
Proof.
  cbn zeta. unfold task_world_start, resume. cbn.
  set (g0 := addSystemError _ _ _ _). set (t := Build_CameraTask _ _ _).
  generalize t0. induction later as [|s later IH]; intros now; [done|].
  cbn [task_run foldl]. fold (task_run later).
  assert (∃ now', task_world_step {| tw_state := g0; tw_now := now; tw_task := t |} s
                  = {| tw_state := g0; tw_now := now'; tw_task := t |})
    as [now' ->] by (destruct s as [dt|[e|net]]; eexists; reflexivity).
  apply IH.
Qed.

(** C10 (as amended). When a step rejects the capture that a camera task
    is awaiting, the process having been spawned, that step puts two
    entries for the camera in front of the error history: first the one
    of the capture routine, carrying the rejection message, then, in
    front of it, the one of the catch clause of the polling loop,
    carrying the same message behind its own prefix; the task finishes
    without a prediction, and whatever the same task does later only
    puts further entries in front. When [spawn] throws, the capture
    routine records nothing: the catch clause of the polling loop puts
    its one entry in front of the error history, the task finishes
    without a prediction, and nothing that happens to it later changes
    a module variable. *)
Theorem capture_failure_recorded_twice (camera : CameraDescriptor)
    (currentModel : option string) (t0 : N) (g : ServerState) :
  (∀ (pre : list TaskStimulus) (s : TaskStimulus) (message : string),
     let w := task_run pre (task_world_start FfmpegChild camera currentModel t0 g) in
     let w' := task_world_step w s in
     task_phase (tw_task w) = AwaitingCapture →
     promise (task_job (tw_task w')) = Rejected message →
     systemErrors (tw_state w') =
       take 50
         ({| err_cameraId := id camera;
             err_error := capture_failed_message camera message;
             err_timestamp := tw_now w' |}
          :: {| err_cameraId := id camera; err_error := message;
                err_timestamp := tw_now w' |}
          :: systemErrors (tw_state w)) ∧
     task_phase (tw_task w') = Finished None ∧
     (within_caps g →
      ∀ later, ∃ more,
        systemErrors (tw_state (task_run later w')) =
        take 50 (more ++ systemErrors (tw_state w')))) ∧
  (∀ (message : string) (later : list TaskStimulus),
     let w := task_world_start (FfmpegThrows message) camera currentModel t0 g in
     systemErrors (tw_state w) =
       take 50
         ({| err_cameraId := id camera;
             err_error := capture_failed_message camera message;
             err_timestamp := t0 |}
          :: systemErrors g) ∧
     task_phase (tw_task w) = Finished None ∧
     tw_state (task_run later w) = tw_state w ∧
     task_phase (tw_task (task_run later w)) = Finished None).
Proof.
  split.
  - intros pre s message w w' Hphase Hrejected.
    destruct (awaiting_is_pending FfmpegChild camera currentModel t0 g pre)
      as [Hcam Hpending].
    fold w in Hcam, Hpending. specialize (Hpending Hphase).
    assert (tw_state w' =
              addSystemError (id camera) (capture_failed_message camera message)
                (tw_now w')
                (addSystemError (id camera) message (tw_now w') (tw_state w)) ∧
            task_phase (tw_task w') = Finished None) as [Hstate Hdone].
    { unfold w' in *. clear w'. destruct w as [g' now t]. cbn in *.
      destruct s as [dt|[e|net]]; cbn in *.
      - unfold task_timer in *.
        pose proof (fire_timer_rejects (now + dt) g' (task_job t) message Hpending)
          as Hrej.
        destruct (fire_timer_keeps (now + dt) g' (task_job t)) as (_ & _ & _ & _ & Hc).
        destruct (fire_timer _ _) as [g1 j1]. cbn in Hrej, Hc.
        pose proof (resume_job (now + dt) g1
          {| task_job := j1; task_model := task_model t; task_phase := task_phase t |})
          as Hjob.
        cbn in Hjob. rewrite Hphase in *.
        destruct (resume _ _) as [g2 t2] eqn:Hres. cbn in *. rewrite Hjob in Hrejected.
        rewrite resume_rejected with (message := message) in Hres by done.
        injection Hres as <- <-. cbn. by rewrite (Hrej Hrejected), Hc, Hcam.
      - pose proof (deliver_rejects e now g' (task_job t) message Hpending) as Hrej.
        pose proof (deliver_camera e now g' (task_job t)) as Hc.
        destruct (deliver _ _ _) as [g1 j1]. cbn in Hrej, Hc.
        pose proof (resume_job now g1
          {| task_job := j1; task_model := task_model t; task_phase := task_phase t |})
          as Hjob.
        cbn in Hjob. rewrite Hphase in *.
        destruct (resume _ _) as [g2 t2] eqn:Hres. cbn in *. rewrite Hjob in Hrejected.
        rewrite resume_rejected with (message := message) in Hres by done.
        injection Hres as <- <-. cbn. by rewrite (Hrej Hrejected), Hc, Hcam.
      - rewrite Hphase in *. cbn in *. congruence. }
    split; [|split; [done|]].
    + rewrite Hstate, !addSystemError_errors.
      exact (take_app_take 50 [_] _).
    + intros Hcaps later.
      assert (within_caps (tw_state w')) as Hcaps'.
      { pose proof (proj2 (quiet_task_run (pre ++ [s])
                             (task_world_start FfmpegChild camera currentModel t0 g))
                      Hcaps) as [Hc _].
        by rewrite task_run_snoc in Hc. }
      destruct (quiet_task_run later w') as [_ Hq].
      by destruct (Hq Hcaps') as [_ [_ Herrors]].
  - intros message later w.
    destruct (thrown_task_inert message camera currentModel t0 g later)
      as [Hstate Htask].
    fold w in Hstate, Htask. rewrite Hstate, Htask.
    unfold w, task_world_start, resume. cbn.
    by rewrite addSystemError_errors.
Qed.

Lemma capture_failure_recorded_twice_witness :
  let w' := task_world_step
              (task_run [] (task_world_start FfmpegChild camera0
                              (Some "lettuce-diseases") 0 initial_state))
              (Event (TaskProc (Close (Some 1%Z)))) in
  systemErrors (tw_state w') =
  take 50
    [{| err_cameraId := 0;
        err_error := capture_failed_message camera0
                       (close_message camera0 (Some 1%Z) "");
        err_timestamp := 0 |};
     {| err_cameraId := 0; err_error := close_message camera0 (Some 1%Z) "";
        err_timestamp := 0 |}].
Proof.
  exact (proj1 (proj1 (capture_failure_recorded_twice camera0
                         (Some "lettuce-diseases") 0 initial_state)
                  [] (Event (TaskProc (Close (Some 1%Z))))
                  (close_message camera0 (Some 1%Z) "") eq_refl eq_refl)).
Defined.

(** C10 as stated fails here. The process fails without output, the
    capture routine and the loop record the failure, and ten seconds
    later the timer of that capture, never cancelled, finds no data and
    records a third entry. *)
Lemma capture_failure_third_entry :
  ¬ failure_costs_two_entries FfmpegChild camera0 (Some "lettuce-diseases") 0
      initial_state [Event (TaskProc (Close (Some 1%Z))); Idle 10000].
Proof.
  intros Htwo. unfold failure_costs_two_entries in Htwo. cbn zeta in Htwo.
  assert (length (systemErrors (tw_state
            (task_run [Event (TaskProc (Close (Some 1%Z))); Idle 10000]
               (task_world_start FfmpegChild camera0 (Some "lettuce-diseases") 0
                  initial_state))))
          = 3) as Hthree by by vm_compute.
  rewrite Htwo in Hthree; [done|]. eexists. by vm_compute.
Qed.

(** Nor does it hold when [spawn] throws: the loop records the failure,
    the capture routine does not, and one entry is all there is. *)
Lemma spawn_failure_single_entry :
  ¬ failure_costs_two_entries (FfmpegThrows "spawn ENOMEM") camera0
      (Some "lettuce-diseases") 0 initial_state [].
Proof.
  intros Htwo. unfold failure_costs_two_entries in Htwo. cbn zeta in Htwo.
  assert (length (systemErrors (tw_state
            (task_run []
               (task_world_start (FfmpegThrows "spawn ENOMEM") camera0
                  (Some "lettuce-diseases") 0 initial_state))))
          = 1) as Hone by by vm_compute.
  rewrite Htwo in Hone; [done|]. eexists. by vm_compute.
Qed.

End CaptureFailure.

(** ** Camera discovery and the model catalog *)

Section Discovery.

Lemma numbered_nil : numbered [].
Proof. by split. Qed.

Lemma numbered_snoc ds d :
  numbered ds →
  id d = N.of_nat (length ds) →
  streamPort d = (20000 + id d)%N →
  streamUrl d = stream_url (20000 + id d) →
  numbered (ds ++ [d]).
Proof.
  intros [Hids Hall] Hid Hport Hurl. split.
  - rewrite fmap_app, length_app, Hids. cbn [length fmap list_fmap].
    rewrite Nat.add_1_r, seq_S, fmap_app. cbn. by rewrite Hid.
  - apply Forall_app. split; [done|]. by apply Forall_singleton.
Qed.

Lemma numbered_linux output : numbered (linux_close output).
Proof.
  unfold linux_close. generalize (v4l2_cameras output). intros cams.
  induction cams as [|cam cams IH] using rev_ind; [apply numbered_nil|].
  rewrite imap_app. cbn [imap]. rewrite Nat.add_0_r.
  apply numbered_snoc; [done| |done|done].
  cbn. by rewrite length_imap.
Qed.

Lemma numbered_windows output : numbered (windows_close output).
Proof.
  unfold windows_close.
  assert (∀ lines st,
            st.1 = N.of_nat (length st.2) → numbered st.2 →
            numbered (foldl dshow_line st lines).2) as Hloop.
  { induction lines as [|line lines IH]; intros [n ds] Hn Hds; [done|].
    cbn [foldl]. apply IH; unfold dshow_line.
    - destruct (_ && _); [|done]. destruct (match_video line); [|done].
      cbn in *. rewrite length_app. cbn. lia.
    - destruct (_ && _); [|done]. destruct (match_video line); [|done].
      cbn in *. by apply numbered_snoc. }
  apply Hloop; [done|apply numbered_nil].
Qed.

Lemma linux_events_numbered events : ∀ st,
  (∀ ds, st.2 = Fulfilled ds → numbered ds) →
  ∀ ds, (foldl linux_event st events).2 = Fulfilled ds → numbered ds.
Proof.
  induction events as [|e events IH]; intros [output p] Hp; [done|].
  cbn [foldl]. apply IH. unfold linux_event.
  destruct p as [|ds0|message]; [| |done]; destruct e; cbn in *; try done.
  - by intros ds [= <-]; apply numbered_linux.
  - by intros ds [= <-]; apply numbered_nil.
Qed.

Lemma windows_events_numbered events : ∀ st,
  (∀ ds, st.2 = Fulfilled ds → numbered ds) →
  ∀ ds, (foldl windows_event st events).2 = Fulfilled ds → numbered ds.
Proof.
  induction events as [|e events IH]; intros [output p] Hp; [done|].
  cbn [foldl]. apply IH. unfold windows_event.
  destruct p as [|ds0|message]; [| |done]; destruct e; cbn in *; try done.
  by intros ds [= <-]; apply numbered_windows.
Qed.

(** C7. Whatever the platform and whatever the probe prints, the
    descriptors that discovery resolves with carry the identifiers
    0, 1, 2, ... in list order, hence distinct and without gaps; the
    stream port of each is 20000 plus its identifier and its stream URL
    is the loopback template over that port. *)
Theorem discovered_cameras_numbered (platform : Platform) (probe : ProbeSpawn)
    (ds : list CameraDescriptor) :
  detectCameras platform probe = Fulfilled ds →
  id <$> ds = N.of_nat <$> seq 0 (length ds) ∧
  NoDup (id <$> ds) ∧
  Forall (λ d, streamPort d = (20000 + id d)%N ∧
               streamUrl d =
                 "http://localhost:" +:+ JsString.of_N (20000 + id d) +:+ "/stream")
         ds.
Proof.
  intros Hdetect.
  assert (numbered ds) as [Hids Hall].
  { destruct platform, probe as [message|events]; cbn in Hdetect;
      try (injection Hdetect as <-; apply numbered_nil).
    - by apply (linux_events_numbered events ("", StillPending)).
    - by apply (windows_events_numbered events ("", StillPending)). }
  split; [done|]. split; [|done].
  rewrite Hids. apply NoDup_fmap; [apply _|apply NoDup_seq].
Qed.

Lemma discovered_cameras_numbered_witness :
  detectCameras Linux (Spawned [ProbeStdout v4l2_listing; ProbeClose]) =
    Fulfilled
      [{| id := 0; name := Some "HD USB Camera (usb-xhci-hcd.0-1)";
          device := Some "/dev/video0"; streamPort := 20000;
          streamUrl := "http://localhost:20000/stream" |};
       {| id := 1; name := Some "Webcam C270 (usb-xhci-hcd.1-2)";
          device := Some "/dev/video2"; streamPort := 20001;
          streamUrl := "http://localhost:20001/stream" |}] ∧
  NoDup [0%N; 1%N].
Proof.
  assert (detectCameras Linux (Spawned [ProbeStdout v4l2_listing; ProbeClose]) =
    Fulfilled
      [{| id := 0; name := Some "HD USB Camera (usb-xhci-hcd.0-1)";
          device := Some "/dev/video0"; streamPort := 20000;
          streamUrl := "http://localhost:20000/stream" |};
       {| id := 1; name := Some "Webcam C270 (usb-xhci-hcd.1-2)";
          device := Some "/dev/video2"; streamPort := 20001;
          streamUrl := "http://localhost:20001/stream" |}]) as Hdetect
    by (vm_compute; reflexivity).
  split; [exact Hdetect|].
  exact (proj1 (proj2 (discovered_cameras_numbered _ _ _ Hdetect))).
Defined.

(** On Linux and on platforms without a probe, discovery never brings
    the process down, and a probe that cannot be started, or that emits
    [error] before anything else, yields no camera. *)
Lemma discovery_linux_best_effort (probe : ProbeSpawn) :
  (∀ message, detectCameras Linux probe ≠ UncaughtException message) ∧
  (∀ message, detectCameras OtherPlatform probe ≠ UncaughtException message) ∧
  detectCameras OtherPlatform probe = Fulfilled [] ∧
  (∀ message, detectCameras Linux (SpawnThrows message) = Fulfilled []) ∧
  (∀ message events,
     detectCameras Linux (Spawned (ProbeError message :: events)) = Fulfilled []) ∧
  (∀ events, detectCameras Linux (Spawned (ProbeClose :: events)) = Fulfilled []).
Proof.
  assert (∀ events st, (∀ m, st.2 ≠ UncaughtException m) →
            ∀ m, (foldl linux_event st events).2 ≠ UncaughtException m) as Hsafe.
  { induction events as [|e events IH]; intros [output p] Hp; [done|].
    cbn [foldl]. apply IH. unfold linux_event.
    destruct p as [|ds0|m0]; [| |done]; by destruct e. }
  assert (∀ events output ds,
            (foldl linux_event (output, Fulfilled ds) events).2 = Fulfilled ds)
    as Hkeep.
  { induction events as [|e events IH]; intros output ds; [done|].
    cbn [foldl]. destruct e; cbn; apply IH. }
  repeat split; try done.
  - destruct probe as [m|events]; cbn; [done|]. by apply Hsafe.
  - intros message events. cbn. apply Hkeep.
  - intros events. cbn. apply Hkeep.
Qed.

(** C6 at the input where it fails. On Windows the child has no [error]
    listener: when ffmpeg cannot be started the [error] event is thrown
    from the event loop, and discovery neither resolves nor rejects. *)
Theorem discovery_windows_probe_missing :
  detectCameras Windows (Spawned [ProbeError "spawn ffmpeg ENOENT"]) =
    UncaughtException "spawn ffmpeg ENOENT" ∧
  detectCameras Linux (Spawned [ProbeError "spawn v4l2-ctl ENOENT"]) =
    Fulfilled [].
Proof. by split. Qed.

End Discovery.

Section Catalog.

Lemma system_step_models s ev :
  currentModels (globals (system_step s ev)) = currentModels (globals s).
Proof.
  assert (ev = Tick ∨ ev ≠ Tick) as [->|Hev] by (destruct ev; auto).
  - destruct (tick_globals s) as [->|(g1 & -> & _ & [(_ & Hm & _) _])]; [done|].
    by rewrite Hm.
  - by destruct (quiet_system_step s ev Hev) as [(_ & Hm & _) _].
Qed.

Lemma system_run_models evs s :
  currentModels (globals (system_run evs s)) = currentModels (globals s).
Proof.
  revert s. unfold system_run. induction evs as [|ev evs IH]; intros s; [done|].
  cbn [foldl]. by rewrite IH, system_step_models.
Qed.

Lemma catalog_url :
  API_MAIN +:+ API_MODEL_LIST_ENDPOINT = "https://vertiapp.xyz/list-models".
Proof. reflexivity. Qed.

(** C8 (as amended). [getModelList] sends one GET request, to the model
    list endpoint of the catalog; when that request fails it returns the
    two built-in identifiers, otherwise the data of the response (an
    empty list when that is falsy). Nothing calls it: whatever the
    catalog would answer, the server rotates over the two identifiers
    written in its source. *)
Theorem model_list_sources :
  (∀ net net' : HttpGet → HttpReply,
     net {| get_url := "https://vertiapp.xyz/list-models" |} =
     net' {| get_url := "https://vertiapp.xyz/list-models" |} →
     getModelList net = getModelList net') ∧
  (∀ net reason,
     net {| get_url := "https://vertiapp.xyz/list-models" |} = RequestFails reason →
     getModelList net = JArray [JString "bacterial-disease"; JString "early-blight"]) ∧
  (∀ net data,
     net {| get_url := "https://vertiapp.xyz/list-models" |} = ReplyData data →
     getModelList net = if truthy data then data else JArray []) ∧
  (∀ detected t0 evs,
     currentModels (globals (system_run evs (initialize detected t0))) =
     ["lettuce-diseases"; "malabar-spinach-training"]).
Proof.
  split; [|split; [|split]].
  - intros net net' Hsame. unfold getModelList. by rewrite catalog_url, Hsame.
  - intros net reason Hfail. unfold getModelList. by rewrite catalog_url, Hfail.
  - intros net data Hdata. unfold getModelList. by rewrite catalog_url, Hdata.
  - intros detected t0 evs. by rewrite system_run_models.
Qed.

Lemma model_list_sources_witness :
  getModelList (λ _, RequestFails "getaddrinfo ENOTFOUND vertiapp.xyz") =
  JArray [JString "bacterial-disease"; JString "early-blight"].
Proof.
  apply (proj1 (proj2 model_list_sources)
           (λ _, RequestFails "getaddrinfo ENOTFOUND vertiapp.xyz")
           "getaddrinfo ENOTFOUND vertiapp.xyz").
  reflexivity.
Defined.

(** C8 as stated fails here. The catalog answers with one model; the
    server still rotates over its own two. *)
Lemma catalog_reply_ignored :
  ¬ models_come_from_catalog (λ _, ReplyData (JArray [JString "tomato-blight"]))
      [camera0] 0 [Tick].
Proof. unfold models_come_from_catalog. vm_compute. discriminate. Qed.

End Catalog.

(** ** Invariants of a running server *)

Section Threading.

Context {S A : Type} (I : S → Prop) (J : S → A → Prop) (le : S → S → Prop).
Hypothesis le_refl : ∀ s, le s s.
Hypothesis le_trans : ∀ s1 s2 s3, le s1 s2 → le s2 s3 → le s1 s3.
Hypothesis J_stable : ∀ s s' a, le s s' → J s a → J s' a.

Lemma thread_inv (f : S * A → S * A) :
  (∀ s a, I s → J s a →
          I (f (s, a)).1 ∧ J (f (s, a)).1 (f (s, a)).2 ∧ le s (f (s, a)).1) →
  ∀ l s, I s → Forall (J s) l →
         I (thread f s l).1 ∧ Forall (J (thread f s l).1) (thread f s l).2 ∧
         le s (thread f s l).1.
Proof.
  intros Hf l. induction l as [|a l IH]; intros s HI HJ; cbn; [by auto|].
  apply Forall_cons in HJ as [Ha Hl].
  destruct (Hf s a HI Ha) as (HI1 & Ha1 & Hle1).
  destruct (f (s, a)) as [s1 a']. cbn in *.
  destruct (IH s1 HI1) as (HI2 & Hl2 & Hle2).
  { eapply Forall_impl; [exact Hl|]. intros b. by apply J_stable. }
  destruct (thread f s1 l) as [s2 l']. cbn in *.
  split; [done|]. split; [|by eapply le_trans].
  apply Forall_cons. split; [by eapply J_stable|done].
Qed.

Lemma thread_at_inv (k : nat) (f : S * A → S * A) :
  (∀ s a, I s → J s a →
          I (f (s, a)).1 ∧ J (f (s, a)).1 (f (s, a)).2 ∧ le s (f (s, a)).1) →
  ∀ l s, I s → Forall (J s) l →
         I (thread_at k f s l).1 ∧
         Forall (J (thread_at k f s l).1) (thread_at k f s l).2 ∧
         le s (thread_at k f s l).1.
Proof.
  intros Hf l s HI HJ. unfold thread_at.
  destruct (l !! k) as [a|] eqn:Hk; [|by auto].
  pose proof (Forall_lookup_1 _ _ _ _ HJ Hk) as Ha.
  destruct (Hf s a HI Ha) as (HI1 & Ha1 & Hle1).
  destruct (f (s, a)) as [s1 a']. cbn in *.
  split; [done|]. split; [|done].
  apply Forall_insert; [|done].
  eapply Forall_impl; [exact HJ|]. intros b. by apply J_stable.
Qed.

End Threading.

Section Records.

#[local] Arguments base64 : simpl never.
#[local] Arguments fire_timer : simpl never.
#[local] Arguments deliver : simpl never.
#[local] Arguments resume : simpl never.
#[local] Arguments sendPrediction : simpl never.
#[local] Arguments addSystemError : simpl never.
#[local] Arguments commitPredictions : simpl never.

Variable cams : list CameraDescriptor.

Lemma data_url_nonempty frame : data_url frame ≠ "".
Proof. unfold data_url. cbn. discriminate. Qed.

Lemma newest_first_take n es : newest_first es → newest_first (take n es).
Proof.
  unfold newest_first. intros Hs. revert n.
  induction Hs as [|e es Hs IH Hall]; intros [|n]; cbn; try constructor.
  - apply IH.
  - by apply Forall_take.
Qed.

Lemma keeps_image_refl g : keeps_image g g.
Proof. by intros ?. Qed.

Lemma keeps_image_trans g1 g2 g3 :
  keeps_image g1 g2 → keeps_image g2 g3 → keeps_image g1 g3.
Proof. unfold keeps_image. auto. Qed.

Lemma prediction_ok_mono now now' p :
  (now ≤ now')%N → prediction_ok cams now p → prediction_ok cams now' p.
Proof. intros Hle [? ? ? ? ?]. split; try done. lia. Qed.

Lemma globals_ok_mono now now' g :
  (now ≤ now')%N → globals_ok cams now g → globals_ok cams now' g.
Proof.
  intros Hle [? ? ? Herr ? Hpred ? ?]. split; try done.
  - eapply Forall_impl; [exact Herr|]. intros e [? ?]. split; [done|lia].
  - eapply Forall_impl; [exact Hpred|]. intros p. by apply prediction_ok_mono.
Qed.

Lemma task_ok_mono now now' g t :
  (now ≤ now')%N → task_ok cams now g t → task_ok cams now' g t.
Proof.
  intros Hle [? ? ? ? Hdone]. split; try done.
  intros p Hp. destruct (Hdone p Hp). split; [|done].
  by eapply prediction_ok_mono.
Qed.

Lemma task_ok_stable now g g' t :
  keeps_image g g' → task_ok cams now g t → task_ok cams now g' t.
Proof.
  intros Hkeep [? ? ? ? Hdone]. split; try done.
  intros p Hp. destruct (Hdone p Hp). split; [done|]. by apply Hkeep.
Qed.

Lemma addSystemError_ok now g camera message :
  globals_ok cams now g → camera ∈ cams →
  globals_ok cams now (addSystemError (id camera) message now g) ∧
  imageBase (addSystemError (id camera) message now g) = imageBase g.
Proof.
  intros [Hc Hm Hi Herr Hsort Hpred Himg Hlat] Hcam.
  destruct (addSystemError_others (id camera) message now g)
    as (Hc' & Hm' & Hi' & Hp' & Himg').
  split; [|done].
  split; rewrite ?Hc', ?Hm', ?Hi', ?Hp', ?Himg', ?addSystemError_errors; try done.
  - apply Forall_take, Forall_cons. split; [|done].
    split; cbn; [by exists camera|lia].
  - apply newest_first_take. constructor; [done|].
    eapply Forall_impl; [exact Herr|]. by intros e [_ ?].
Qed.

Lemma deliver_ok e now g j :
  globals_ok cams now g → job_camera j ∈ cams →
  (∀ buf, promise j = Resolved buf → buf ≠ []) →
  globals_ok cams now (deliver e now (g, j)).1 ∧
  imageBase (deliver e now (g, j)).1 = imageBase g ∧
  job_camera (deliver e now (g, j)).2 = job_camera j ∧
  (∀ buf, promise (deliver e now (g, j)).2 = Resolved buf → buf ≠ []).
Proof.
  intros Hg Hcam Hres. unfold deliver. destruct (proc_closed j); [done|].
  destruct e as [chunk|text|code|message]; cbn; try done.
  - unfold on_close. destruct (_ && _ && _) eqn:Hgood; cbn.
    + split; [done|]. split; [done|]. split; [done|]. intros buf.
      destruct (promise j) eqn:Hp; cbn; [|by apply Hres|done].
      intros [= <-]. apply andb_prop in Hgood as [_ Hlen]. cbn in Hlen.
      intros Hnil. by rewrite Hnil in Hlen.
    + destruct (addSystemError_ok now g (job_camera j)
                  (close_message (job_camera j) code (stderrOutput j)) Hg Hcam)
        as [Hg' Himg].
      split; [done|]. split; [done|]. split; [done|]. intros buf.
      destruct (promise j) eqn:Hp; cbn; [done|by apply Hres|done].
  - destruct (addSystemError_ok now g (job_camera j)
                (error_message (job_camera j) message) Hg Hcam) as [Hg' Himg].
    split; [done|]. split; [done|]. split; [done|]. intros buf.
    destruct (promise j) eqn:Hp; cbn; [done|by apply Hres|done].
Qed.

Lemma fire_timer_ok now g j :
  globals_ok cams now g → job_camera j ∈ cams →
  (∀ buf, promise j = Resolved buf → buf ≠ []) →
  globals_ok cams now (fire_timer now (g, j)).1 ∧
  imageBase (fire_timer now (g, j)).1 = imageBase g ∧
  job_camera (fire_timer now (g, j)).2 = job_camera j ∧
  (∀ buf, promise (fire_timer now (g, j)).2 = Resolved buf → buf ≠ []).
Proof.
  intros Hg Hcam Hres. unfold fire_timer. destruct (firedAt j); [done|].
  destruct (armedAt j) as [armed|]; [|done].
  destruct (_ <=? _)%N; [|done]. unfold on_timeout. cbn.
  destruct (negb (hasData j)); cbn; [|done].
  destruct (addSystemError_ok now g (job_camera j)
              (timeout_message (job_camera j)) Hg Hcam) as [Hg' Himg].
  split; [done|]. split; [done|]. split; [done|]. intros buf.
  destruct (promise j) eqn:Hp; cbn; [done|by apply Hres|done].
Qed.

Lemma resume_ok now g t :
  globals_ok cams now g → task_ok cams now g t →
  globals_ok cams now (resume now (g, t)).1 ∧
  task_ok cams now (resume now (g, t)).1 (resume now (g, t)).2 ∧
  keeps_image g (resume now (g, t)).1.
Proof.
  intros Hg Ht. pose proof Ht as [Hcam Hmodel Hframe Hdisp Hdone]. unfold resume.
  destruct (task_phase t) eqn:Hphase; cbn;
    try (split; [done|]; split; [done|apply keeps_image_refl]).
  destruct (promise (task_job t)) as [|frame|message] eqn:Hp; cbn.
  - split; [done|]. split; [done|apply keeps_image_refl].
  - split; [done|]. split; [|apply keeps_image_refl].
    split; cbn; rewrite ?Hp; try done. intros ? [= <-]. by apply Hframe.
  - destruct (addSystemError_ok now g (job_camera (task_job t))
                (capture_failed_message (job_camera (task_job t)) message) Hg Hcam)
      as [Hg' Himg].
    split; [done|]. split; [|by intros ?; rewrite Himg].
    by split; cbn; rewrite ?Hp.
Qed.

(** What a dispatch that returns a prediction has seen and done. *)
Lemma sendPrediction_returns camera frame currentModel net now g p :
  (sendPrediction camera frame currentModel net now g).2 = Returns (Some p) →
  (∃ status, net = FetchResponds true status (Some (result p))) ∧
  no_error_field (result p) ∧
  cameraId p = id camera ∧ model p = currentModel ∧ timestamp p = now ∧
  image p = data_url frame ∧
  (sendPrediction camera frame currentModel net now g).1 =
    set_imageBase (data_url frame) g.
Proof.
  unfold sendPrediction, sendPrediction_try.
  destruct net as [reason|[] status [body|]]; cbn; try done.
  destruct (get_property body "error") as [[field|]|] eqn:Hget; cbn; try done.
  - destruct (truthy field) eqn:Htruthy; cbn; [done|].
    intros [= <-]. cbn. repeat split; try done; eauto.
    right. by exists field.
  - intros [= <-]. cbn. repeat split; try done; eauto. by left.
Qed.

Lemma sendPrediction_other camera frame currentModel net now g :
  (∀ p, (sendPrediction camera frame currentModel net now g).2 ≠ Returns (Some p)) →
  sendPrediction camera frame currentModel net now g = (g, Returns None).
Proof.
  unfold sendPrediction, sendPrediction_try.
  destruct net as [reason|[] status [body|]]; cbn; try done.
  destruct (get_property body "error") as [[field|]|]; cbn; try done.
  all: try destruct (truthy field); cbn; try done.
  all: intros Hnot; by edestruct Hnot.
Qed.

Lemma set_imageBase_ok now g frame :
  frame ≠ [] → globals_ok cams now g →
  globals_ok cams now (set_imageBase (data_url frame) g).
Proof.
  intros Hframe [? ? ? ? ? ? ? ?]. split; cbn; try done.
  right. by exists frame.
Qed.

Lemma task_step_ok e now g t :
  globals_ok cams now g → task_ok cams now g t →
  globals_ok cams now (task_step e now (g, t)).1 ∧
  task_ok cams now (task_step e now (g, t)).1 (task_step e now (g, t)).2 ∧
  keeps_image g (task_step e now (g, t)).1.
Proof.
  intros Hg Ht. pose proof Ht as [Hcam Hmodel Hframe Hdisp Hdone].
  unfold task_step. destruct e as [e|net].
  - destruct (deliver_ok e now g (task_job t) Hg Hcam Hframe)
      as (Hg1 & Himg1 & Hcam1 & Hframe1).
    destruct (deliver e now (g, task_job t)) as [g1 j1]. cbn in *.
    destruct (resume_ok now g1
      {| task_job := j1; task_model := task_model t; task_phase := task_phase t |}
      Hg1) as (Hg2 & Ht2 & Hkeep).
    { split; cbn; rewrite ?Hcam1; try done.
      intros p Hp. destruct (Hdone p Hp). by rewrite Himg1. }
    split; [done|]. split; [done|].
    intros Hne. apply Hkeep. by rewrite Himg1.
  - destruct (task_phase t) as [|frame|outcome] eqn:Hphase;
      try (split; [done|]; split; [done|apply keeps_image_refl]).
    pose proof (Hdisp frame eq_refl) as Hne.
    destruct (sendPrediction (job_camera (task_job t)) frame (task_model t) net
                now g) as [g1 [[p|]|message]] eqn:Hsend; cbn.
    + pose proof (sendPrediction_returns (job_camera (task_job t)) frame
                    (task_model t) net now g p) as Hret.
      rewrite Hsend in Hret. cbn in Hret.
      destruct (Hret eq_refl) as (_ & Hres & Hid & Hm & Hts & Himg & ->).
      split; [by apply set_imageBase_ok|]. split.
      * split; cbn; try done. intros ? [= <-]. split; [|apply data_url_nonempty].
        split; try done.
        -- by exists (job_camera (task_job t)).
        -- by rewrite Hm.
        -- lia.
        -- by exists frame.
      * intros _. apply data_url_nonempty.
    + pose proof (sendPrediction_other (job_camera (task_job t)) frame
                    (task_model t) net now g) as Hother.
      rewrite Hsend in Hother. cbn in Hother.
      assert (g1 = g) as -> by (by injection (Hother ltac:(done))).
      split; [done|]. split; [by split|apply keeps_image_refl].
    + exfalso. revert Hsend. unfold sendPrediction.
      by destruct (sendPrediction_try _ _ _ _ _ _) as [?|[? ?]].
Qed.

Lemma task_timer_ok now g t :
  globals_ok cams now g → task_ok cams now g t →
  globals_ok cams now (task_timer now (g, t)).1 ∧
  task_ok cams now (task_timer now (g, t)).1 (task_timer now (g, t)).2 ∧
  keeps_image g (task_timer now (g, t)).1.
Proof.
  intros Hg [Hcam Hmodel Hframe Hdisp Hdone]. unfold task_timer.
  destruct (fire_timer_ok now g (task_job t) Hg Hcam Hframe)
    as (Hg1 & Himg1 & Hcam1 & Hframe1).
  destruct (fire_timer now (g, task_job t)) as [g1 j1]. cbn in *.
  destruct (resume_ok now g1
    {| task_job := j1; task_model := task_model t; task_phase := task_phase t |}
    Hg1) as (Hg2 & Ht2 & Hkeep).
  { split; cbn; rewrite ?Hcam1; try done.
    intros p Hp. destruct (Hdone p Hp). by rewrite Himg1. }
  split; [done|]. split; [done|].
  intros Hne. apply Hkeep. by rewrite Himg1.
Qed.

End Records.

Section SystemInvariant.

#[local] Arguments base64 : simpl never.
#[local] Arguments task_step : simpl never.
#[local] Arguments task_timer : simpl never.
#[local] Arguments try_commit : simpl never.
#[local] Arguments commitPredictions : simpl never.
#[local] Arguments cycle_timers : simpl never.
#[local] Arguments cycle_event : simpl never.

Variable cams : list CameraDescriptor.

Lemma finished_outcomes ts p :
  p ∈ non_null (task_outcome <$> ts) →
  ∃ t, t ∈ ts ∧ task_phase t = Finished (Some p).
Proof.
  unfold non_null. intros (o & Ho & Hp)%list_elem_of_omap. subst o.
  apply list_elem_of_fmap in Ho as (t & Ht & Hin). exists t. split; [done|].
  unfold task_outcome in Ht. by destruct (task_phase t) as [| |[q|]]; simplify_eq.
Qed.

Lemma try_commit_ok now g c :
  globals_ok cams now g → Forall (task_ok cams now g) (cycle_tasks c) →
  globals_ok cams now (try_commit (g, c)).1 ∧
  Forall (task_ok cams now (try_commit (g, c)).1) (cycle_tasks (try_commit (g, c)).2) ∧
  keeps_image g (try_commit (g, c)).1.
Proof.
  intros Hg Hts. unfold try_commit.
  destruct (cycle_committed c); [by auto using keeps_image_refl|].
  destruct (forallb _ _); [|by auto using keeps_image_refl]. cbn.
  destruct (commitPredictions_others (task_outcome <$> cycle_tasks c) g)
    as (Hc & Hm & Hi & He & Himg).
  assert (keeps_image g (commitPredictions (task_outcome <$> cycle_tasks c) g))
    as Hkeep by (by intros ?; rewrite Himg).
  split; [|split; [|done]].
  - destruct Hg as [Gc Gm Gi Gerr Gsort Gpred Gimg Glat].
    split; rewrite ?Hc, ?Hm, ?Hi, ?He, ?Himg, ?commitPredictions_predictions;
      try done.
    + apply Forall_take, Forall_app. split; [|done].
      apply Forall_forall. intros p (t & Hin & Hphase)%finished_outcomes.
      by destruct (tk_done _ _ _ _ (proj1 (Forall_forall _ _) Hts t Hin) p Hphase).
    + destruct (non_null (task_outcome <$> cycle_tasks c)) as [|p ps] eqn:Hnew.
      * cbn. intros Hne. apply Glat. intros Hnil. by rewrite Hnil in Hne.
      * intros _. assert (p ∈ non_null (task_outcome <$> cycle_tasks c)) as Hp
          by (rewrite Hnew; left).
        apply finished_outcomes in Hp as (t & Hin & Hphase).
        by destruct (tk_done _ _ _ _ (proj1 (Forall_forall _ _) Hts t Hin) p Hphase).
  - eapply Forall_impl; [exact Hts|]. intros t. by apply task_ok_stable.
Qed.

Lemma cycle_ok_stable now g g' c :
  keeps_image g g' → cycle_ok cams now g c → cycle_ok cams now g' c.
Proof.
  intros Hkeep Hc. eapply Forall_impl; [exact Hc|]. intros t.
  by apply task_ok_stable.
Qed.

Lemma cycle_timers_ok now g c :
  globals_ok cams now g → cycle_ok cams now g c →
  globals_ok cams now (cycle_timers now (g, c)).1 ∧
  cycle_ok cams now (cycle_timers now (g, c)).1 (cycle_timers now (g, c)).2 ∧
  keeps_image g (cycle_timers now (g, c)).1.
Proof.
  intros Hg Hc. unfold cycle_timers.
  destruct (thread_inv (globals_ok cams now) (task_ok cams now) keeps_image
              keeps_image_refl keeps_image_trans (task_ok_stable cams now)
              (task_timer now) (λ g t, task_timer_ok cams now g t)
              (cycle_tasks c) g Hg Hc) as (Hg1 & Hts1 & Hkeep1).
  destruct (thread _ _ _) as [g1 ts1]. cbn in *.
  destruct (try_commit_ok now g1 (with_tasks ts1 c) Hg1 Hts1) as (Hg2 & Hts2 & Hkeep2).
  split; [done|]. split; [done|by eapply keeps_image_trans].
Qed.

Lemma cycle_event_ok cam e now g c :
  globals_ok cams now g → cycle_ok cams now g c →
  globals_ok cams now (cycle_event cam e now (g, c)).1 ∧
  cycle_ok cams now (cycle_event cam e now (g, c)).1 (cycle_event cam e now (g, c)).2 ∧
  keeps_image g (cycle_event cam e now (g, c)).1.
Proof.
  intros Hg Hc. unfold cycle_event.
  destruct (thread_at_inv (globals_ok cams now) (task_ok cams now) keeps_image
              keeps_image_refl (task_ok_stable cams now) cam
              (task_step e now) (λ g t, task_step_ok cams e now g t)
              (cycle_tasks c) g Hg Hc) as (Hg1 & Hts1 & Hkeep1).
  destruct (thread_at _ _ _ _) as [g1 ts1]. cbn in *.
  destruct (try_commit_ok now g1 (with_tasks ts1 c) Hg1 Hts1) as (Hg2 & Hts2 & Hkeep2).
  split; [done|]. split; [done|by eapply keeps_image_trans].
Qed.

Lemma cycle_resume_ok now g c :
  globals_ok cams now g → cycle_ok cams now g c →
  globals_ok cams now (cycle_resume now (g, c)).1 ∧
  cycle_ok cams now (cycle_resume now (g, c)).1 (cycle_resume now (g, c)).2 ∧
  keeps_image g (cycle_resume now (g, c)).1.
Proof.
  intros Hg Hc. unfold cycle_resume.
  destruct (thread_inv (globals_ok cams now) (task_ok cams now) keeps_image
              keeps_image_refl keeps_image_trans (task_ok_stable cams now)
              (resume now) (λ g t, resume_ok cams now g t)
              (cycle_tasks c) g Hg Hc) as (Hg1 & Hts1 & Hkeep1).
  destruct (thread _ _ _) as [g1 ts1]. cbn in *.
  destruct (try_commit_ok now g1 (with_tasks ts1 c) Hg1 Hts1) as (Hg2 & Hts2 & Hkeep2).
  split; [done|]. split; [done|by eapply keeps_image_trans].
Qed.

Lemma task_start_ok spawn now g camera m :
  camera ∈ cams → m ∈ currentModels initial_state →
  task_ok cams now g (task_start spawn (Some m) now camera).
Proof.
  intros Hcam Hm. split; cbn; try done.
  - by destruct spawn.
  - by exists m.
  - by destruct spawn.
Qed.

Lemma system_step_ok s ev : system_ok cams s → system_ok cams (system_step s ev).
Proof.
  intros [Hg Hcs]. destruct ev as [|dt|c k e|faults]; cbn; [| | |done].
  - destruct (intervalArmed s); [|by split]. unfold predictionLoop.
    destruct (_ || _); [by split; cbn; rewrite ?app_nil_r|].
    destruct (lookup_lt_is_Some_2 _ _ (gk_cursor _ _ _ Hg)) as [m Hm].
    assert (m ∈ currentModels initial_state) as Hin.
    { rewrite <-(gk_models _ _ _ Hg). by eapply list_elem_of_lookup_2. }
    match goal with
    | |- context [cycle_resume ?now (?g, ?c)] =>
        assert (globals_ok cams now g) as Hg1;
        [|assert (cycle_ok cams now g c) as Hc1;
          [|destruct (cycle_resume_ok now g c Hg1 Hc1) as (Hg2 & Hc2 & Hkeep);
            destruct (cycle_resume now (g, c)) as [g2 c2]]]
    end.
    + destruct Hg as [Gc Gm Gi Gerr Gsort Gpred Gimg Glat].
      split; cbn; try done.
      apply Nat.mod_upper_bound. intros Hzero. rewrite Hzero in Gi. lia.
    + unfold cycle_ok. cbn. rewrite Hm. apply Forall_forall.
      intros t (i & camera & -> & Hlook)%elem_of_lookup_imap.
      apply task_start_ok; [|done].
      rewrite <-(gk_cameras _ _ _ Hg). by eapply list_elem_of_lookup_2.
    + cbn in *. split; [done|]. apply Forall_app. split; [|by apply Forall_singleton].
      eapply Forall_impl; [exact Hcs|]. intros c Hc.
      eapply Forall_impl; [exact Hc|]. intros t.
      apply task_ok_stable. intros Hne. by apply Hkeep.
  - assert (clock s ≤ clock s + dt)%N as Hle by lia.
    pose proof (globals_ok_mono cams _ _ _ Hle Hg) as Hg'.
    assert (Forall (cycle_ok cams (clock s + dt) (globals s)) (cycles s)) as Hcs'.
    { eapply Forall_impl; [exact Hcs|]. intros c Hc.
      eapply Forall_impl; [exact Hc|]. intros t. by apply task_ok_mono. }
    destruct (thread_inv (globals_ok cams (clock s + dt)) (cycle_ok cams (clock s + dt))
                keeps_image keeps_image_refl keeps_image_trans
                (cycle_ok_stable (clock s + dt))
                (cycle_timers (clock s + dt))
                (λ g c, cycle_timers_ok (clock s + dt) g c)
                (cycles s) (globals s) Hg' Hcs') as (Hg1 & Hcs1 & _).
    by destruct (thread _ _ _).
  - destruct (thread_at_inv (globals_ok cams (clock s)) (cycle_ok cams (clock s))
                keeps_image keeps_image_refl (cycle_ok_stable (clock s)) c
                (cycle_event k e (clock s))
                (λ g c, cycle_event_ok k e (clock s) g c)
                (cycles s) (globals s) Hg Hcs) as (Hg1 & Hcs1 & _).
    by destruct (thread_at _ _ _ _).
Qed.

Lemma system_run_ok evs s : system_ok cams s → system_ok cams (system_run evs s).
Proof.
  revert s. unfold system_run. induction evs as [|ev evs IH]; intros s Hs; [done|].
  cbn [foldl]. by apply IH, system_step_ok.
Qed.

End SystemInvariant.

Lemma initialize_ok detected t0 : system_ok detected (initialize detected t0).
Proof.
  split; [|by constructor]. split; cbn; try done; try by constructor.
  all: try lia. all: by left.
Qed.

Lemma reachable_ok detected t0 evs :
  system_ok detected (system_run evs (initialize detected t0)).
Proof. apply system_run_ok, initialize_ok. Qed.

Section HistoryOrder.



End HistoryOrder.

Section ServerRecords.


(** X2. In every state the server can reach, each record of the
    prediction history carries the identifier of a detected camera and
    one of the configured models, and each entry of the error history
    carries the identifier of a detected camera. *)
Theorem histories_refer_to_cameras_and_models (detected : list CameraDescriptor)
    (t0 : N) (evs : list SystemEvent) :
  let g := globals (system_run evs (initialize detected t0)) in
  Forall (λ p, (∃ camera, camera ∈ detected ∧ cameraId p = id camera) ∧
               (∃ m, model p = Some m ∧ m ∈ currentModels g))
         (predictions g) ∧
  Forall (λ e, ∃ camera, camera ∈ detected ∧ err_cameraId e = id camera)
         (systemErrors g).
Proof.
  intros g. destruct (reachable_ok detected t0 evs) as [Hg _]. fold g in Hg.
  split.
  - eapply Forall_impl; [apply (gk_predictions _ _ _ Hg)|].
    intros p [? ? _ _ _]. by rewrite (gk_models _ _ _ Hg).
  - eapply Forall_impl; [apply (gk_errors _ _ _ Hg)|]. by intros e [? _].
Qed.


(** X4. [GET /api/image] leaves the request unanswered or answers with
    the data URL of a frame of at least one byte; it answers whenever
    the prediction history holds a record, and leaves the request
    unanswered when the server has just started. *)
Theorem api_image_answers (detected : list CameraDescriptor) (t0 : N)
    (evs : list SystemEvent) :
  let g := globals (system_run evs (initialize detected t0)) in
  (api_image g = None ∨
   ∃ frame, frame ≠ [] ∧
            api_image g = Some ("data:image/jpeg;base64," +:+ base64 frame)) ∧
  (predictions g ≠ [] → api_image g ≠ None) ∧
  api_image (globals (initialize detected t0)) = None.
Proof.
  intros g. destruct (reachable_ok detected t0 evs) as [Hg _]. fold g in Hg.
  unfold api_image, nonempty. split; [|split; [|done]].
  - destruct (gk_image _ _ _ Hg) as [->|(frame & Hne & ->)]; [by left|right].
    by exists frame.
  - intros Hp. pose proof (gk_latest _ _ _ Hg Hp) as Himg.
    destruct (String.eqb_spec (imageBase g) ""); by cbn.
Qed.

(** X5. In every state the server can reach, [GET /api/status] reports
    the number of detected cameras, the model under the rotation cursor
    (never [null]) and a prediction count of at most 100; when the
    scheduler runs, the reported model is the one the next tick
    selects. *)
Theorem api_status_consistent (detected : list CameraDescriptor) (t0 : N)
    (evs : list SystemEvent) (uptime : N) :
  let s := system_run evs (initialize detected t0) in
  let st := api_status uptime (globals s) in
  status_cameras st = length detected ∧
  status_models st = ["lettuce-diseases"; "malabar-spinach-training"] ∧
  (∃ m, status_currentModel st = Some m ∧ m ∈ status_models st) ∧
  status_totalPredictions st ≤ 100 ∧
  (intervalArmed s = true →
   last (cycle_model <$> cycles (system_step s Tick)) =
   Some (status_currentModel st)).
Proof.
  intros s st. destruct (reachable_ok detected t0 evs) as [Hg _]. fold s in Hg.
  destruct Hg as [Gc Gm Gi _ _ _ _ _].
  destruct (lookup_lt_is_Some_2 _ _ Gi) as [m Hm].
  assert (m ∈ currentModels initial_state) as Hin.
  { rewrite Gm in Hm. exact (list_elem_of_lookup_2 _ _ _ Hm). }
  assert (nonempty m = true) as Hne.
  { cbn in Hin. apply elem_of_cons in Hin as [->|Hin]; [done|].
    apply elem_of_cons in Hin as [->|Hin]; [done|]. by apply elem_of_nil in Hin. }
  assert (status_currentModel st = Some m) as Hcur.
  { unfold st, api_status. cbn. by rewrite Hm, Hne. }
  split; [by cbn; rewrite Gc|]. split; [exact Gm|]. split; [|split].
  - exists m. split; [done|]. cbn. by rewrite Gm.
  - apply (system_run_caps evs (initialize detected t0)), initialize_caps.
  - intros Harm. pose proof (initialize_ready detected t0 evs Harm) as Hready.
    fold s in Hready. destruct (tick_rotation s Hready) as (_ & _ & _ & Hlog & _).
    unfold models_log in Hlog. rewrite Hlog, last_snoc, Hcur. by rewrite Hm.
Qed.

(** X6. When discovery found no camera, nothing that happens later
    changes the module variables or starts a cycle: both histories stay
    empty and the rotation cursor stays at the first model. *)
Theorem no_camera_no_activity (t0 : N) (evs : list SystemEvent) :
  let s := system_run evs (initialize [] t0) in
  globals s = set_cameras [] initial_state ∧ cycles s = [] ∧
  intervalArmed s = false.
Proof.
  assert (∀ s, cycles s = [] → intervalArmed s = false →
               let s' := system_run evs s in
               globals s' = globals s ∧ cycles s' = [] ∧ intervalArmed s' = false)
    as Hidle.
  { unfold system_run. induction evs as [|ev evs IH]; intros s Hc Ha; [done|].
    cbn [foldl].
    assert (globals (system_step s ev) = globals s ∧
            cycles (system_step s ev) = [] ∧
            intervalArmed (system_step s ev) = false) as (Hg' & Hc' & Ha').
    { by destruct ev as [|dt|c k e|faults]; cbn; rewrite ?Ha, ?Hc. }
    destruct (IH _ Hc' Ha') as (? & ? & ?). by rewrite <-Hg'. }
  intros s. by destruct (Hidle (initialize [] t0) eq_refl eq_refl) as (? & ? & ?).
Qed.

End ServerRecords.

(** ** Read endpoints *)

Section Endpoints.

Lemma uint_accum_pos d : ∀ p, uint_accum (Npos p) d = Npos (Pos.of_uint_acc d p).
Proof.
  induction d as [|d IH|d IH|d IH|d IH|d IH|d IH|d IH|d IH|d IH|d IH];
    intros p; cbn [uint_accum Pos.of_uint_acc]; [done|..];
    rewrite <-IH; f_equal; lia.
Qed.

Lemma uint_accum_zero d : uint_accum 0 d = N.of_uint d.
Proof.
  unfold N.of_uint.
  induction d as [|d IH|d IH|d IH|d IH|d IH|d IH|d IH|d IH|d IH|d IH];
    cbn [uint_accum Pos.of_uint]; [done|exact IH|..];
    by rewrite <-uint_accum_pos.
Qed.

Lemma append_cons c s rest : String c s +:+ rest = String c (s +:+ rest).
Proof. reflexivity. Qed.

Lemma leading_digits_uint d : ∀ acc seen rest,
  no_leading_digit rest →
  leading_digits acc seen (NilEmpty.string_of_uint d +:+ rest) =
  (uint_accum acc d,
   match d with Decimal.Nil => seen | _ => true end).
Proof.
  induction d as [|d IH|d IH|d IH|d IH|d IH|d IH|d IH|d IH|d IH|d IH];
    intros acc seen rest Hrest; cbn [NilEmpty.string_of_uint uint_accum].
  1: { change ("" +:+ rest) with rest. destruct rest as [|c rest]; [done|].
       cbn [leading_digits]. cbn [no_leading_digit] in Hrest. by rewrite Hrest. }
  all: rewrite append_cons; cbn [leading_digits];
    match goal with
    | |- context [digit_value ?c] =>
        let v := eval vm_compute in (digit_value c) in
        change (digit_value c) with v
    end; cbv iota; rewrite IH by done; by destruct d.
Qed.

Lemma to_uint_nonnil n : N.to_uint n ≠ Decimal.Nil.
Proof. destruct n as [|p]; [done|]. apply Unsigned.to_uint_nonnil. Qed.

Lemma parseInt10_digit_first c s :
  is_Some (digit_value c) →
  parseInt10 (String c s) =
  match leading_digits 0 false (String c s) with
  | (_, false) => NotANumber
  | (n, true) =>
      if (n <=? 9007199254740992)%N then Integer (Z.of_N n) else Beyond
  end.
Proof.
  intros [v Hv]. unfold parseInt10.
  destruct c as [[] [] [] [] [] [] [] []]; try done.
Qed.

(** [parseInt] reads back what the template literal printed, whatever
    follows the digits. *)
Lemma parseInt10_of_N n rest :
  (n ≤ 9007199254740992)%N → no_leading_digit rest →
  parseInt10 (JsString.of_N n +:+ rest) = Integer (Z.of_N n).
Proof.
  intros Hn Hrest. unfold JsString.of_N, NilZero.string_of_uint.
  pose proof (to_uint_nonnil n) as Hnil.
  pose proof (DecimalN.Unsigned.of_to n) as Hof.
  assert (NilEmpty.string_of_uint (N.to_uint n) +:+ rest =
          match N.to_uint n with
          | Decimal.Nil => "0"
          | _ => NilEmpty.string_of_uint (N.to_uint n)
          end +:+ rest) as <- by (by destruct (N.to_uint n)).
  assert (∃ c s, NilEmpty.string_of_uint (N.to_uint n) +:+ rest = String c s ∧
                 is_Some (digit_value c)) as (c & s & Heq & Hc).
  { destruct (N.to_uint n); [done|..]; cbn; eauto. }
  rewrite Heq, parseInt10_digit_first, <-Heq by done.
  rewrite leading_digits_uint, uint_accum_zero, Hof by done.
  destruct (N.to_uint n); [done|..]; by apply N.leb_le in Hn as ->.
Qed.

(** X7. [GET /api/predictions/camera/:id] reads its parameter as
    [parseInt] does.  A parameter that is the decimal form of a camera
    number, followed by anything that does not begin with a digit (white
    space, a sign, letters, nothing), is answered with the records of
    that camera, in history order; the trailing text alone, when it
    begins with no white space or sign either, is answered with status
    400. *)
Theorem api_predictions_camera_by_number (n : N) (rest : string)
    (g : ServerState) :
  (n ≤ 9007199254740992)%N → no_leading_digit rest →
  api_predictions_camera (JsString.of_N n +:+ rest) g =
    Json (List.filter (λ p, (cameraId p =? n)%N) (predictions g)) ∧
  (plain_start rest →
   api_predictions_camera rest g = Status400 "Invalid camera id").
Proof.
  intros Hn Hrest. split; [|intros Hplain].
  - unfold api_predictions_camera. rewrite parseInt10_of_N by done. f_equal.
    apply List.filter_ext. intros p. cbn.
    destruct (N.eqb_spec (cameraId p) n) as [->|Hne]; [apply Z.eqb_refl|].
    apply Z.eqb_neq. lia.
  - destruct rest as [|c s]; [done|].
    destruct Hplain as (Hspace & Hminus & Hplus).
    unfold api_predictions_camera, parseInt10.
    cbn [JsString.trimStart]. rewrite Hspace. cbn [no_leading_digit] in Hrest.
    assert (leading_digits 0 false (String c s) = (0%N, false)) as Hlead
      by (cbn [leading_digits]; by rewrite Hrest).
    destruct c as [[] [] [] [] [] [] [] []]; try done; by rewrite Hlead.
Qed.

Lemma api_predictions_camera_by_number_witness :
  api_predictions_camera "1-2"
    (set_predictions [sample 0 10; sample 1 20; sample 0 30; sample 1 5]
       initial_state)
  = Json [sample 1 20; sample 1 5].
Proof.
  apply (api_predictions_camera_by_number 1 "-2").
  - by vm_compute.
  - reflexivity.
Defined.

(** X8. What discovery resolved with is what [GET /api/cameras] serves,
    unchanged, in every state the server reaches afterwards. *)
Theorem api_cameras_serves_discovery (platform : Platform) (probe : ProbeSpawn)
    (ds : list CameraDescriptor) (t0 : N) (evs : list SystemEvent) :
  detectCameras platform probe = Fulfilled ds →
  api_cameras (globals (system_run evs (initialize ds t0))) = ds.
Proof.
  intros Hdetect.
  assert (numbered ds) as [_ Hall].
  { destruct platform, probe as [message|events]; cbn in Hdetect;
      try (injection Hdetect as <-; apply numbered_nil).
    - by apply (linux_events_numbered events ("", StillPending)).
    - by apply (windows_events_numbered events ("", StillPending)). }
  destruct (reachable_ok ds t0 evs) as [Hg _].
  unfold api_cameras. rewrite (gk_cameras _ _ _ Hg).
  clear Hdetect Hg. induction Hall as [|d ds [Hport Hurl] Hall IH]; [done|].
  rewrite fmap_cons. f_equal; [|exact IH].
  destruct d as [i n dev port url]. cbn in *. f_equal.
  destruct (nonempty url); [done|]. by rewrite Hport, Hurl.
Qed.

Lemma api_cameras_serves_discovery_witness :
  api_cameras (globals (system_run [Tick; Elapse 2000]
    (initialize (linux_close v4l2_listing) 0))) = linux_close v4l2_listing.
Proof.
  apply (api_cameras_serves_discovery Linux
           (Spawned [ProbeStdout v4l2_listing; ProbeClose])).
  reflexivity.
Defined.

End Endpoints.

(** ** Probe listings and probe events *)

Section DiscoveryParsing.

Lemma append_nil_r (s : string) : s +:+ "" = s.
Proof. induction s as [|c s IH]; [done|]. by rewrite !append_cons, IH. Qed.

Lemma append_assoc (s t u : string) : (s +:+ t) +:+ u = s +:+ (t +:+ u).
Proof. induction s as [|c s IH]; [done|]. by rewrite !append_cons, IH. Qed.

Lemma v4l2_line_devices st line :
  Forall (λ cam, ∃ dev, v4l2_devices cam = [dev] ∧ video_path dev) st.1 →
  (∀ cam, st.2 = Some cam → v4l2_devices cam = []) →
  Forall (λ cam, ∃ dev, v4l2_devices cam = [dev] ∧ video_path dev)
    (v4l2_line st line).1 ∧
  (∀ cam, (v4l2_line st line).2 = Some cam → v4l2_devices cam = []).
Proof.
  destruct st as [cams cur]. cbn [fst snd]. intros Hcams Hcur.
  unfold v4l2_line. set (trimmedLine := JsString.trim line).
  destruct (JsString.includes "pispbe" trimmedLine) eqn:H1; [done|].
  destruct (JsString.includes "rpivid" trimmedLine) eqn:H2; [done|].
  destruct (JsString.includes "/dev/media" trimmedLine) eqn:H3; [done|].
  cbn [orb].
  destruct (_ && _ && _); [by split; [|intros cam [= <-]]|].
  destruct (JsString.startsWith "/dev/video" trimmedLine) eqn:H4; [|done].
  destruct cur as [cam|]; [|done].
  rewrite (Hcur cam eq_refl). cbn [length Nat.eqb app fst snd].
  split; [|done]. apply Forall_app. split; [done|].
  apply Forall_singleton. by exists trimmedLine.
Qed.

Lemma v4l2_lines_devices lines : ∀ st,
  Forall (λ cam, ∃ dev, v4l2_devices cam = [dev] ∧ video_path dev) st.1 →
  (∀ cam, st.2 = Some cam → v4l2_devices cam = []) →
  Forall (λ cam, ∃ dev, v4l2_devices cam = [dev] ∧ video_path dev)
    (foldl v4l2_line st lines).1.
Proof.
  induction lines as [|line lines IH]; intros st Hcams Hcur; [done|].
  cbn [foldl]. destruct (v4l2_line_devices st line Hcams Hcur). by apply IH.
Qed.

(** X9. Every camera the Linux branch reports has a name and a device,
    and the device begins with [/dev/video] and mentions none of the
    excluded words. *)
Theorem linux_cameras_have_video_device (output : string) (d : CameraDescriptor) :
  d ∈ linux_close output →
  (∃ nm, name d = Some nm) ∧ ∃ dev, device d = Some dev ∧ video_path dev.
Proof.
  intros (i & cam & -> & Hcam)%elem_of_lookup_imap_1.
  split; [by eexists|].
  assert (Forall (λ cam, ∃ dev, v4l2_devices cam = [dev] ∧ video_path dev)
            (v4l2_cameras output)) as Hall
    by (by apply v4l2_lines_devices).
  rewrite Forall_lookup in Hall. destruct (Hall i cam Hcam) as (dev & Hdev & Hok).
  exists dev. cbn. by rewrite Hdev.
Qed.

Lemma linux_cameras_have_video_device_witness :
  (∃ nm, name camera0 = Some nm) ∧
  ∃ dev, device camera0 = Some dev ∧ video_path dev.
Proof.
  apply (linux_cameras_have_video_device v4l2_listing camera0).
  by vm_compute; left.
Defined.

Lemma break_at_run c s :
  JsString.includes (String c "") (JsString.break_at c s).1 = false.
Proof.
  induction s as [|d s IH]; [done|]. cbn [JsString.break_at].
  destruct (Ascii.eqb_spec c d) as [->|Hne]; [done|].
  destruct (JsString.break_at c s) as [a b]. cbn [fst] in *.
  cbn [JsString.includes]. rewrite IH, orb_false_r.
  unfold JsString.startsWith. cbn [String.prefix].
  by destruct (ascii_dec c d).
Qed.

Lemma match_video_name line dn : match_video line = Some dn → dshow_name dn.
Proof.
  induction line as [|c line IH].
  - done.
  - cbn [match_video].
    destruct (JsString.startsWith _ (String c line)); [|exact IH].
    pose proof (break_at_run JsString.dquote (JsString.drop 3 (String c line)))
      as Hrun.
    destruct (JsString.break_at _ _) as [run rest]. cbn [fst] in Hrun.
    destruct (0 <? String.length run) eqn:Hlen; cbn [andb]; [|exact IH].
    destruct (JsString.startsWith _ rest); [|exact IH].
    intros [= <-]. split; [|done]. intros ->. by cbn in Hlen.
Qed.

Lemma dshow_lines_names lines : ∀ st,
  Forall (λ d, name d = None ∧ ∃ dn, device d = Some dn ∧ dshow_name dn) st.2 →
  Forall (λ d, name d = None ∧ ∃ dn, device d = Some dn ∧ dshow_name dn)
    (foldl dshow_line st lines).2.
Proof.
  induction lines as [|line lines IH]; intros [k ds] Hds; [done|].
  cbn [foldl]. apply IH. unfold dshow_line.
  destruct (_ && _); [|done].
  destruct (match_video line) as [dn|] eqn:Hm; [|done].
  cbn [snd] in *. apply Forall_app. split; [done|]. apply Forall_singleton.
  split; [done|]. exists dn. split; [done|]. by apply (match_video_name line).
Qed.

(** X10. Every camera the Windows branch reports has no name of its own
    and a device name that is neither empty nor holds a double quote. *)
Theorem windows_cameras_have_device_name (output : string)
    (d : CameraDescriptor) :
  d ∈ windows_close output →
  name d = None ∧ ∃ dn, device d = Some dn ∧ dshow_name dn.
Proof.
  intros Hd.
  assert (Forall (λ d, name d = None ∧ ∃ dn, device d = Some dn ∧ dshow_name dn)
            (windows_close output)) as Hall
    by (by apply dshow_lines_names).
  rewrite Forall_forall in Hall. by apply Hall.
Qed.

Lemma windows_cameras_have_device_name_witness :
  name camera_dshow = None ∧
  ∃ dn, device camera_dshow = Some dn ∧ dshow_name dn.
Proof.
  apply (windows_cameras_have_device_name dshow_listing camera_dshow).
  by vm_compute; left.
Defined.

End DiscoveryParsing.

Section DiscoveryEvents.

Lemma linux_data pre : ∀ output,
  forallb is_data pre = true →
  foldl linux_event (output, StillPending) pre
  = (output +:+ stdout_text pre, StillPending).
Proof.
  induction pre as [|e pre IH]; intros output Hpre; cbn [foldl stdout_text].
  - by rewrite append_nil_r.
  - cbn [forallb] in Hpre. apply andb_prop in Hpre as [He Hpre].
    destruct e; try done; cbn [linux_event]; rewrite IH by done;
      by rewrite ?append_assoc.
Qed.

Lemma windows_data pre : ∀ output,
  forallb is_data pre = true →
  foldl windows_event (output, StillPending) pre
  = (output +:+ stderr_text pre, StillPending).
Proof.
  induction pre as [|e pre IH]; intros output Hpre; cbn [foldl stderr_text].
  - by rewrite append_nil_r.
  - cbn [forallb] in Hpre. apply andb_prop in Hpre as [He Hpre].
    destruct e; try done; cbn [windows_event]; rewrite IH by done;
      by rewrite ?append_assoc.
Qed.

Lemma linux_settled post : ∀ output ds,
  (foldl linux_event (output, Fulfilled ds) post).2 = Fulfilled ds.
Proof.
  induction post as [|e post IH]; intros output ds; [done|].
  cbn [foldl]. destruct e; cbn [linux_event resolve_with]; apply IH.
Qed.

Lemma windows_settled post : ∀ output ds,
  existsb is_error post = false →
  (foldl windows_event (output, Fulfilled ds) post).2 = Fulfilled ds.
Proof.
  induction post as [|e post IH]; intros output ds Hpost; [done|].
  cbn [foldl]. cbn [existsb] in Hpost. apply orb_false_elim in Hpost as [He Hpost].
  destruct e; try done; cbn [windows_event resolve_with]; by apply IH.
Qed.

(** X11. The Linux probe: output chunks are joined in the order they
    arrive and standard error is ignored; the first [close] settles
    discovery with the parse of what standard output has carried so far,
    the first [error] settles it with no camera, and nothing that comes
    later changes the answer.  Until one of the two arrives discovery
    stays pending. *)
Theorem discovery_linux_settles_once (pre post : list ProbeEvent)
    (message : string) :
  forallb is_data pre = true →
  detectCameras Linux (Spawned pre) = StillPending ∧
  detectCameras Linux (Spawned (pre ++ ProbeClose :: post))
    = Fulfilled (linux_close (stdout_text pre)) ∧
  detectCameras Linux (Spawned (pre ++ ProbeError message :: post))
    = Fulfilled [].
Proof.
  intros Hpre. unfold detectCameras.
  rewrite !foldl_app, linux_data by done. cbn [foldl linux_event resolve_with].
  by rewrite !linux_settled.
Qed.

Lemma discovery_linux_settles_once_witness :
  detectCameras Linux (Spawned [ProbeStdout "HD USB Camera (usb-1):";
                                ProbeStderr "warning"]) = StillPending ∧
  detectCameras Linux
    (Spawned ([ProbeStdout "HD USB Camera (usb-1):"; ProbeStderr "warning"]
              ++ ProbeClose :: [ProbeStdout "late"; ProbeError "gone"]))
    = Fulfilled (linux_close "HD USB Camera (usb-1):") ∧
  detectCameras Linux
    (Spawned ([ProbeStdout "HD USB Camera (usb-1):"; ProbeStderr "warning"]
              ++ ProbeError "ENOENT" :: [ProbeStdout "late"; ProbeError "gone"]))
    = Fulfilled [].
Proof.
  apply (discovery_linux_settles_once
           [ProbeStdout "HD USB Camera (usb-1):"; ProbeStderr "warning"]
           [ProbeStdout "late"; ProbeError "gone"] "ENOENT").
  reflexivity.
Defined.

(** X12. The Windows probe: chunks of standard error are joined in the
    order they arrive and standard output is ignored; the first [close]
    settles discovery with the parse of what standard error has carried
    so far, provided no [error] event follows.  Until [close] arrives
    discovery stays pending. *)
Theorem discovery_windows_settles_once (pre post : list ProbeEvent) :
  forallb is_data pre = true → existsb is_error post = false →
  detectCameras Windows (Spawned pre) = StillPending ∧
  detectCameras Windows (Spawned (pre ++ ProbeClose :: post))
    = Fulfilled (windows_close (stderr_text pre)).
Proof.
  intros Hpre Hpost. unfold detectCameras.
  rewrite !foldl_app, windows_data by done. cbn [foldl windows_event resolve_with].
  by rewrite windows_settled.
Qed.

Lemma discovery_windows_settles_once_witness :
  detectCameras Windows (Spawned [ProbeStderr "[dshow] "; ProbeStdout "x"])
    = StillPending ∧
  detectCameras Windows
    (Spawned ([ProbeStderr "[dshow] "; ProbeStdout "x"]
              ++ ProbeClose :: [ProbeStderr "late"; ProbeClose]))
    = Fulfilled (windows_close "[dshow] ").
Proof.
  apply (discovery_windows_settles_once
           [ProbeStderr "[dshow] "; ProbeStdout "x"] [ProbeStderr "late"; ProbeClose]);
    reflexivity.
Defined.

End DiscoveryEvents.

(** ** Signals and deadlines of a capture *)

Section CaptureSignals.

Lemma capture_step_signals camera t0 w ev :
  job_ok camera t0 w →
  (∀ buf, promise (cw_job w) = Resolved buf → hasData (cw_job w) = true) →
  (kills (cw_job w) = [] ∨
   kills (cw_job w) = ["SIGTERM"] ∧ ∃ m, promise (cw_job w) = Rejected m) →
  let w' := capture_step w ev in
  (∀ buf, promise (cw_job w') = Resolved buf → hasData (cw_job w') = true) ∧
  (kills (cw_job w') = [] ∨
   kills (cw_job w') = ["SIGTERM"] ∧ ∃ m, promise (cw_job w') = Rejected m).
Proof.
  intros Hok Hres Hk. destruct w as [g now j]. cbn [cw_job] in *.
  destruct ev as [dt|e]; cbn [capture_step cw_state cw_now cw_job].
  - unfold fire_timer. destruct (firedAt j) eqn:Hf; [done|].
    destruct (armedAt j) as [armed|]; [|done].
    destruct (ok_not_fired _ _ _ Hok Hf) as [_ Hnil]. cbn [cw_job] in Hnil.
    destruct (_ <=? _)%N; [|done]. unfold on_timeout. cbn [hasData with_fired].
    destruct (hasData j) eqn:Hd; cbn [negb cw_job].
    + by split; [|left].
    + cbn. rewrite Hnil. split.
      * intros buf Hp. destruct (promise j) eqn:Hpj; cbn in Hp; try done.
        by specialize (Hres _ eq_refl).
      * right. split; [done|]. destruct (promise j) eqn:Hpj; cbn; eauto.
        by specialize (Hres _ eq_refl).
  - unfold deliver. destruct (proc_closed j); [done|].
    destruct e as [chunk|text|code|message]; cbn [cw_job].
    + done.
    + done.
    + unfold on_close. cbn [hasData imageBuffer with_closed].
      destruct (code_is_zero code && hasData j && _) eqn:Hc; cbn.
      * apply andb_prop in Hc as [[_ Hd]%andb_prop _]. split.
        -- done.
        -- destruct Hk as [Hk|[Hk [m Hm]]]; [by left|right].
           split; [done|]. exists m. by rewrite Hm.
      * split.
        -- intros buf Hp. destruct (promise j) eqn:Hpj; cbn in Hp; try done.
           by eapply Hres.
        -- destruct Hk as [Hk|[Hk [m Hm]]]; [by left|right].
           split; [done|]. exists m. by rewrite Hm.
    + unfold on_error. cbn. split.
      * intros buf Hp. destruct (promise j) eqn:Hpj; cbn in Hp; try done.
        by eapply Hres.
      * destruct Hk as [Hk|[Hk [m Hm]]]; [by left|right].
        split; [done|]. exists m. by rewrite Hm.
Qed.

Lemma capture_run_signals camera t0 g evs :
  let j := cw_job (capture_run evs (capture_start camera t0 g)) in
  (∀ buf, promise j = Resolved buf → hasData j = true) ∧
  (kills j = [] ∨ kills j = ["SIGTERM"] ∧ ∃ m, promise j = Rejected m).
Proof.
  induction evs as [|ev evs IH] using rev_ind; [by split; [|left]|].
  rewrite capture_run_snoc. destruct IH as [Hres Hk].
  by apply (capture_step_signals camera t0); [apply job_ok_run| |].
Qed.

Lemma capture_step_settled w ev :
  promise (cw_job w) ≠ Pending →
  promise (cw_job (capture_step w ev)) = promise (cw_job w).
Proof.
  intros Hp. destruct w as [g now j]. cbn [cw_job] in *.
  destruct ev as [dt|e]; cbn [capture_step cw_state cw_now cw_job].
  - unfold fire_timer. destruct (firedAt j); [done|].
    destruct (armedAt j) as [armed|]; [|done].
    destruct (_ <=? _)%N; [|done]. unfold on_timeout. cbn [hasData with_fired].
    destruct (hasData j); cbn; [done|]. by destruct (promise j).
  - unfold deliver. destruct (proc_closed j); [done|].
    destruct e as [chunk|text|code|message]; cbn; try done.
    + unfold on_close. destruct (_ && _ && _); cbn; by destruct (promise j).
    + by destruct (promise j).
Qed.

Lemma capture_run_settled evs : ∀ w,
  promise (cw_job w) ≠ Pending →
  promise (cw_job (capture_run evs w)) = promise (cw_job w).
Proof.
  induction evs as [|ev evs IH]; intros w Hp; [done|].
  cbn [capture_run foldl]. fold (capture_run evs (capture_step w ev)).
  rewrite IH; rewrite capture_step_settled; done.
Qed.

(** X13. ffmpeg is signalled at most once, with SIGTERM, and only in a
    capture that is rejected; a capture that resolved was never
    signalled.  Once the promise is settled nothing that happens later
    changes it. *)
Theorem capture_signals_once (camera : CameraDescriptor) (t0 : N)
    (g : ServerState) (evs : list CaptureEvent) :
  let j := cw_job (capture_run evs (capture_start camera t0 g)) in
  (kills j = [] ∨ kills j = ["SIGTERM"] ∧ ∃ m, promise j = Rejected m) ∧
  (∀ buf, promise j = Resolved buf → kills j = []) ∧
  (∀ later, promise j ≠ Pending →
     capture_promise camera t0 g (evs ++ later) = promise j).
Proof.
  destruct (capture_run_signals camera t0 g evs) as [_ Hk]. cbn zeta in *.
  split; [done|]. split.
  - intros buf Hp. destruct Hk as [Hk|[_ [m Hm]]]; [done|congruence].
  - intros later Hp. unfold capture_promise.
    by rewrite capture_run_app, capture_run_settled.
Qed.

Lemma firedAt_step w ev t :
  firedAt (cw_job w) = Some t → firedAt (cw_job (capture_step w ev)) = Some t.
Proof.
  intros Hf. destruct w as [g now j]. cbn [cw_job] in *.
  destruct ev as [dt|e]; cbn [capture_step cw_state cw_now cw_job].
  - unfold fire_timer. by rewrite Hf.
  - unfold deliver. destruct (proc_closed j); [done|].
    destruct e as [chunk|text|code|message]; cbn; try done.
    unfold on_close. by destruct (_ && _ && _).
Qed.

Lemma before_deadline camera t0 g evs :
  let w := capture_run evs (capture_start camera t0 g) in
  (cw_now w < t0 + CAPTURE_TIMEOUT_MS)%N →
  firedAt (cw_job w) = None ∧ kills (cw_job w) = [] ∧
  (stays_open evs → proc_closed (cw_job w) = false) ∧
  (keeps_running evs → promise (cw_job w) = Pending).
Proof.
  cbn zeta. intros Hnow.
  pose proof (job_ok_run camera t0 g evs) as Hok.
  assert (firedAt (cw_job (capture_run evs (capture_start camera t0 g))) = None)
    as Hf.
  { destruct (firedAt _) as [t|] eqn:Hf; [|done].
    destruct (ok_fired _ _ _ Hok t Hf). lia. }
  split; [done|]. split; [by apply (ok_not_fired _ _ _ Hok)|].
  clear Hnow Hok. revert Hf. unfold stays_open, keeps_running.
  induction evs as [|ev evs IH] using rev_ind; [done|].
  rewrite capture_run_snoc.
  set (w := capture_run evs (capture_start camera t0 g)) in *. intros Hf.
  assert (firedAt (cw_job w) = None) as Hf0.
  { destruct (firedAt (cw_job w)) as [t|] eqn:Hf0; [|done].
    by rewrite (firedAt_step w ev t Hf0) in Hf. }
  destruct (IH Hf0) as [IHopen IHrun]. clear IH.
  destruct w as [g' now j]. cbn [cw_job] in *.
  destruct ev as [dt|e]; cbn [capture_step cw_state cw_now cw_job] in *.
  - unfold fire_timer in *. rewrite Hf0 in *.
    destruct (armedAt j) as [armed|]; [destruct (_ <=? _)%N|].
    + exfalso. unfold on_timeout in Hf. cbn [hasData with_fired] in Hf.
      by destruct (hasData j).
    + split.
      * intros H. apply Forall_app in H as [H _]. auto.
      * intros H. apply Forall_app in H as [H _]. auto.
    + split.
      * intros H. apply Forall_app in H as [H _]. auto.
      * intros H. apply Forall_app in H as [H _]. auto.
  - unfold deliver in *. split.
    + intros [H Hev%Forall_inv]%Forall_app. rewrite (IHopen H).
      destruct e; try done; cbn; auto.
    + intros [H Hev%Forall_inv]%Forall_app.
      assert (Forall (λ ev, match ev with
                            | Proc (Close _) => False
                            | _ => True
                            end) evs) as Hopen
        by (eapply Forall_impl; [exact H|]; by intros [|[]]).
      rewrite (IHopen Hopen). destruct e; try done; cbn; auto.
Qed.

Lemma with_output_step w ev :
  hasData (cw_job w) = true → kills (cw_job w) = [] →
  let w' := capture_step w ev in
  hasData (cw_job w') = true ∧ kills (cw_job w') = [] ∧
  (match ev with
   | Proc (Close _) | Proc (SpawnError _) => False
   | _ => True
   end → promise (cw_job w') = promise (cw_job w)).
Proof.
  intros Hd Hk. destruct w as [g now j]. cbn [cw_job] in *.
  destruct ev as [dt|e]; cbn [capture_step cw_state cw_now cw_job].
  - unfold fire_timer. destruct (firedAt j); [done|].
    destruct (armedAt j) as [armed|]; [|done].
    destruct (_ <=? _)%N; [|done]. unfold on_timeout. cbn [hasData with_fired].
    by rewrite Hd.
  - unfold deliver. destruct (proc_closed j); [done|].
    destruct e as [chunk|text|code|message]; cbn; try done.
    unfold on_close. by destruct (_ && _ && _).
Qed.

Lemma with_output_run evs : ∀ w,
  hasData (cw_job w) = true → kills (cw_job w) = [] →
  let w' := capture_run evs w in
  kills (cw_job w') = [] ∧
  (keeps_running evs → promise (cw_job w') = promise (cw_job w)).
Proof.
  induction evs as [|ev evs IH]; intros w Hd Hk; [done|].
  cbn [capture_run foldl]. fold (capture_run evs (capture_step w ev)).
  destruct (with_output_step w ev Hd Hk) as (Hd' & Hk' & Hp').
  destruct (IH _ Hd' Hk') as [IHk IHp]. split; [done|].
  unfold keeps_running. intros [Hev Hevs]%Forall_cons. rewrite IHp by done. by apply Hp'.
Qed.

(** X14. A capture whose process writes to its standard output before
    the deadline, while it is open, has no time limit from then on:
    ffmpeg is never signalled, and as long as the process neither closes
    nor reports an error the capture stays pending, however much time
    passes. *)
Theorem capture_with_output_has_no_deadline (camera : CameraDescriptor)
    (t0 : N) (g : ServerState) (pre post : list CaptureEvent) (chunk : Buffer) :
  (cw_now (capture_run pre (capture_start camera t0 g)) < t0 + 10000)%N →
  stays_open pre →
  let w := capture_run (pre ++ Proc (StdoutData chunk) :: post)
             (capture_start camera t0 g) in
  kills (cw_job w) = [] ∧
  (keeps_running pre → keeps_running post → promise (cw_job w) = Pending).
Proof.
  intros Hnow Hopen.
  destruct (before_deadline camera t0 g pre Hnow) as (Hf & Hk & Hcl & Hp).
  cbn zeta. rewrite capture_run_app. cbn [capture_run foldl].
  set (w := capture_run pre (capture_start camera t0 g)) in *.
  fold (capture_run post (capture_step w (Proc (StdoutData chunk)))).
  assert (hasData (cw_job (capture_step w (Proc (StdoutData chunk)))) = true ∧
          kills (cw_job (capture_step w (Proc (StdoutData chunk)))) = [] ∧
          promise (cw_job (capture_step w (Proc (StdoutData chunk))))
            = promise (cw_job w)) as (Hd' & Hk' & Hp').
  { specialize (Hcl Hopen). destruct w as [g' now j]. cbn in *.
    unfold deliver. by rewrite Hcl. }
  destruct (with_output_run post _ Hd' Hk') as [Hkills Hpending].
  split; [done|]. intros Hpre Hpost. rewrite Hpending, Hp' by done. by apply Hp.
Qed.

Lemma capture_with_output_has_no_deadline_witness :
  let w := capture_run ([Wait 9999] ++ Proc (StdoutData [Byte.xff])
                          :: [Wait 3600000; Proc (StderrData "frame=1")])
             (capture_start camera0 0 initial_state) in
  kills (cw_job w) = [] ∧ promise (cw_job w) = Pending.
Proof.
  assert (stays_open [Wait 9999]) as Hopen by (by repeat constructor).
  assert (keeps_running [Wait 9999]) as Hpre by (by repeat constructor).
  assert (keeps_running [Wait 3600000; Proc (StderrData "frame=1")]) as Hpost
    by (by repeat constructor).
  assert (cw_now (capture_run [Wait 9999] (capture_start camera0 0 initial_state))
          < 0 + 10000)%N as Hnow by (by vm_compute).
  destruct (capture_with_output_has_no_deadline camera0 0 initial_state
              [Wait 9999] [Wait 3600000; Proc (StderrData "frame=1")]
              [Byte.xff] Hnow Hopen) as [Hk Hp].
  split; [exact Hk|exact (Hp Hpre Hpost)].
Defined.

End CaptureSignals.

(** ** The update script *)

Section SelfUpdateProperties.
Import SelfUpdate SelfUpdateSpec.

Lemma attempts_from_spec host remaining : ∀ i,
  let '(found, probes, sleeps) := attempts_from host i remaining in
  probes ≤ remaining ∧
  (∀ k, k < (if found then probes - 1 else probes) →
        hasInternet (https_get host (i + k)) = false) ∧
  if found
  then 1 ≤ probes ∧ hasInternet (https_get host (i + (probes - 1))) = true ∧
       sleeps = probes - 1
  else probes = remaining ∧ sleeps = remaining.
Proof.
  induction remaining as [|remaining IH]; intros i; cbn [attempts_from].
  - split; [done|]. split; [|done]. intros k Hk. lia.
  - destruct (hasInternet (https_get host i)) eqn:Hi.
    + split; [lia|]. split; [intros k Hk; lia|].
      cbn. by rewrite Nat.add_0_r.
    + specialize (IH (S i)).
      destruct (attempts_from host (S i) remaining) as [[found probes] sleeps].
      destruct IH as (Hle & Hbefore & Hat). split; [lia|]. split.
      * intros k Hk. destruct k as [|k]; [by rewrite Nat.add_0_r|].
        replace (i + S k) with (S i + k) by lia. apply Hbefore.
        destruct found; lia.
      * destruct found.
        -- destruct Hat as (H1 & Hat & ->). split; [lia|]. split; [|lia].
           replace (i + (S probes - 1)) with (S i + (probes - 1)) by lia. done.
        -- destruct Hat as [-> ->]. done.
Qed.

(** X15. [waitForInternet] probes until the first response, of whatever
    status, and sleeps one second after each probe that got none: it
    answers [true] at the first attempt that gets a response, having
    slept once per earlier attempt, and [false] after exactly 60 failed
    attempts and 60 sleeps.  Without a connection [selfUpdate] runs no
    command and asks nothing. *)
Theorem waitForInternet_first_response (host : Host) :
  let '(found, probes, sleeps) := waitForInternet host in
  (∀ i, 1 ≤ i < (if found then probes else 61) →
        hasInternet (https_get host i) = false) ∧
  (if found
   then 1 ≤ probes ≤ 60 ∧ hasInternet (https_get host probes) = true ∧
        sleeps = probes - 1
   else probes = 60 ∧ sleeps = 60 ∧
        selfUpdate host =
          {| ending := NoInternet; commands := []; prompted := false |}).
Proof.
  pose proof (attempts_from_spec host maxAttempts 1) as Hspec.
  unfold selfUpdate, waitForInternet.
  destruct (attempts_from host 1 maxAttempts) as [[found probes] sleeps].
  destruct Hspec as (Hle & Hbefore & Hat). unfold maxAttempts in *. split.
  - intros i Hi. replace i with (1 + (i - 1)) by lia. apply Hbefore.
    destruct found; [lia|]. destruct Hat as [-> _]. lia.
  - destruct found.
    + destruct Hat as (H1 & Hat & ->). split; [lia|]. split; [|done].
      by replace (1 + (probes - 1)) with probes in Hat by lia.
    + by destruct Hat as [-> ->].
Qed.

Lemma not_destructive_branch :
  destructive "git rev-parse --abbrev-ref HEAD" = false.
Proof. reflexivity. Qed.

Lemma not_destructive_status : destructive "git status --porcelain" = false.
Proof. reflexivity. Qed.

Lemma not_destructive_log branch :
  destructive ("git log origin/" +:+ branch +:+ "..HEAD --oneline") = false.
Proof. reflexivity. Qed.

Lemma checkForLocalChanges_log host log :
  ∃ ran, (checkForLocalChanges host log).2 = log ++ ran ∧
         existsb destructive ran = false.
Proof.
  unfold checkForLocalChanges, run.
  destruct (execAsync host log _) as [statusOutput|message].
  - destruct (nonblank statusOutput).
    + by exists ["git status --porcelain"].
    + destruct (execAsync host (log ++ _) _) as [branch|message].
      * destruct (execAsync host ((log ++ _) ++ _) _) as [unpushed|message];
          exists ["git status --porcelain"; "git rev-parse --abbrev-ref HEAD";
                  "git log origin/" +:+ JsString.trim branch +:+ "..HEAD --oneline"];
          (split; [by rewrite <-!app_assoc|]); cbn [existsb];
          by rewrite not_destructive_status, not_destructive_branch,
               not_destructive_log.
      * exists ["git status --porcelain"; "git rev-parse --abbrev-ref HEAD"].
        split; [by rewrite <-!app_assoc|done].
    - by exists ["git status --porcelain"].
Qed.


(** X17. When the check for local changes cannot be made, the update
    goes ahead unasked: with a connection, a fetch and a branch name,
    a failing [git status] makes [selfUpdate] run [git reset --hard]
    on the branch without a prompt. *)
Theorem selfUpdate_unchecked_goes_ahead (host : Host) (out branch message : string) :
  (waitForInternet host).1.1 = true →
  execAsync host [] "git fetch origin" = ExecOk out →
  execAsync host ["git fetch origin"] "git rev-parse --abbrev-ref HEAD"
    = ExecOk branch →
  execAsync host fetched "git status --porcelain" = ExecFails message →
  let report := selfUpdate host in
  prompted report = false ∧
  ("git reset --hard origin/" +:+ JsString.trim branch) ∈ commands report ∧
  ∃ later, commands report =
    fetched ++ ["git status --porcelain";
                "git reset --hard origin/" +:+ JsString.trim branch] ++ later.
Proof.
  intros Hnet Hfetch Hbranch Hstatus. cbn zeta.
  remember (selfUpdate host) as report eqn:Hr.
  unfold selfUpdate, checkForLocalChanges, run in Hr. cbn [app] in Hr.
  rewrite Hnet, Hfetch, Hbranch in Hr. cbn [negb] in Hr. fold fetched in Hr.
  rewrite Hstatus in Hr.
  repeat destruct (execAsync _ _ _); subst report; cbn [prompted commands];
    (split; [done|]); (split; [set_solver|]); eexists;
    rewrite <-?app_assoc; cbn [app]; reflexivity.
Qed.

Lemma selfUpdate_unchecked_goes_ahead_witness :
  let report := selfUpdate broken_status_host in
  prompted report = false ∧
  ("git reset --hard origin/" +:+ JsString.trim ("main" +:+ String JsString.newline ""))
    ∈ commands report ∧
  ∃ later, commands report =
    fetched ++ ["git status --porcelain";
                "git reset --hard origin/"
                +:+ JsString.trim ("main" +:+ String JsString.newline "")] ++ later.
Proof.
  apply (selfUpdate_unchecked_goes_ahead broken_status_host ""
           ("main" +:+ String JsString.newline "") "not a git repository");
    reflexivity.
Defined.

End SelfUpdateProperties.

(** ** The dashboard components *)

Section Frontend.
Import CameraGrid PredictionLog.

Lemma latestByCamera_first_latest ps c :
  latestByCamera ps !! c =
  first_latest (List.filter (λ p, (cameraId p =? c)%N) ps).
Proof.
  induction ps as [|p ps IH] using rev_ind; [done|].
  rewrite latestByCamera_snoc, List.filter_app. cbn [List.filter].
  unfold latest_visit. destruct (N.eqb_spec (cameraId p) c) as [Hc|Hc].
  - unfold first_latest in *. rewrite foldl_snoc, <-IH, Hc.
    destruct (latestByCamera ps !! c) as [seen|] eqn:Hseen;
      [destruct (_ <? _)%N|]; by rewrite ?lookup_insert_eq.
  - rewrite app_nil_r, <-IH.
    destruct (latestByCamera ps !! cameraId p);
      [destruct (_ <? _)%N|]; by rewrite ?lookup_insert_ne.
Qed.

Lemma head_sort_insert {A} (compare : A → A → Z) x l :
  head (sort_insert compare x l) =
  match head l with
  | None => Some x
  | Some y => if (compare x y <=? 0)%Z then Some x else Some y
  end.
Proof. destruct l as [|y l]; [done|]. cbn. by destruct (_ <=? _)%Z. Qed.

Lemma first_latest_from best l :
  foldl (λ best p, match best with
                   | None => Some p
                   | Some seen => if (timestamp seen <? timestamp p)%N
                                  then Some p else Some seen
                   end) (Some best) l =
  match head (sort (λ a b, (Z.of_N (timestamp b) - Z.of_N (timestamp a))%Z) l) with
  | None => Some best
  | Some r => if (timestamp best <? timestamp r)%N then Some r else Some best
  end.
Proof.
  revert best. induction l as [|p l IH]; intros best; [done|].
  cbn [foldl sort foldr]. fold (sort (λ a b : Prediction,
    (Z.of_N (timestamp b) - Z.of_N (timestamp a))%Z) l).
  rewrite head_sort_insert.
  destruct (N.ltb_spec (timestamp best) (timestamp p)) as [Hlt|Hge];
    rewrite IH; destruct (head (sort _ l)) as [r|]; try done.
  - destruct (Z.leb_spec (Z.of_N (timestamp r) - Z.of_N (timestamp p)) 0);
      destruct (N.ltb_spec (timestamp p) (timestamp r));
      destruct (N.ltb_spec (timestamp best) (timestamp r));
      destruct (N.ltb_spec (timestamp best) (timestamp p)); done || lia.
  - by destruct (N.ltb_spec (timestamp best) (timestamp p)); [|lia].
  - destruct (Z.leb_spec (Z.of_N (timestamp r) - Z.of_N (timestamp p)) 0);
      destruct (N.ltb_spec (timestamp best) (timestamp r));
      destruct (N.ltb_spec (timestamp best) (timestamp p)); done || lia.
  - by destruct (N.ltb_spec (timestamp best) (timestamp p)); [lia|].
Qed.

Lemma first_latest_head_sort l :
  first_latest l =
  head (sort (λ a b, (Z.of_N (timestamp b) - Z.of_N (timestamp a))%Z) l).
Proof.
  destruct l as [|p l]; [done|]. unfold first_latest. cbn [foldl sort foldr].
  rewrite first_latest_from, head_sort_insert.
  fold (sort (λ a b : Prediction,
    (Z.of_N (timestamp b) - Z.of_N (timestamp a))%Z) l).
  destruct (head (sort _ l)) as [r|]; [|done].
  destruct (Z.leb_spec (Z.of_N (timestamp r) - Z.of_N (timestamp p)) 0);
    destruct (N.ltb_spec (timestamp p) (timestamp r)); done || lia.
Qed.

(** X18. For every camera the grid picks, from the predictions it is
    given, the record that the server's [latestByCamera] holds for that
    camera: filtering, sorting by time, newest first, and taking the
    head finds the first of the camera's records that none exceeds in
    time, as the server's one pass does. *)
Theorem grid_latest_is_server_latest (predictions : list Prediction) (camera : N) :
  getLatestPrediction predictions camera = latestByCamera predictions !! camera.
Proof.
  unfold getLatestPrediction.
  by rewrite latestByCamera_first_latest, first_latest_head_sort.
Qed.

Lemma same_entry_key a b :
  same_entry a b = true ↔
  (cameraId a, model a, timestamp a) = (cameraId b, model b, timestamp b).
Proof.
  unfold same_entry. rewrite !andb_true_iff, bool_decide_eq_true, !N.eqb_eq.
  split; [by intros [[-> ->] ->]|by intros [= -> -> ->]].
Qed.

Lemma shown_iff shown pred :
  existsb (λ displayed, same_entry displayed pred) shown = true ↔
  (cameraId pred, model pred, timestamp pred)
    ∈ (λ p, (cameraId p, model p, timestamp p)) <$> shown.
Proof.
  rewrite existsb_exists, list_elem_of_fmap. split.
  - intros (d & Hd%list_elem_of_In & Hkey%same_entry_key). eauto.
  - intros (d & Hkey & Hd). exists d. split; [by apply list_elem_of_In|].
    by apply same_entry_key.
Qed.

Lemma effect_length shown predictions :
  length shown ≤ 50 → length (effect shown predictions) ≤ 50.
Proof.
  intros Hlen. unfold effect. destruct (0 <? _); [|done].
  rewrite length_take. lia.
Qed.

Lemma effect_sources shown predictions p :
  p ∈ effect shown predictions → p ∈ predictions ∨ p ∈ shown.
Proof.
  unfold effect. destruct (0 <? _); [|auto].
  intros Hp. apply (subseteq_take 50) in Hp.
  apply elem_of_app in Hp as [Hp%list_elem_of_In%filter_In|Hp]; [|auto].
  left. apply list_elem_of_In. tauto.
Qed.

(** X19. Whatever props the prediction log is given, render after
    render, it holds at most 50 entries, each taken from the props of
    some render; and a render changes what is shown exactly when its
    props hold a record whose camera, model and time together match no
    entry shown. *)
Theorem log_capped_and_sourced (renders : list (list Prediction)) :
  length (displayed_after renders) ≤ 50 ∧
  (∀ p, p ∈ displayed_after renders → ∃ props, props ∈ renders ∧ p ∈ props) ∧
  (∀ props,
     displayed_after (renders ++ [props]) = displayed_after renders ↔
     ∀ pred, pred ∈ props →
       ∃ shown, shown ∈ displayed_after renders ∧ same_entry shown pred = true).
Proof.
  assert (length (displayed_after renders) ≤ 50 ∧
          ∀ p, p ∈ displayed_after renders → ∃ props, props ∈ renders ∧ p ∈ props)
    as [Hlen Hsrc].
  { unfold displayed_after.
    induction renders as [|props renders IH] using rev_ind; [split; [cbn; lia|]|].
    - intros p Hp. by apply elem_of_nil in Hp.
    - rewrite foldl_snoc. destruct IH as [IHlen IHsrc]. split.
      + by apply effect_length.
      + intros p [Hp|Hp]%effect_sources.
        * exists props. split; [|done]. set_solver.
        * destruct (IHsrc p Hp) as (props' & Hin & Hp'). exists props'.
          split; [|done]. set_solver. }
  split; [done|]. split; [done|]. intros props.
  unfold displayed_after in *. rewrite foldl_snoc.
  set (shown := foldl effect [] renders) in *. unfold effect.
  set (new := List.filter _ props).
  assert (∀ pred, pred ∈ new ↔
            pred ∈ props ∧
            existsb (λ displayed, same_entry displayed pred) shown = false)
    as Hnew.
  { intros pred. unfold new. rewrite list_elem_of_In, filter_In, negb_true_iff.
    by rewrite <-list_elem_of_In. }
  destruct new as [|pred new'] eqn:Hn; cbn [length Nat.ltb Nat.leb].
  - split; [|done]. intros _ pred Hpred.
    destruct (existsb (λ displayed, same_entry displayed pred) shown) eqn:Hex.
    + apply existsb_exists in Hex as (d & Hd & Hsame). exists d.
      split; [by apply list_elem_of_In|done].
    + exfalso. assert (pred ∈ []) as Hin by (apply Hnew; done).
      by apply elem_of_nil in Hin.
  - assert (pred ∈ props ∧
            existsb (λ displayed, same_entry displayed pred) shown = false)
      as [Hpred Hfresh] by (apply Hnew; left).
    split.
    + intros Heq. exfalso.
      assert (pred ∈ shown) as Hin.
      { rewrite <-Heq. cbn. left. }
      assert (existsb (λ displayed, same_entry displayed pred) shown = true)
        as Hex; [|congruence].
      apply existsb_exists. exists pred. split; [by apply list_elem_of_In|].
      by apply same_entry_key.
    + intros Hall. exfalso. destruct (Hall pred Hpred) as (d & Hd & Hsame).
      assert (existsb (λ displayed, same_entry displayed pred) shown = true)
        as Hex; [|congruence].
      apply existsb_exists. exists d. split; [by apply list_elem_of_In|done].
Qed.

Lemma filter_none {A} (f : A → bool) l :
  (∀ x, x ∈ l → f x = false) → List.filter f l = [].
Proof.
  induction l as [|x l IH]; intros Hall; [done|]. cbn [List.filter].
  rewrite (Hall x) by left. apply IH. intros y Hy. apply Hall. by right.
Qed.

Lemma filter_all {A} (f : A → bool) l :
  (∀ x, x ∈ l → f x = true) → List.filter f l = l.
Proof.
  induction l as [|x l IH]; intros Hall; [done|]. cbn [List.filter].
  rewrite (Hall x) by left. f_equal. apply IH. intros y Hy. apply Hall. by right.
Qed.

(** X20. While what the log shows is the front of the history it is
    given, and the records of the history differ from one another in
    camera, model or time, the log keeps up: given the history with a
    batch put in front, it shows the first 50 records of the new
    history. *)
Theorem log_follows_history (batch history : list Prediction) :
  distinct_entries (batch ++ history) → length history ≤ 50 →
  effect history (batch ++ history) = take 50 (batch ++ history).
Proof.
  intros Hdistinct Hlen. unfold distinct_entries in Hdistinct.
  rewrite fmap_app in Hdistinct.
  apply NoDup_app in Hdistinct as (_ & Hfresh & _).
  unfold effect. rewrite List.filter_app.
  rewrite (filter_none _ history), (filter_all _ batch), app_nil_r.
  - destruct batch as [|p batch]; [|done]. cbn. by rewrite take_ge.
  - intros p Hp. rewrite negb_true_iff.
    destruct (existsb _ history) eqn:Hex; [|done].
    apply shown_iff in Hex. exfalso.
    apply (Hfresh _ (list_elem_of_fmap_2 _ _ _ Hp) Hex).
  - intros p Hp. rewrite negb_false_iff. apply shown_iff.
    exact (list_elem_of_fmap_2
             (λ p, (cameraId p, model p, timestamp p)) history p Hp).
Qed.

Lemma log_follows_history_witness :
  effect [sample 0 10; sample 1 10] ([sample 0 20; sample 1 20] ++ [sample 0 10; sample 1 10])
  = take 50 ([sample 0 20; sample 1 20] ++ [sample 0 10; sample 1 10]).
Proof.
  apply (log_follows_history [sample 0 20; sample 1 20] [sample 0 10; sample 1 10]).
  - unfold distinct_entries. apply (bool_decide_unpack _). by vm_compute.
  - cbn. lia.
Defined.

End Frontend.

(** ** Browser launch and autostart *)

Section Launch.

Lemma launcher_cleared evs : ∀ l,
  cleared l = true → waiting l = 0 → foldl launcher_step l evs = l.
Proof.
  induction evs as [|ev evs IH]; intros l Hc Hw; [done|].
  cbn [foldl]. assert (launcher_step l ev = l) as ->; [|by apply IH].
  destruct ev; cbn; by rewrite ?Hc, ?Hw.
Qed.

Lemma launcher_polls outcomes : ∀ a,
  a < launcher_maxAttempts →
  let l := foldl launcher_step
             {| attempts := a; cleared := false; waiting := 0; launched := 0 |}
             (polls outcomes) in
  waiting l = 0 ∧
  match first_ready (take (launcher_maxAttempts - a) outcomes) with
  | Some k => launched l = 1 ∧ attempts l = S (a + k) ∧ cleared l = true
  | None =>
      launched l = 0 ∧
      attempts l = a + min (launcher_maxAttempts - a) (length outcomes) ∧
      cleared l = (launcher_maxAttempts - a <=? length outcomes)
  end.
Proof.
  unfold launcher_maxAttempts.
  induction outcomes as [|net outcomes IH]; intros a Ha; cbn zeta.
  - rewrite take_nil. cbn. split; [done|]. split; [done|]. split; [lia|].
    symmetry. apply Nat.leb_gt. lia.
  - destruct (30 - a) as [|n] eqn:Hn; [lia|].
    cbn [polls foldl launcher_step cleared waiting attempts launched take first_ready].
    destruct (isReady net) eqn:Hready.
    + rewrite launcher_cleared by done. cbn. split; [done|].
      split; [done|]. split; [lia|done].
    + unfold launcher_maxAttempts. destruct (Nat.leb_spec 30 (S a)) as [Hlast|Hmore].
      * rewrite launcher_cleared by done. cbn.
        assert (n = 0) as -> by lia. rewrite take_0. cbn.
        split; [done|]. split; [done|]. split; [lia|done].
      * specialize (IH (S a) Hmore). cbn zeta in IH.
        replace (30 - S a) with n in IH by lia.
        destruct IH as [Hw IH]. split; [done|].
        destruct (first_ready (take n outcomes)) as [k|]; cbn.
        -- destruct IH as (? & ? & ?). split; [done|]. split; [lia|done].
        -- destruct IH as (? & ? & ?). split; [done|]. split; [lia|done].
Qed.

Lemma launcher_hung n : ∀ a w,
  foldl launcher_step
    {| attempts := a; cleared := false; waiting := w; launched := 0 |}
    (replicate n IntervalFires)
  = {| attempts := a + n; cleared := false; waiting := w + n; launched := 0 |}.
Proof.
  induction n as [|n IH]; intros a w; cbn.
  - by rewrite !Nat.add_0_r.
  - rewrite IH. f_equal; lia.
Qed.

(** X21. When every check settles before the interval fires again, the
    browser is launched once, at the first check among the first 30
    that finds the page ready, and checking stops there; when none of
    them does, nothing is launched and checking stops after the 30th.
    The limit counts settled checks only: while no check settles the
    interval goes on firing, past 30, with nothing launched and nothing
    given up. *)
Theorem launch_after_first_ready_check (outcomes : list FetchOutcome) (n : nat) :
  (let l := checkViteAndLaunchFirefox (polls outcomes) in
   waiting l = 0 ∧
   match first_ready (take 30 outcomes) with
   | Some k => launched l = 1 ∧ attempts l = S k ∧ cleared l = true
   | None => launched l = 0 ∧ attempts l = min 30 (length outcomes) ∧
             cleared l = (30 <=? length outcomes)
   end) ∧
  checkViteAndLaunchFirefox (replicate n IntervalFires)
  = {| attempts := n; cleared := false; waiting := n; launched := 0 |}.
Proof.
  split.
  - apply (launcher_polls outcomes 0). unfold launcher_maxAttempts. lia.
  - apply (launcher_hung n 0 0).
Qed.

End Launch.

Section Autostart.

Lemma split_lines_nonempty s : JsString.split_lines s ≠ [].
Proof.
  destruct s as [|c s]; [done|]. cbn.
  destruct (Ascii.eqb c JsString.newline); [done|].
  by destruct (JsString.split_lines s).
Qed.

Lemma join_split_lines s : join_lines (JsString.split_lines s) = s.
Proof.
  induction s as [|c s IH]; [done|]. cbn [JsString.split_lines].
  pose proof (split_lines_nonempty s) as Hne.
  destruct (Ascii.eqb_spec c JsString.newline) as [->|Hc].
  - destruct (JsString.split_lines s) as [|l ls]; [done|].
    cbn [join_lines] in *. by rewrite IH.
  - destruct (JsString.split_lines s) as [|l ls]; [done|].
    cbn [join_lines] in *. destruct ls; by rewrite <-IH.
Qed.

Lemma prefix_first_line s : ∀ w l ls,
  JsString.split_lines s = l :: ls →
  String.prefix w l = true → String.prefix w s = true.
Proof.
  induction s as [|c s IH]; intros w l ls; cbn [JsString.split_lines].
  - by intros [= <- <-].
  - destruct (Ascii.eqb c JsString.newline).
    + intros [= <- <-]. by destruct w.
    + pose proof (split_lines_nonempty s) as Hne.
      destruct (JsString.split_lines s) as [|l' ls']; [done|].
      intros [= <- <-]. destruct w as [|a w]; [done|]. cbn [String.prefix].
      destruct (ascii_dec a c); [|done]. by apply IH with ls'.
Qed.

Lemma lines_without w s :
  w ≠ "" → JsString.includes w s = false →
  Forall (λ line, JsString.includes w line = false) (JsString.split_lines s).
Proof.
  intros Hw. assert (JsString.includes w "" = false) as Hempty
    by (by destruct w).
  induction s as [|c s IH]; cbn [JsString.includes JsString.split_lines].
  - intros _. by apply Forall_singleton.
  - intros [Hstart Hrest]%orb_false_elim. specialize (IH Hrest).
    destruct (Ascii.eqb c JsString.newline) eqn:Hc.
    + by apply Forall_cons.
    + pose proof (prefix_first_line s) as Hprefix.
      pose proof (split_lines_nonempty s) as Hne.
      destruct (JsString.split_lines s) as [|l ls].
      * done.
      * apply Forall_cons in IH as [Hl Hls]. apply Forall_cons. split; [|done].
        cbn [JsString.includes]. rewrite Hl, orb_false_r.
        destruct (JsString.startsWith w (String c l)) eqn:Hp; [|done].
        rewrite <-Hstart. symmetry. unfold JsString.startsWith in *.
        destruct w as [|a w]; [done|]. cbn [String.prefix] in *.
        destruct (ascii_dec a c); [|done]. by apply (Hprefix w l ls).
Qed.

Lemma newCrontab_without dirname stdout :
  JsString.includes "vertiplant" stdout = false →
  newCrontab dirname stdout =
    JsString.trim stdout +:+ String JsString.newline
      (cronCommand dirname +:+ String JsString.newline "").
Proof.
  intros Hfree. unfold newCrontab. rewrite filter_all, join_split_lines; [done|].
  intros line Hline. apply negb_true_iff.
  assert (Forall (λ line, JsString.includes "vertiplant" line = false)
            (JsString.split_lines stdout)) as Hall
    by (by apply lines_without).
  rewrite Forall_forall in Hall. by apply Hall.
Qed.

End Autostart.

(** ** The error overlay *)

Section ErrorOverlay.
Import CameraGrid.

Lemma errors_survive later : ∀ s e,
  within_caps (globals s) →
  e ∈ systemErrors (globals s) →
  length (systemErrors (globals (system_run later s))) < 50 →
  e ∈ systemErrors (globals (system_run later s)).
Proof.
  induction later as [|ev later IH] using rev_ind; intros s e Hc He Hlen; [done|].
  unfold system_run in *. rewrite foldl_snoc in *.
  set (s' := foldl system_step s later) in *.
  assert (within_caps (globals s')) as Hc' by (by apply system_run_caps).
  destruct (system_step_caps s' ev Hc') as [_ [_ [errors Herr]]].
  rewrite Herr in *. rewrite length_take in Hlen. 
  assert (length (errors ++ systemErrors (globals s')) < 50) as Hlen'.
  { destruct (Nat.min_spec 50 (length (errors ++ systemErrors (globals s'))))
      as [[? Hm]|[? Hm]]; rewrite Hm in Hlen; lia. }
  rewrite take_ge by lia. apply elem_of_app. right.
  rewrite length_app in Hlen'. subst s'. apply IH; [done|done|lia].
Qed.

(** X23. An error entry is never taken back: in every state the server
    reaches, an entry of the error history is still there after any
    further events, as long as the history then holds fewer than 50
    entries.  Given that history, the grid therefore keeps the error
    overlay on a camera that failed once, whatever succeeds later. *)
Theorem error_overlay_stays (detected : list CameraDescriptor) (t0 : N)
    (evs later : list SystemEvent) (camera : CameraDescriptor) :
  let s := system_run evs (initialize detected t0) in
  let s' := system_run later s in
  hasError (systemErrors (globals s)) camera = true →
  length (systemErrors (globals s')) < 50 →
  hasError (systemErrors (globals s')) camera = true.
Proof.
  cbn zeta. unfold hasError. rewrite !existsb_exists.
  intros (e & He%list_elem_of_In & Hcam) Hlen. exists e. split; [|done].
  apply list_elem_of_In, errors_survive; [|done|done].
  apply system_run_caps, initialize_caps.
Qed.

Lemma error_overlay_stays_witness :
  hasError
    (systemErrors (globals
       (system_run [Elapse 2000; Tick; Camera 1 0 (TaskProc (StdoutData [Byte.xff]))]
          (system_run [Tick; Camera 0 0 (TaskProc (Close (Some 1%Z)))]
             (initialize [camera0] 0)))))
    camera0 = true.
Proof.
  apply (error_overlay_stays [camera0] 0
           [Tick; Camera 0 0 (TaskProc (Close (Some 1%Z)))]
           [Elapse 2000; Tick; Camera 1 0 (TaskProc (StdoutData [Byte.xff]))]
           camera0).
  - reflexivity.
  - vm_compute. lia.
Defined.

End ErrorOverlay.

(** ** Results of a cycle *)

Section Commit.

#[local] Arguments base64 : simpl never.
#[local] Arguments addSystemError : simpl never.
#[local] Arguments commitPredictions : simpl never.

Lemma addSystemError_predictions camId error now g :
  predictions (addSystemError camId error now g) = predictions g.
Proof. by destruct (addSystemError_others camId error now g) as (_ & _ & _ & ? & _). Qed.

Lemma deliver_predictions e now g j :
  predictions (deliver e now (g, j)).1 = predictions g.
Proof.
  unfold deliver. destruct (proc_closed j); [done|].
  destruct e; cbn; try done.
  - unfold on_close. destruct (_ && _ && _); cbn; [done|].
    apply addSystemError_predictions.
  - apply addSystemError_predictions.
Qed.

Lemma fire_timer_predictions now g j :
  predictions (fire_timer now (g, j)).1 = predictions g.
Proof.
  unfold fire_timer. destruct (firedAt j); [done|].
  destruct (armedAt j) as [armed|]; [|done].
  destruct (_ <=? _)%N; [|done]. unfold on_timeout. cbn.
  destruct (negb _); cbn; [apply addSystemError_predictions|done].
Qed.

Lemma resume_step now g t :
  predictions (resume now (g, t)).1 = predictions g ∧
  stays_finished t (resume now (g, t)).2.
Proof.
  unfold resume, stays_finished.
  destruct (task_phase t) eqn:Hphase; cbn [fst snd];
    [|by rewrite Hphase|by rewrite Hphase].
  destruct (promise _); cbn [fst snd task_phase]; [by rewrite Hphase|done|].
  split; [apply addSystemError_predictions|done].
Qed.

Lemma task_step_keeps e now g t :
  predictions (task_step e now (g, t)).1 = predictions g ∧
  stays_finished t (task_step e now (g, t)).2.
Proof.
  unfold task_step. destruct e as [e|net].
  - pose proof (deliver_predictions e now g (task_job t)) as Hd.
    destruct (deliver e now (g, task_job t)) as [g' j]. cbn [fst] in Hd.
    destruct (resume_step now g' {| task_job := j; task_model := task_model t;
                                    task_phase := task_phase t |}) as [Hp Hf].
    split; [by rewrite Hp|]. intros outcome Ho. by apply Hf.
  - unfold stays_finished.
    destruct (task_phase t) as [|frame|outcome] eqn:Hphase; cbn [fst snd];
      [by rewrite Hphase| |by rewrite Hphase].
    unfold sendPrediction, sendPrediction_try.
    destruct net as [|[] ? [body|]]; cbn; rewrite ?Hphase; try done.
    destruct (get_property body "error") as [[field|]|]; cbn; try done.
    by destruct (truthy field).
Qed.

Lemma task_timer_keeps now g t :
  predictions (task_timer now (g, t)).1 = predictions g ∧
  stays_finished t (task_timer now (g, t)).2.
Proof.
  unfold task_timer.
  pose proof (fire_timer_predictions now g (task_job t)) as Hd.
  destruct (fire_timer now (g, task_job t)) as [g' j]. cbn [fst] in Hd.
  destruct (resume_step now g' {| task_job := j; task_model := task_model t;
                                  task_phase := task_phase t |}) as [Hp Hf].
  split; [by rewrite Hp|]. intros outcome Ho. by apply Hf.
Qed.

Lemma thread_keeps_finished (f : ServerState * CameraTask → ServerState * CameraTask) :
  (∀ g t, predictions (f (g, t)).1 = predictions g ∧
          stays_finished t (f (g, t)).2) →
  ∀ ts g, predictions (thread f g ts).1 = predictions g ∧
          Forall2 stays_finished ts (thread f g ts).2.
Proof.
  intros Hf ts. induction ts as [|t ts IH]; intros g; cbn; [by split|].
  destruct (Hf g t) as [Hp Ht]. destruct (f (g, t)) as [g1 t1]. cbn in *.
  destruct (IH g1) as [Hp' Hts]. destruct (thread f g1 ts) as [g2 ts']. cbn in *.
  split; [congruence|]. by constructor.
Qed.

Lemma thread_at_keeps_finished k
    (f : ServerState * CameraTask → ServerState * CameraTask) :
  (∀ g t, predictions (f (g, t)).1 = predictions g ∧
          stays_finished t (f (g, t)).2) →
  ∀ ts g, predictions (thread_at k f g ts).1 = predictions g ∧
          Forall2 stays_finished ts (thread_at k f g ts).2.
Proof.
  intros Hf ts g. unfold thread_at.
  assert (Forall2 stays_finished ts ts) as Hrefl.
  { apply Forall2_same_length_lookup. split; [done|].
    intros i t t' Ht Ht'. assert (t = t') as <- by congruence. by intros ?. }
  destruct (ts !! k) as [t|] eqn:Hk; [|done].
  destruct (Hf g t) as [Hp Ht]. destruct (f (g, t)) as [g1 t1]. cbn in *.
  split; [done|].
  rewrite <-(list_insert_id ts k t Hk) at 1.
  by apply Forall2_insert.
Qed.

Lemma finished_stay ts ts' :
  Forall2 stays_finished ts ts' → forallb is_finished ts = true →
  forallb is_finished ts' = true ∧ task_outcome <$> ts' = task_outcome <$> ts.
Proof.
  induction 1 as [|t t' ts ts' Ht Hts IH]; [done|]. cbn [forallb fmap list_fmap].
  intros [Hfin Hrest]%andb_prop. destruct (IH Hrest) as [IHf IHo].
  rewrite IHf, IHo. unfold is_finished in Hfin.
  destruct (task_phase t) as [| |outcome] eqn:Hphase; try done.
  unfold is_finished at 1, task_outcome at 1 3.
  by rewrite (Ht outcome Hphase), Hphase.
Qed.

(** What one step of a cycle does, through [try_commit]. *)
Lemma commit_step n g g' c ts :
  cycle_settled n c → predictions g' = predictions g →
  Forall2 stays_finished (cycle_tasks c) ts →
  let st := try_commit (g', with_tasks ts c) in
  cycle_settled n st.2 ∧
  (cycle_committed c = true →
   cycle_committed st.2 = true ∧ cycle_outcomes st.2 = cycle_outcomes c) ∧
  (∀ p, p ∈ predictions st.1 →
        p ∈ predictions g ∨
        cycle_committed st.2 = true ∧ Some p ∈ cycle_outcomes st.2).
Proof.
  intros [Hlen Hk] Hp Hts. cbn zeta. unfold try_commit, cycle_outcomes.
  cbn [cycle_committed with_tasks cycle_tasks].
  pose proof (Forall2_length _ _ _ Hts) as Hlen'.
  assert (length ts = n) as Hn by congruence.
  destruct (cycle_committed c) eqn:Hc.
  - destruct (finished_stay _ _ Hts (eq_sym Hk)) as [Hfin Hout].
    unfold cycle_settled. cbn. rewrite Hfin.
    split; [done|]. split; [done|].
    intros p Hin. left. by rewrite <-Hp.
  - destruct (forallb is_finished ts) eqn:Hfin;
      unfold cycle_settled; cbn; rewrite ?Hfin.
    + split; [done|]. split; [done|].
      intros p Hin. rewrite commitPredictions_predictions in Hin.
      apply (subseteq_take 100) in Hin.
      apply elem_of_app in Hin as [Hin|Hin]; [right|left; by rewrite <-Hp].
      split; [done|]. unfold non_null in Hin.
      apply list_elem_of_omap in Hin as (o & Ho & Heq). by subst o.
    + split; [done|]. split; [done|].
      intros p Hin. left. by rewrite <-Hp.
Qed.

Lemma cycle_timers_commit n now g c :
  cycle_settled n c →
  let st := cycle_timers now (g, c) in
  cycle_settled n st.2 ∧
  (cycle_committed c = true →
   cycle_committed st.2 = true ∧ cycle_outcomes st.2 = cycle_outcomes c) ∧
  (∀ p, p ∈ predictions st.1 →
        p ∈ predictions g ∨
        cycle_committed st.2 = true ∧ Some p ∈ cycle_outcomes st.2).
Proof.
  intros Hc. cbn zeta. unfold cycle_timers.
  destruct (thread_keeps_finished (task_timer now) (task_timer_keeps now)
              (cycle_tasks c) g) as [Hp Hts].
  destruct (thread (task_timer now) g (cycle_tasks c)) as [g' ts].
  by apply commit_step.
Qed.

Lemma cycle_event_commit n cam e now g c :
  cycle_settled n c →
  let st := cycle_event cam e now (g, c) in
  cycle_settled n st.2 ∧
  (cycle_committed c = true →
   cycle_committed st.2 = true ∧ cycle_outcomes st.2 = cycle_outcomes c) ∧
  (∀ p, p ∈ predictions st.1 →
        p ∈ predictions g ∨
        cycle_committed st.2 = true ∧ Some p ∈ cycle_outcomes st.2).
Proof.
  intros Hc. cbn zeta. unfold cycle_event.
  destruct (thread_at_keeps_finished cam (task_step e now) (task_step_keeps e now)
              (cycle_tasks c) g) as [Hp Hts].
  destruct (thread_at cam (task_step e now) g (cycle_tasks c)) as [g' ts].
  by apply commit_step.
Qed.

Lemma cycle_resume_commit n now g c :
  cycle_settled n c →
  let st := cycle_resume now (g, c) in
  cycle_settled n st.2 ∧
  (cycle_committed c = true →
   cycle_committed st.2 = true ∧ cycle_outcomes st.2 = cycle_outcomes c) ∧
  (∀ p, p ∈ predictions st.1 →
        p ∈ predictions g ∨
        cycle_committed st.2 = true ∧ Some p ∈ cycle_outcomes st.2).
Proof.
  intros Hc. cbn zeta. unfold cycle_resume.
  destruct (thread_keeps_finished (resume now) (resume_step now)
              (cycle_tasks c) g) as [Hp Hts].
  destruct (thread (resume now) g (cycle_tasks c)) as [g' ts].
  by apply commit_step.
Qed.

Section Cycles.

Variable n : nat.
Variable f : ServerState * Cycle → ServerState * Cycle.
Hypothesis f_commit : ∀ g c,
  cycle_settled n c →
  cycle_settled n (f (g, c)).2 ∧
  (cycle_committed c = true →
   cycle_committed (f (g, c)).2 = true ∧
   cycle_outcomes (f (g, c)).2 = cycle_outcomes c) ∧
  (∀ p, p ∈ predictions (f (g, c)).1 →
        p ∈ predictions g ∨
        cycle_committed (f (g, c)).2 = true ∧ Some p ∈ cycle_outcomes (f (g, c)).2).

Lemma thread_commit cs : ∀ before g,
  Forall (cycle_settled n) cs → from_committed g (before ++ cs) →
  Forall (cycle_settled n) (thread f g cs).2 ∧
  from_committed (thread f g cs).1 (before ++ (thread f g cs).2).
Proof.
  induction cs as [|c cs IH]; intros before g Hcs Hsrc; [done|].
  apply Forall_cons in Hcs as [Hc Hcs]. cbn [thread].
  destruct (f_commit g c Hc) as (Hc1 & Hmono & Hnew).
  destruct (f (g, c)) as [g1 c1]. cbn [fst snd] in *.
  destruct (IH (before ++ [c1]) g1 Hcs) as [Hcs2 Hsrc2].
  { intros p [Hold|[Hcom Hout]]%Hnew; rewrite <-app_assoc; cbn [app].
    - destruct (Hsrc p Hold) as (c0 & Hin & Hc0 & Hp0).
      apply elem_of_app in Hin as [Hin|Hin].
      + exists c0. split; [apply elem_of_app; by left|done].
      + apply elem_of_cons in Hin as [->|Hin].
        * destruct (Hmono Hc0) as [Hcom Hout]. exists c1. rewrite Hout.
          split; [|done]. apply elem_of_app. right. left.
        * exists c0. split; [|done]. apply elem_of_app. right. by right.
    - exists c1. split; [|done]. apply elem_of_app. right. left. }
  destruct (thread f g1 cs) as [g2 cs']. cbn [fst snd] in *.
  split; [by constructor|]. by rewrite <-app_assoc in Hsrc2.
Qed.

Lemma thread_at_commit k cs g :
  Forall (cycle_settled n) cs → from_committed g cs →
  Forall (cycle_settled n) (thread_at k f g cs).2 ∧
  from_committed (thread_at k f g cs).1 (thread_at k f g cs).2.
Proof.
  intros Hcs Hsrc. unfold thread_at.
  destruct (cs !! k) as [c|] eqn:Hk; [|done].
  pose proof (Forall_lookup_1 _ _ _ _ Hcs Hk) as Hc.
  destruct (f_commit g c Hc) as (Hc1 & Hmono & Hnew).
  destruct (f (g, c)) as [g1 c1]. cbn [fst snd] in *.
  split; [by apply Forall_insert|].
  assert (k < length cs) as Hlt by (by eapply lookup_lt_Some).
  intros p [Hold|[Hcom Hout]]%Hnew.
  - destruct (Hsrc p Hold) as (c0 & Hin & Hc0 & Hp0).
    apply list_elem_of_lookup in Hin as [i Hi].
    destruct (decide (i = k)) as [->|Hne].
    + assert (c0 = c) as -> by congruence.
      destruct (Hmono Hc0) as [Hcom Hout]. exists c1. rewrite Hout.
      split; [|done]. apply list_elem_of_lookup. exists k.
      by apply list_lookup_insert_eq.
    + exists c0. split; [|done]. apply list_elem_of_lookup. exists i.
      by rewrite list_lookup_insert_ne.
  - exists c1. split; [|done]. apply list_elem_of_lookup. exists k.
    by apply list_lookup_insert_eq.
Qed.

End Cycles.

Lemma system_step_commit detected s ev :
  cameras (globals s) = detected →
  Forall (cycle_settled (length detected)) (cycles s) →
  from_committed (globals s) (cycles s) →
  Forall (cycle_settled (length detected)) (cycles (system_step s ev)) ∧
  from_committed (globals (system_step s ev)) (cycles (system_step s ev)).
Proof.
  intros Hcams Hcs Hsrc.
  destruct ev as [|dt|k cam e|faults]; cbn [system_step]; [| | |done].
  - destruct (intervalArmed s); [|done]. unfold predictionLoop.
    destruct (length (cameras (globals s)) =? 0) eqn:Hn; cbn [orb].
    { cbn. by rewrite app_nil_r. }
    destruct (length (currentModels (globals s)) =? 0).
    { cbn. by rewrite app_nil_r. }
    match goal with
    | |- context [cycle_resume ?now (?g, ?c)] =>
        assert (cycle_settled (length detected) c) as Hc0;
        [|destruct (cycle_resume_commit (length detected) now g c Hc0)
            as (Hc1 & _ & Hnew);
          destruct (cycle_resume now (g, c)) as [g1 c1]]
    end.
    { split; cbn [cycle_tasks cycle_committed].
      - by rewrite length_imap, Hcams.
      - destruct (cameras (globals s)); [done|]. done. }
    cbn [fst snd globals cycles option_list] in *. split.
    + apply Forall_app. split; [done|]. by apply Forall_singleton.
    + intros p [Hold|[Hcom Hout]]%Hnew.
      * destruct (Hsrc p Hold) as (c & Hin & Hc & Ho).
        exists c. split; [apply elem_of_app; by left|done].
      * exists c1. split; [|done]. apply elem_of_app. right. left.
  - pose proof (thread_commit (length detected) (cycle_timers (clock s + dt))
                  (cycle_timers_commit (length detected) (clock s + dt))
                  (cycles s) [] (globals s) Hcs Hsrc) as H.
    by destruct (thread _ _ _).
  - pose proof (thread_at_commit (length detected) (cycle_event cam e (clock s))
                  (cycle_event_commit (length detected) cam e (clock s))
                  k (cycles s) (globals s) Hcs Hsrc) as H.
    by destruct (thread_at _ _ _ _).
Qed.


End Commit.

(** ** The autostart entry across starts *)

Section AutostartReplaced.

Lemma rev_app_append a : ∀ b, String.rev_app a b = String.rev a +:+ b.
Proof.
  unfold String.rev. induction a as [|c a IH]; intros b; [done|].
  cbn [String.rev_app]. rewrite (IH (String c b)), (IH (String c "")).
  by rewrite append_assoc.
Qed.

Lemma rev_cons c a : String.rev (String c a) = String.rev a +:+ String c "".
Proof. unfold String.rev at 1. cbn [String.rev_app]. apply rev_app_append. Qed.

Lemma rev_append a b : String.rev (a +:+ b) = String.rev b +:+ String.rev a.
Proof.
  induction a as [|c a IH]; [by rewrite append_nil_r|].
  by rewrite append_cons, !rev_cons, IH, append_assoc.
Qed.

Lemma rev_involutive a : String.rev (String.rev a) = a.
Proof.
  induction a as [|c a IH]; [done|]. by rewrite rev_cons, rev_append, IH.
Qed.

Lemma trimStart_idempotent s :
  JsString.trimStart (JsString.trimStart s) = JsString.trimStart s.
Proof.
  induction s as [|c s IH]; [done|]. cbn [JsString.trimStart].
  destruct (JsString.is_space c) eqn:Hc; [done|].
  cbn [JsString.trimStart]. by rewrite Hc.
Qed.

Lemma trimStart_length s :
  String.length (JsString.trimStart s) ≤ String.length s.
Proof.
  induction s as [|c s IH]; [done|]. cbn [JsString.trimStart].
  destruct (JsString.is_space c); cbn [String.length]; lia.
Qed.

Lemma trimStart_suffix s : ∃ ws, s = ws +:+ JsString.trimStart s.
Proof.
  induction s as [|c s [ws IH]]; [by exists ""|]. cbn [JsString.trimStart].
  destruct (JsString.is_space c); [|by exists ""].
  exists (String c ws). by rewrite append_cons, <-IH.
Qed.

Lemma trimEnd_prefix s : ∃ ws, s = JsString.trimEnd s +:+ ws.
Proof.
  destruct (trimStart_suffix (String.rev s)) as [ws Hws].
  exists (String.rev ws). unfold JsString.trimEnd.
  by rewrite <-rev_append, <-Hws, rev_involutive.
Qed.

Lemma trimStart_snoc c u :
  JsString.is_space c = false →
  ∃ u', JsString.trimStart (u +:+ String c "") = u' +:+ String c "".
Proof.
  intros Hc. induction u as [|d u [u' IH]].
  - exists "". change ("" +:+ String c "") with (String c "").
    cbn [JsString.trimStart]. by rewrite Hc.
  - rewrite append_cons. cbn [JsString.trimStart].
    destruct (JsString.is_space d); [by exists u'|].
    exists (String d u). by rewrite append_cons.
Qed.

(** What [trim] returns has no white space left at either end. *)
Lemma trim_trimmed s :
  JsString.trimStart (JsString.trim s) = JsString.trim s ∧
  JsString.trimStart (String.rev (JsString.trim s)) = String.rev (JsString.trim s).
Proof.
  unfold JsString.trim, JsString.trimEnd. split.
  - pose proof (trimStart_idempotent s) as Hidem.
    destruct (JsString.trimStart s) as [|c t]; [done|].
    cbn [JsString.trimStart] in Hidem.
    destruct (JsString.is_space c) eqn:Hc.
    + exfalso. pose proof (trimStart_length t) as Hlen.
      rewrite Hidem in Hlen. cbn [String.length] in Hlen. lia.
    + rewrite rev_cons. destruct (trimStart_snoc c (String.rev t) Hc) as [u' ->].
      rewrite rev_append.
      change (String.rev (String c "")) with (String c "").
      rewrite append_cons. cbn [JsString.trimStart]. by rewrite Hc.
  - by rewrite rev_involutive, trimStart_idempotent.
Qed.

Lemma blank_cons c s :
  blank (String c s) ↔ JsString.is_space c = true ∧ blank s.
Proof.
  unfold blank. cbn [JsString.trimStart].
  destruct (JsString.is_space c); [|by split; [|intros [? _]]].
  by split; [|intros [_ ?]].
Qed.

Lemma trimStart_blank a s :
  blank a → JsString.trimStart (a +:+ s) = JsString.trimStart s.
Proof.
  induction a as [|c a IH]; [done|]. intros [Hc Ha]%blank_cons.
  rewrite append_cons. cbn [JsString.trimStart]. rewrite Hc. by apply IH.
Qed.

Lemma blank_rev s : blank s → blank (String.rev s).
Proof.
  induction s as [|c s IH]; [done|]. intros [Hc Hs]%blank_cons.
  rewrite rev_cons. unfold blank. rewrite trimStart_blank by auto.
  cbn [JsString.trimStart]. by rewrite Hc.
Qed.

Lemma trim_with_blank x t :
  JsString.trimStart x = x →
  JsString.trimStart (String.rev x) = String.rev x →
  blank t → JsString.trim (x +:+ t) = x.
Proof.
  intros Hstart Hend Ht. unfold JsString.trim, JsString.trimEnd.
  destruct x as [|c x].
  - change ("" +:+ t) with t. by rewrite Ht.
  - rewrite append_cons. cbn [JsString.trimStart] in *.
    destruct (JsString.is_space c) eqn:Hc.
    + exfalso. pose proof (trimStart_length x) as Hlen.
      rewrite Hstart in Hlen. cbn [String.length] in Hlen. lia.
    + rewrite <-append_cons, rev_append, trimStart_blank by (by apply blank_rev).
      by rewrite Hend, rev_involutive.
Qed.

Lemma blank_without w s :
  (∃ x w', w = String x w' ∧ JsString.is_space x = false) →
  blank s → JsString.includes w s = false.
Proof.
  intros (x & w' & -> & Hx). induction s as [|c s IH]; [done|].
  intros [Hc Hs]%blank_cons. cbn [JsString.includes]. rewrite (IH Hs), orb_false_r.
  unfold JsString.startsWith. cbn [String.prefix].
  destruct (ascii_dec x c) as [->|?]; [congruence|done].
Qed.

Lemma prefix_nil s : String.prefix "" s = true.
Proof. by destruct s. Qed.

Lemma prefix_append w a b :
  String.prefix w a = true → String.prefix w (a +:+ b) = true.
Proof.
  revert a. induction w as [|x w IH]; intros a; [by rewrite !prefix_nil|].
  destruct a as [|y a]; [done|]. rewrite append_cons. cbn [String.prefix].
  destruct (ascii_dec x y); [apply IH|done].
Qed.

Lemma includes_empty w s : w = "" → JsString.includes w s = true.
Proof. intros ->. by destruct s. Qed.

Lemma includes_append_l w a b :
  JsString.includes w a = true → JsString.includes w (a +:+ b) = true.
Proof.
  induction a as [|c a IH].
  - cbn. rewrite orb_false_r. intros Hw. apply includes_empty.
    by destruct w.
  - rewrite append_cons. cbn [JsString.includes].
    intros [Hp|Hin]%orb_true_iff; apply orb_true_iff.
    + left. rewrite <-append_cons. by apply prefix_append.
    + right. by apply IH.
Qed.

Lemma includes_append_r w a b :
  JsString.includes w b = true → JsString.includes w (a +:+ b) = true.
Proof.
  intros Hb. induction a as [|c a IH]; [done|]. rewrite append_cons.
  cbn [JsString.includes]. by rewrite IH, orb_true_r.
Qed.

Lemma includes_trim w s :
  JsString.includes w s = false → JsString.includes w (JsString.trim s) = false.
Proof.
  intros Hs. destruct (JsString.includes w (JsString.trim s)) eqn:Ht; [|done].
  rewrite <-Hs. symmetry. unfold JsString.trim in Ht.
  destruct (trimStart_suffix s) as [ws Hws].
  destruct (trimEnd_prefix (JsString.trimStart s)) as [ws' Hws'].
  rewrite Hws. apply includes_append_r. rewrite Hws'.
  by apply includes_append_l.
Qed.

Lemma lacks_cons sep c s :
  lacks sep (String c s) ↔ c ≠ sep ∧ lacks sep s.
Proof.
  unfold lacks. cbn [JsString.includes]. unfold JsString.startsWith.
  cbn [String.prefix]. rewrite orb_false_iff.
  destruct (ascii_dec sep c) as [<-|Hc].
  - rewrite prefix_nil. split; [by intros [? _]|by intros [? _]].
  - split; [intros [_ ?]|intros [_ ?]]; by try split.
Qed.

Lemma one_line_cons c s :
  one_line (String c s) ↔ c ≠ JsString.newline ∧ one_line s.
Proof. apply lacks_cons. Qed.

Lemma one_line_append a b : one_line a → one_line b → one_line (a +:+ b).
Proof.
  intros Ha Hb. induction a as [|c a IH]; [done|]. rewrite append_cons.
  apply one_line_cons in Ha as [Hc Ha]. apply one_line_cons. by auto.
Qed.

Lemma split_one_line s : one_line s → JsString.split_lines s = [s].
Proof.
  induction s as [|c s IH]; [done|]. intros [Hc Hs]%one_line_cons.
  cbn [JsString.split_lines]. rewrite (IH Hs).
  by destruct (Ascii.eqb_spec c JsString.newline).
Qed.

Lemma split_append a b :
  JsString.split_lines (a +:+ String JsString.newline b)
  = JsString.split_lines a ++ JsString.split_lines b.
Proof.
  induction a as [|c a IH].
  - change ("" +:+ String JsString.newline b) with (String JsString.newline b).
    cbn [JsString.split_lines]. by rewrite Ascii.eqb_refl.
  - rewrite append_cons. cbn [JsString.split_lines]. rewrite IH.
    destruct (Ascii.eqb c JsString.newline); [done|].
    pose proof (split_lines_nonempty a) as Hne.
    by destruct (JsString.split_lines a).
Qed.

Lemma join_app ls ls' :
  ls ≠ [] → ls' ≠ [] →
  join_lines (ls ++ ls') = join_lines ls +:+ String JsString.newline (join_lines ls').
Proof.
  intros Hls Hls'. induction ls as [|l1 ls IH]; [done|].
  destruct ls as [|l2 ls].
  - cbn [app]. by destruct ls'.
  - change ((l1 :: l2 :: ls) ++ ls') with (l1 :: l2 :: (ls ++ ls')).
    change (join_lines (l1 :: l2 :: (ls ++ ls')))
      with (l1 +:+ String JsString.newline (join_lines ((l2 :: ls) ++ ls'))).
    change (join_lines (l1 :: l2 :: ls))
      with (l1 +:+ String JsString.newline (join_lines (l2 :: ls))).
    rewrite IH by done. by rewrite append_assoc, append_cons.
Qed.

Lemma prefix_before sep w : ∀ a r,
  lacks sep w → String.prefix w (a +:+ String sep r) = true →
  String.prefix w a = true.
Proof.
  induction w as [|x w IH]; intros a r; [by rewrite !prefix_nil|].
  intros [Hx Hw]%lacks_cons. destruct a as [|y a].
  - change ("" +:+ String sep r) with (String sep r).
    cbn [String.prefix]. by destruct (ascii_dec x sep).
  - rewrite append_cons. cbn [String.prefix].
    destruct (ascii_dec x y); [by apply IH|done].
Qed.

(** A word without [sep] occurs on one side of a [sep] or not at all. *)
Lemma includes_across sep w a r :
  w ≠ "" → lacks sep w →
  JsString.includes w a = false → JsString.includes w r = false →
  JsString.includes w (a +:+ String sep r) = false.
Proof.
  intros Hne Hw Ha Hr. induction a as [|c a IH].
  - change ("" +:+ String sep r) with (String sep r).
    cbn [JsString.includes]. rewrite Hr, orb_false_r.
    destruct w as [|x w]; [done|]. apply lacks_cons in Hw as [Hx _].
    unfold JsString.startsWith. cbn [String.prefix].
    by destruct (ascii_dec x sep).
  - cbn [JsString.includes] in Ha. apply orb_false_elim in Ha as [Hp Ha].
    rewrite append_cons. cbn [JsString.includes]. rewrite (IH Ha), orb_false_r.
    destruct (JsString.startsWith w (String c (a +:+ String sep r)))
      eqn:Hp'; [|done].
    rewrite <-Hp. symmetry. unfold JsString.startsWith in *.
    rewrite <-append_cons in Hp'. by eapply prefix_before.
Qed.

Lemma join_without w ls :
  w ≠ "" → one_line w →
  Forall (λ line, JsString.includes w line = false) ls →
  JsString.includes w (join_lines ls) = false.
Proof.
  intros Hne Hw. induction ls as [|l ls IH]; intros Hls.
  - by destruct w.
  - apply Forall_cons in Hls as [Hl Hls]. destruct ls as [|l2 ls]; [done|].
    cbn [join_lines]. apply includes_across; try done. by apply IH.
Qed.

Lemma shell_plain_append a b :
  shell_plain (a +:+ b) = shell_plain a && shell_plain b.
Proof.
  induction a as [|c a IH]; [done|].
  rewrite append_cons. cbn [shell_plain]. by rewrite IH, andb_assoc.
Qed.

Lemma shell_plain_trimStart s :
  shell_plain s = true → shell_plain (JsString.trimStart s) = true.
Proof.
  destruct (trimStart_suffix s) as [ws Hws]. rewrite Hws at 1.
  rewrite shell_plain_append. by intros [_ ?]%andb_prop.
Qed.

Lemma shell_plain_trim s :
  shell_plain s = true → shell_plain (JsString.trim s) = true.
Proof.
  intros Hs%shell_plain_trimStart. unfold JsString.trim.
  destruct (trimEnd_prefix (JsString.trimStart s)) as [ws Hws].
  rewrite Hws, shell_plain_append in Hs. by apply andb_prop in Hs as [? _].
Qed.

Lemma cronCommand_plain dirname :
  shell_plain (cronCommand dirname) = shell_plain dirname.
Proof.
  unfold cronCommand. rewrite !shell_plain_append.
  assert (shell_plain "@reboot " = true) as -> by reflexivity.
  assert (shell_plain pathEnv = true) as -> by reflexivity.
  assert (shell_plain " cd " = true) as -> by reflexivity.
  assert (shell_plain
            " && /root/.nvm/versions/node/v22.20.0/bin/npm run start-with-mjpeg"
          = true) as -> by reflexivity.
  cbn [andb]. apply andb_true_r.
Qed.

Lemma includes_newline a b :
  JsString.includes (String JsString.newline "")
    (a +:+ String JsString.newline b) = true.
Proof.
  apply includes_append_r. cbn [JsString.includes]. unfold JsString.startsWith.
  cbn [String.prefix]. destruct (ascii_dec _ _); [|done]. by rewrite prefix_nil.
Qed.

(** An entry with the command of [dirname] at the end of [front]: what
    [crontab -] reads when [setupCrontab] has built it. *)
Lemma crontab_stdin_entry front dirname :
  shell_plain front = true → shell_plain dirname = true →
  crontab_stdin (front +:+ String JsString.newline
                   (cronCommand dirname +:+ String JsString.newline ""))
  = Some ((front +:+ String JsString.newline
             (cronCommand dirname +:+ String JsString.newline ""))
          +:+ String JsString.newline "").
Proof.
  intros Hfront Hdir. unfold crontab_stdin.
  rewrite includes_newline, shell_plain_append, Hfront.
  cbn [shell_plain andb]. rewrite shell_plain_append, cronCommand_plain, Hdir.
  reflexivity.
Qed.

Lemma setupCrontab_some dirname stdout text :
  setupCrontab dirname stdout = Some text →
  shell_plain (newCrontab dirname stdout) = true ∧
  text = newCrontab dirname stdout +:+ String JsString.newline "".
Proof.
  unfold setupCrontab, crontab_stdin.
  destruct (shell_plain _); [|done]. destruct (JsString.includes _ _); [|done].
  by intros [= <-].
Qed.

Lemma newCrontab_replaced (dirname stdout tail : string) :
  JsString.includes "vertiplant" dirname = true → one_line dirname →
  blank tail →
  newCrontab dirname (newCrontab dirname stdout +:+ tail)
  = newCrontab dirname stdout.
Proof.
  intros Hmark Hline Htail.
  assert (one_line (cronCommand dirname)) as Hcmd.
  { unfold cronCommand. repeat apply one_line_append; done. }
  assert (JsString.includes "vertiplant" (cronCommand dirname) = true) as Hin.
  { unfold cronCommand. do 3 apply includes_append_r.
    by apply includes_append_l. }
  assert (JsString.includes "vertiplant" tail = false) as Hfree.
  { apply blank_without; [|done]. by exists "v"%char, "ertiplant". }
  unfold newCrontab at 2.
  set (kept := JsString.trim (join_lines (List.filter _ (JsString.split_lines stdout)))).
  assert (JsString.includes "vertiplant" kept = false) as Hkept.
  { apply includes_trim, join_without; [done|done|].
    apply Forall_forall. intros line [_ Hl]%list_elem_of_In%filter_In.
    by apply negb_true_iff in Hl. }
  destruct (trim_trimmed (join_lines (List.filter
              (λ line, negb (JsString.includes "vertiplant" line))
              (JsString.split_lines stdout)))) as [Hstart Hend].
  fold kept in Hstart, Hend.
  rewrite append_assoc, append_cons, append_assoc, append_cons.
  change ("" +:+ tail) with tail.
  unfold newCrontab. fold kept.
  rewrite !split_append, (split_one_line _ Hcmd).
  rewrite !List.filter_app. cbn [List.filter]. rewrite Hin. cbn [negb app].
  rewrite !filter_all.
  - rewrite join_app by apply split_lines_nonempty.
    rewrite !join_split_lines, trim_with_blank; [done|done|done|].
    apply blank_cons. by split.
  - intros line Hl. apply negb_true_iff.
    pose proof (lines_without "vertiplant" tail) as Hall.
    rewrite Forall_forall in Hall. by apply Hall.
  - intros line Hl. apply negb_true_iff.
    pose proof (lines_without "vertiplant" kept) as Hall.
    rewrite Forall_forall in Hall. by apply Hall.
Qed.

(** X25. From a directory whose path holds the word [vertiplant] the
    autostart entry is replaced, not repeated. When a start has handed
    [text] to [crontab -] through the shell, and the next listing is
    that text, followed by any white space, [crontab -] reads the same
    text again. *)
Theorem crontab_entry_is_replaced (dirname stdout text tail : string) :
  JsString.includes "vertiplant" dirname = true → one_line dirname →
  blank tail →
  setupCrontab dirname stdout = Some text →
  setupCrontab dirname (text +:+ tail) = Some text.
Proof.
  intros Hmark Hline Htail Hfirst.
  destruct (setupCrontab_some _ _ _ Hfirst) as [_ ->]. rewrite <-Hfirst.
  unfold setupCrontab. f_equal.
  rewrite append_assoc, append_cons. change ("" +:+ tail) with tail.
  apply newCrontab_replaced; try done; apply blank_cons; by split.
Qed.

Lemma crontab_entry_is_replaced_witness :
  setupCrontab "/home/pi/vertiplant"
    ((newCrontab "/home/pi/vertiplant" "MAILTO=pi" +:+ String JsString.newline "")
     +:+ "")
  = Some (newCrontab "/home/pi/vertiplant" "MAILTO=pi"
          +:+ String JsString.newline "").
Proof.
  apply (crontab_entry_is_replaced "/home/pi/vertiplant" "MAILTO=pi");
    by vm_compute.
Defined.

Lemma trimStart_append p s :
  (blank p → JsString.trimStart s = s) →
  JsString.trimStart (p +:+ s) = JsString.trimStart p +:+ s.
Proof.
  induction p as [|c p IH]; intros Hs.
  - change ("" +:+ s) with s. by rewrite Hs.
  - rewrite append_cons. cbn [JsString.trimStart].
    destruct (JsString.is_space c) eqn:Hc; [|done].
    apply IH. intros Hp. apply Hs. by apply blank_cons.
Qed.

Lemma cronCommand_without dirname :
  JsString.includes "vertiplant" dirname = false →
  JsString.includes "vertiplant" (cronCommand dirname) = false.
Proof.
  intros Hdir.
  assert (cronCommand dirname =
          ("@reboot " +:+ pathEnv +:+ " cd") +:+ String " "
            (dirname +:+ String " "
               "&& /root/.nvm/versions/node/v22.20.0/bin/npm run start-with-mjpeg"))
    as -> by reflexivity.
  apply includes_across; [done|by vm_compute|by vm_compute|].
  apply includes_across; [done|by vm_compute|done|by vm_compute].
Qed.

Lemma cronCommand_trimmed dirname s :
  JsString.trimStart (cronCommand dirname +:+ s) = cronCommand dirname +:+ s ∧
  JsString.trimStart (String.rev (cronCommand dirname) +:+ s)
  = String.rev (cronCommand dirname) +:+ s.
Proof.
  split; [done|].
  assert (cronCommand dirname =
          ("@reboot " +:+ pathEnv +:+ " cd " +:+ dirname +:+
           " && /root/.nvm/versions/node/v22.20.0/bin/npm run start-with-mjpe")
          +:+ "g") as ->.
  { unfold cronCommand. by rewrite !append_assoc. }
  rewrite rev_append. change (String.rev "g") with "g". by rewrite append_cons.
Qed.

Lemma newCrontab_accumulates (dirname stdout tail : string) :
  JsString.includes "vertiplant" dirname = false →
  JsString.includes "vertiplant" stdout = false →
  blank tail →
  newCrontab dirname (newCrontab dirname stdout +:+ tail) =
    JsString.trimStart (JsString.trim stdout +:+ String JsString.newline "")
    +:+ cronCommand dirname +:+ String JsString.newline
      (cronCommand dirname +:+ String JsString.newline "").
Proof.
  intros Hdir Hout Htail.
  pose proof (cronCommand_without dirname Hdir) as Hcmd.
  assert (JsString.includes "vertiplant" tail = false) as Hfree.
  { apply blank_without; [|done]. by exists "v"%char, "ertiplant". }
  rewrite (newCrontab_without dirname stdout Hout).
  set (kept := JsString.trim stdout).
  assert (JsString.includes "vertiplant" kept = false) as Hkept
    by (by apply includes_trim).
  rewrite append_assoc, append_cons, append_assoc, append_cons.
  change ("" +:+ tail) with tail.
  rewrite newCrontab_without.
  2: { apply includes_across; [done|by vm_compute|done|].
       by apply includes_across; [done|by vm_compute|done|done]. }
  rewrite <-(append_assoc _ (cronCommand dirname)). f_equal.
  replace (kept +:+ String JsString.newline
             (cronCommand dirname +:+ String JsString.newline tail))
    with ((kept +:+ String JsString.newline "")
          +:+ (cronCommand dirname +:+ String JsString.newline tail))
    by (by rewrite append_assoc, append_cons).
  unfold JsString.trim, JsString.trimEnd.
  rewrite trimStart_append
    by (intros _; apply (cronCommand_trimmed dirname)).
  set (front := JsString.trimStart (kept +:+ String JsString.newline "")).
  rewrite <-append_assoc, rev_append, trimStart_blank.
  2: { apply blank_rev, blank_cons. by split. }
  rewrite rev_append.
  rewrite (proj2 (cronCommand_trimmed dirname (String.rev front))).
  by rewrite <-rev_append, rev_involutive.
Qed.

(** X26. From a directory whose path lacks the word [vertiplant] the
    entries pile up. When a start has handed [text] to [crontab -]
    through the shell, for a listing without the word, and the next
    listing is that text, followed by any white space, [crontab -] reads
    the earlier listing, trimmed, the autostart entry twice, and the
    line break that [echo] adds. *)
Theorem crontab_entries_accumulate (dirname stdout text tail : string) :
  JsString.includes "vertiplant" dirname = false →
  JsString.includes "vertiplant" stdout = false →
  blank tail →
  setupCrontab dirname stdout = Some text →
  setupCrontab dirname (text +:+ tail) =
    Some ((JsString.trimStart (JsString.trim stdout +:+ String JsString.newline "")
           +:+ cronCommand dirname +:+ String JsString.newline
             (cronCommand dirname +:+ String JsString.newline ""))
          +:+ String JsString.newline "").
Proof.
  intros Hdir Hout Htail Hfirst.
  destruct (setupCrontab_some _ _ _ Hfirst) as [Hplain ->].
  unfold setupCrontab.
  rewrite append_assoc, append_cons. change ("" +:+ tail) with tail.
  rewrite newCrontab_accumulates by (try done; apply blank_cons; by split).
  rewrite (newCrontab_without dirname stdout Hout), shell_plain_append in Hplain.
  apply andb_prop in Hplain as [Hkept Hrest]. cbn [shell_plain] in Hrest.
  apply andb_prop in Hrest as [_ Hrest].
  rewrite shell_plain_append, cronCommand_plain in Hrest.
  apply andb_prop in Hrest as [Hcmd _].
  rewrite <-!(append_assoc _ (cronCommand dirname)).
  apply crontab_stdin_entry; [|done].
  rewrite shell_plain_append, cronCommand_plain, Hcmd, andb_true_r.
  apply shell_plain_trimStart. rewrite shell_plain_append, Hkept. reflexivity.
Qed.

Lemma crontab_entries_accumulate_witness :
  setupCrontab "/home/pi/thesis-raspi5"
    ((newCrontab "/home/pi/thesis-raspi5" "MAILTO=pi"
      +:+ String JsString.newline "") +:+ "") =
    Some ((JsString.trimStart (JsString.trim "MAILTO=pi" +:+ String JsString.newline "")
           +:+ cronCommand "/home/pi/thesis-raspi5" +:+ String JsString.newline
             (cronCommand "/home/pi/thesis-raspi5" +:+ String JsString.newline ""))
          +:+ String JsString.newline "").
Proof.
  apply (crontab_entries_accumulate "/home/pi/thesis-raspi5" "MAILTO=pi");
    by vm_compute.
Defined.

(** X22. A crontab that does not mention [vertiplant] anywhere is
    carried over whole. When neither the listing nor the path of the
    directory holds a character that is special to the shell between
    double quotes, [crontab -] reads the listing, trimmed, the autostart
    entry on a line of its own after it, and the line break that [echo]
    adds. *)
Theorem crontab_without_marker_is_kept (dirname stdout : string) :
  JsString.includes "vertiplant" stdout = false →
  shell_plain stdout = true → shell_plain dirname = true →
  setupCrontab dirname stdout =
    Some ((JsString.trim stdout +:+ String JsString.newline
             (cronCommand dirname +:+ String JsString.newline ""))
          +:+ String JsString.newline "").
Proof.
  intros Hfree Hout Hdir. unfold setupCrontab.
  rewrite (newCrontab_without dirname stdout Hfree).
  apply crontab_stdin_entry; [|done]. by apply shell_plain_trim.
Qed.

Lemma crontab_without_marker_is_kept_witness :
  setupCrontab "/home/pi/thesis-raspi5" "MAILTO=pi" =
    Some ((JsString.trim "MAILTO=pi" +:+ String JsString.newline
             (cronCommand "/home/pi/thesis-raspi5" +:+ String JsString.newline ""))
          +:+ String JsString.newline "").
Proof.
  apply (crontab_without_marker_is_kept "/home/pi/thesis-raspi5" "MAILTO=pi");
    by vm_compute.
Defined.

End AutostartReplaced.

(** ** The latest record of each camera, as served *)

Section LatestEndpoint.

Lemma strictly_sorted (ks : list N) :
  StronglySorted N.le ks → NoDup ks → StronglySorted N.lt ks.
Proof.
  induction 1 as [|k ks Hks IH Hall]; intros Hnd; [constructor|].
  apply NoDup_cons in Hnd as [Hk Hnd]. constructor; [by apply IH|].
  rewrite Forall_forall in *. intros k' Hin. specialize (Hall k' Hin).
  assert (k ≠ k') by (by intros ->). lia.
Qed.

Lemma object_values_keys {A} (o : gmap N A) (key : A → N) :
  (∀ k v, o !! k = Some v → key v = k) →
  key <$> object_values o = merge_sort N.le (elements (dom o)) ∧
  ∀ v, v ∈ object_values o ↔ o !! key v = Some v.
Proof.
  intros Hkey. unfold object_values.
  assert (∀ k, k ∈ merge_sort N.le (elements (dom o)) ↔ is_Some (o !! k)) as Hin.
  { intros k. rewrite merge_sort_Permutation, elem_of_elements.
    apply elem_of_dom. }
  split.
  - assert (∀ ks : list N, (∀ k, k ∈ ks → is_Some (o !! k)) →
                  key <$> omap (λ k, o !! k) ks = ks) as Hall.
    { induction ks as [|k ks IH]; intros Hks; [done|].
      destruct (Hks k) as [v Hv]; [left|].
      cbn [omap list_omap]. rewrite Hv. cbn [fmap list_fmap].
      rewrite (Hkey k v Hv). f_equal. apply IH.
      intros k' Hk'. apply Hks. by right. }
    apply Hall. intros k Hk. by apply Hin.
  - intros v. rewrite list_elem_of_omap. split.
    + intros (k & Hk & Hv). by rewrite (Hkey k v Hv).
    + intros Hv. exists (key v). split; [|done]. apply Hin. by eexists.
Qed.

(** X27. [GET /api/predictions/latest] answers with one record for each
    camera that has records in the history, in ascending order of
    camera identifier; each is a record of the history that no record
    of its camera exceeds in time. *)
Theorem api_predictions_latest_answer (g : ServerState) :
  let answer := api_predictions_latest g in
  StronglySorted N.lt (cameraId <$> answer) ∧
  (∀ r, r ∈ answer →
        r ∈ predictions g ∧
        ∀ p, p ∈ predictions g → cameraId p = cameraId r →
             (timestamp p ≤ timestamp r)%N) ∧
  (∀ p, p ∈ predictions g → ∃ r, r ∈ answer ∧ cameraId r = cameraId p).
Proof.
  cbn zeta. unfold api_predictions_latest.
  assert (∀ k v, latestByCamera (predictions g) !! k = Some v → cameraId v = k)
    as Hkey.
  { intros k v Hv. pose proof (latestByCamera_is_latest (predictions g) k) as H.
    rewrite Hv in H. by destruct H as (_ & ? & _). }
  destruct (object_values_keys (latestByCamera (predictions g)) cameraId Hkey)
    as [Hkeys Hin].
  split; [|split].
  - rewrite Hkeys. apply strictly_sorted.
    + apply StronglySorted_merge_sort; [apply _|].
      intros x y. destruct (N.le_ge_cases x y); [by left|by right].
    + rewrite merge_sort_Permutation. apply NoDup_elements.
  - intros r Hr%Hin.
    pose proof (latestByCamera_is_latest (predictions g) (cameraId r)) as H.
    rewrite Hr in H. destruct H as (? & _ & Hmax). split; [done|].
    intros p Hp Hc. by apply Hmax.
  - intros p Hp.
    pose proof (latestByCamera_is_latest (predictions g) (cameraId p)) as H.
    destruct (latestByCamera (predictions g) !! cameraId p) as [r|] eqn:Hr.
    + destruct H as (_ & Hc & _). exists r. split; [|done].
      apply Hin. by rewrite Hc.
    + cbn in H. by destruct (H p Hp).
Qed.

End LatestEndpoint.
